(** * Weigh-station console: scale stream framer, stability detector,
      ticket ledger and transaction controller.

    Shallow embedding of
    - [types.ts]            (Ticket, TicketStatus),
    - [storageService.ts]   (getTickets, saveTicket, findOpenTicketByPlate),
    - [scaleService.ts]     (connect, processData, parseWeight),
    - [WeighingConsole.tsx] (stability effect, handleCapture,
                             processInbound, processOutbound, resetConsole,
                             handleConnectScale, toggleSimulation, the
                             conditions under which the buttons are
                             rendered and enabled),
      in the version of the console that tracks stability,
    - [geminiService.ts]    (identifyTruck, in the version that strips
                             everything but letters and digits),
    - [ReceiptPrinter.tsx]  (the rows of the receipt),
    - [App.tsx]             (the sorted ticket list and the totals).

    Conventions.
    - A JavaScript [number] is modelled by [number]: an exact rational,
      [+Infinity], [-Infinity] or [NaN].  Rounding to binary64 is not
      modelled (the weights of the console are decimal numerals that a
      double holds exactly); the special values follow IEEE 754.
    - A JavaScript string is a [string] of one-byte code units.
    - [localStorage] under the key [reuse_canada_tickets] is the list of
      tickets it serialises; an absent key is [None].  The JSON text itself
      is not modelled.
    - React state is a record; a handler is a function on it.  An effect
      runs with the state change that triggers it.  What the handlers get
      from outside (screenshots, the recognised plate, [crypto.randomUUID()],
      [Date.now()]) comes as arguments of the events.
    - Time is counted in milliseconds ([nat]); [setTimeout] timers are
      entries of an explicit timer table.
    - The recognition service and [JSON.parse] are parameters of
      [identifyTruck]; an [await] splits a handler in the part before it
      and the part after it, other events may come in between.
    - [Array.prototype.sort] is the stable sort of ECMAScript 2019. *)

From Stdlib Require Import Ascii String QArith Qcanon Qcabs Qpower Sorted.
From stdpp Require Import base tactics numbers option strings list.

Local Open Scope Z_scope.

(** ** JavaScript numbers *)

Module JsNumber.

Inductive number : Type :=
  | Num (q : Qc)
  | PosInf
  | NegInf
  | NaN.

Definition of_Z (z : Z) : number := Num (Q2Qc (inject_Z z)).

(** [x - y] *)
Definition num_sub (x y : number) : number :=
  match x, y with
  | NaN, _ | _, NaN => NaN
  | Num a, Num b => Num (a - b)%Qc
  | PosInf, PosInf => NaN
  | NegInf, NegInf => NaN
  | PosInf, _ => PosInf
  | NegInf, _ => NegInf
  | Num _, PosInf => NegInf
  | Num _, NegInf => PosInf
  end.

(** [Math.abs(x)] *)
Definition num_abs (x : number) : number :=
  match x with
  | Num a => Num (Qcabs a)
  | PosInf | NegInf => PosInf
  | NaN => NaN
  end.

Definition sign_of (a : Qc) : comparison := (Qcanon.this a ?= 0)%Q.

Definition inf_times (positive : bool) (a : Qc) : number :=
  match sign_of a with
  | Eq => NaN
  | Gt => if positive then PosInf else NegInf
  | Lt => if positive then NegInf else PosInf
  end.

(** [x * y] *)
Definition num_mul (x y : number) : number :=
  match x, y with
  | NaN, _ | _, NaN => NaN
  | Num a, Num b => Num (a * b)%Qc
  | PosInf, Num b => inf_times true b
  | NegInf, Num b => inf_times false b
  | Num a, PosInf => inf_times true a
  | Num a, NegInf => inf_times false a
  | PosInf, PosInf | NegInf, NegInf => PosInf
  | PosInf, NegInf | NegInf, PosInf => NegInf
  end.

(** [ToBoolean(x)]: zero and NaN are falsy. *)
Definition truthy (x : number) : bool :=
  match x with
  | Num a => negb (bool_decide (a = 0%Qc))
  | PosInf | NegInf => true
  | NaN => false
  end.

(** [x || y] on numbers *)
Definition num_or (x y : number) : number := if truthy x then x else y.

(** [isNaN(x)] *)
Definition isNaN (x : number) : bool :=
  match x with NaN => true | _ => false end.

(** [Number.isFinite(x)] *)
Definition isFinite (x : number) : bool :=
  match x with Num _ => true | _ => false end.

(** [Object.is(x, y)], the comparison React applies to state values and to
    effect dependencies. *)
Definition same (x y : number) : bool :=
  match x, y with
  | Num a, Num b => bool_decide (a = b)
  | PosInf, PosInf | NegInf, NegInf | NaN, NaN => true
  | _, _ => false
  end.

(** *** Numerals *)

Definition is_digit (c : ascii) : bool :=
  let n := N_of_ascii c in ((48 <=? n) && (n <=? 57))%N.

Definition digit_value (c : ascii) : Z := Z.of_N (N_of_ascii c) - 48.

(** The longest prefix of decimal digits, and what follows it. *)
Fixpoint span_digits (s : string) : string * string :=
  match s with
  | String c r =>
      if is_digit c
      then let '(d, rest) := span_digits r in (String c d, rest)
      else (EmptyString, s)
  | EmptyString => (EmptyString, EmptyString)
  end.

Fixpoint digits_value_from (acc : Z) (s : string) : Z :=
  match s with
  | String c r => digits_value_from (10 * acc + digit_value c) r
  | EmptyString => acc
  end.

Definition digits_value (s : string) : Z := digits_value_from 0 s.

(** [StrWhiteSpaceChar] among the one-byte code units: TAB, LF, VT, FF, CR,
    SP and NBSP. *)
Definition is_whitespace (c : ascii) : bool :=
  let n := N_of_ascii c in
  ((9 <=? n) && (n <=? 13) || (n =? 32) || (n =? 160))%N.

Fixpoint trimStart (s : string) : string :=
  match s with
  | String c r => if is_whitespace c then trimStart r else s
  | EmptyString => EmptyString
  end.

(** [s.startsWith(p)] *)
Fixpoint is_prefix (p s : string) : bool :=
  match p, s with
  | EmptyString, _ => true
  | String a p', String b s' => bool_decide (a = b) && is_prefix p' s'
  | String _ _, EmptyString => false
  end.

(** [ExponentPart]: [e] or [E], an optional sign, at least one digit;
    a malformed exponent is not part of the literal and counts as 0. *)
Definition parse_exponent (s : string) : Z :=
  match s with
  | String c r =>
      if bool_decide (c = "e"%char) || bool_decide (c = "E"%char) then
        match r with
        | String "+" r' =>
            let '(d, _) := span_digits r' in
            if bool_decide (d = EmptyString) then 0 else digits_value d
        | String "-" r' =>
            let '(d, _) := span_digits r' in
            if bool_decide (d = EmptyString) then 0 else - digits_value d
        | _ =>
            let '(d, _) := span_digits r in
            if bool_decide (d = EmptyString) then 0 else digits_value d
        end
      else 0
  | EmptyString => 0
  end.

(** [mantissa * 10 ^ exponent] as a canonical rational. *)
Definition scale10 (mantissa exponent : Z) : Qc :=
  Q2Qc (inject_Z mantissa * Qpower (inject_Z 10) exponent).

(** The fraction of a literal: the digits behind a dot, when there is a
    dot. *)
Definition fraction_part (s : string) : string * string :=
  match s with
  | String c r =>
      if bool_decide (c = "."%char) then span_digits r else (EmptyString, s)
  | EmptyString => (EmptyString, s)
  end.

(** The unsigned part of a [StrDecimalLiteral], after the sign. *)
Definition parse_unsigned (negative : bool) (s : string) : number :=
  if is_prefix "Infinity" s then (if negative then NegInf else PosInf)
  else
    let '(ip, r1) := span_digits s in
    let '(fp, r2) := fraction_part r1 in
    if bool_decide (ip = EmptyString) && bool_decide (fp = EmptyString)
    then NaN
    else
      let m := digits_value (ip +:+ fp) in
      let e := parse_exponent r2 - Z.of_nat (String.length fp) in
      Num (scale10 (if negative then - m else m) e).

(** [parseFloat(s)]: skip leading white space, read the longest prefix that
    is a [StrDecimalLiteral], NaN when there is none. *)
Definition parseFloat (s : string) : number :=
  let t := trimStart s in
  match t with
  | String c r =>
      if bool_decide (c = "+"%char) then parse_unsigned false r
      else if bool_decide (c = "-"%char) then parse_unsigned true r
      else parse_unsigned false t
  | EmptyString => parse_unsigned false t
  end.

End JsNumber.

Import JsNumber.

Global Instance number_eq_dec : EqDecision number.
Proof. solve_decision. Defined.

(** ** types.ts *)

Inductive TicketStatus : Type :=
  | OPEN     (* Weighed In *)
  | CLOSED.  (* Weighed Out *)

Global Instance TicketStatus_eq_dec : EqDecision TicketStatus.
Proof. solve_decision. Defined.

(** The optional members of the interface are [option]s; timestamps
    ([Date.now()]) are integral milliseconds. *)
Record Ticket : Type := mkTicket {
  id : string;
  licensePlate : string;
  companyName : option string;
  materialType : string;
  (* Inbound Data *)
  inboundWeight : number;
  inboundTime : Z;
  inboundImage : string;
  (* Outbound Data (Optional until closed) *)
  outboundWeight : option number;
  outboundTime : option Z;
  outboundImage : option string;
  (* Financials *)
  netWeight : option number;
  ratePerKg : option number;
  totalCost : option number;
  status : TicketStatus
}.

Global Instance Ticket_eq_dec : EqDecision Ticket.
Proof. solve_decision. Defined.

Record RecognitionResult : Type := mkRecognition {
  rr_licensePlate : string;
  rr_confidence : number
}.

(** ** storageService.ts *)

Module storageService.

(** The value stored under [STORAGE_KEY]: [None] while the key is absent. *)
Definition localStorage : Type := option (list Ticket).

(** [Array.prototype.findIndex]: [None] stands for -1. *)
Definition findIndex {A} (P : A -> Prop) `{!forall x, Decision (P x)}
    (l : list A) : option nat :=
  fst <$> list_find P l.

(** [Array.prototype.find]: [None] stands for [undefined]. *)
Definition find {A} (P : A -> Prop) `{!forall x, Decision (P x)}
    (l : list A) : option A :=
  snd <$> list_find P l.

Definition getTickets (data : localStorage) : list Ticket :=
  match data with
  | Some tickets => tickets
  | None => []
  end.

Definition saveTicket (ticket : Ticket) (data : localStorage) : localStorage :=
  let tickets := getTickets data in
  let existingIndex := findIndex (fun t => id t = id ticket) tickets in
  Some match existingIndex with
       | Some i => <[i := ticket]> tickets
       | None => tickets ++ [ticket]
       end.

Definition findOpenTicketByPlate (plate : string) (data : localStorage)
    : option Ticket :=
  if bool_decide (plate = "UNKNOWN") then None
  else
    let tickets := getTickets data in
    find (fun t => status t = OPEN /\ licensePlate t = plate) tickets.

End storageService.

Import storageService.

(** ** scaleService.ts *)

Module scaleService.

(** A settled promise: the value it resolves to, or the error it rejects
    with (what [await] throws). *)
Inductive promise (A : Type) : Type :=
  | Resolved (a : A)
  | Rejected (error : string).
Arguments Resolved {A} a.
Arguments Rejected {A} error.

(** The [SerialPort] collaborator: whether its [readable] stream is there,
    and how [open({ baudRate })] settles. *)
Record SerialPort : Type := mkSerialPort {
  readable : bool;
  open : Z -> promise unit
}.

(** The browser: ['serial' in navigator], and how
    [navigator.serial.requestPort()] settles (it rejects when the user
    dismisses the chooser). *)
Record Navigator : Type := mkNavigator {
  serial : bool;
  requestPort : promise (option SerialPort)
}.

Record ScaleService : Type := mkScaleService {
  port : option SerialPort;
  isReading : bool;
  buffer : string
}.

(** [new ScaleService(onWeightUpdate)] *)
Definition constructor : ScaleService :=
  {| port := None; isReading := false; buffer := "" |}.

Definition isSupported (navigator : Navigator) : bool := serial navigator.

(** What one call of [connect] does: how its promise settles, the service
    afterwards, and what went to [console.error]. *)
Record Connected : Type := mkConnected {
  settled : promise bool;
  service : ScaleService;
  console_error : list string
}.

Definition connect (navigator : Navigator) (this : ScaleService) : Connected :=
  if negb (isSupported navigator) then
    {| settled := Rejected "Web Serial API not supported in this browser.";
       service := this; console_error := [] |}
  else
    match requestPort navigator with
    | Rejected error =>
        {| settled := Resolved false; service := this;
           console_error := ["Error connecting to scale:"; error] |}
    | Resolved p =>
        let this1 := {| port := p; isReading := isReading this;
                        buffer := buffer this |} in
        match p with
        | Some selected =>
            match open selected 9600 with
            | Rejected error =>
                {| settled := Resolved false; service := this1;
                   console_error := ["Error connecting to scale:"; error] |}
            | Resolved _ =>
                {| settled := Resolved true;
                   service := {| port := p; isReading := true;
                                 buffer := buffer this |};
                   console_error := [] |}
            end
        | None =>
            {| settled := Resolved false; service := this1;
               console_error := [] |}
        end
    end.

(** *** The stream framer *)

Definition is_newline (c : ascii) : bool :=
  bool_decide (c = "013"%char) || bool_decide (c = "010"%char).

(** [s.split(/[\r\n]+/)].  The scan keeps the segment read so far in
    [segment]; [in_run] says that the previous character belonged to a
    separator, so that a run of separators ends one segment only. *)
Fixpoint split_scan (in_run : bool) (segment : string) (s : string)
    : list string :=
  match s with
  | EmptyString => [segment]
  | String c r =>
      if is_newline c then
        if in_run then split_scan true "" r
        else segment :: split_scan true "" r
      else split_scan false (segment +:+ String c "") r
  end.

Definition split_newlines (s : string) : list string :=
  split_scan false "" s.

(** [s.trimEnd()] *)
Fixpoint trimEnd (s : string) : string :=
  match s with
  | EmptyString => EmptyString
  | String c r =>
      let r' := trimEnd r in
      if is_whitespace c && bool_decide (r' = "") then "" else String c r'
  end.

(** [s.trim()] *)
Definition trim (s : string) : string := trimEnd (trimStart s).

(** The text matched at a digit by [\d+(\.\d+)?]: the digits, and the
    fraction when a dot and at least one digit follow. *)
Definition number_at (s : string) : string :=
  let '(ds, rest) := span_digits s in
  match rest with
  | String "." r =>
      let '(fs, _) := span_digits r in
      if bool_decide (fs = "") then ds else ds +:+ "." +:+ fs
  | _ => ds
  end.

(** [rawString.match(/(\d+(\.\d+)?)/)], reduced to [match[0]]: the
    leftmost match starts at the first digit. *)
Fixpoint regex_match (rawString : string) : option string :=
  match rawString with
  | EmptyString => None
  | String c r =>
      if is_digit c then Some (number_at rawString) else regex_match r
  end.

Definition parseWeight (rawString : string) : option number :=
  match regex_match rawString with
  | Some m0 =>
      let val := parseFloat m0 in
      if negb (isNaN val) then Some val else None
  | None => None
  end.

(** The calls of [onWeightUpdate] made for one complete line. *)
Definition emit_line (line : string) : list number :=
  if bool_decide (0 < String.length (trim line))%nat then
    match parseWeight line with
    | Some weight => [weight]
    | None => []
    end
  else [].

(** [processData(chunk)] on the carry-over buffer: the new buffer and the
    weights handed to [onWeightUpdate], in order. *)
Definition processData (chunk : string) (buffer : string)
    : string * list number :=
  let buffer1 := buffer +:+ chunk in
  let lines := split_newlines buffer1 in
  (* lines.pop() || '' *)
  let buffer2 := default "" (last lines) in
  let lines1 := removelast lines in
  (buffer2, flat_map emit_line lines1).

(** The read loop over the chunks the decoder delivers, as long as
    [isReading] holds: empty values are skipped. *)
Fixpoint readLoop (chunks : list string) (buffer : string)
    : string * list number :=
  match chunks with
  | [] => (buffer, [])
  | value :: rest =>
      let '(buffer1, ws) :=
        if bool_decide (value = "") then (buffer, [])
        else processData value buffer in
      let '(buffer2, ws') := readLoop rest buffer1 in
      (buffer2, ws ++ ws')
  end.

(** The framer alone: every chunk goes through [processData]. *)
Fixpoint feed (chunks : list string) (buffer : string)
    : string * list number :=
  match chunks with
  | [] => (buffer, [])
  | chunk :: rest =>
      let '(buffer1, ws) := processData chunk buffer in
      let '(buffer2, ws') := feed rest buffer1 in
      (buffer2, ws ++ ws')
  end.

End scaleService.

Import scaleService.

(** ** WeighingConsole.tsx *)

Module WeighingConsole.

Inductive Mode : Type := IDLE | INBOUND | OUTBOUND.

Global Instance Mode_eq_dec : EqDecision Mode.
Proof. solve_decision. Defined.

(** What a pending [setTimeout] does when it fires: the stability timer
    calls [setIsStable(true)]; the timer of [processOutbound] prints, resets
    the console with the [useManualWeight] its closure captured, and calls
    [onTicketComplete]. *)
Inductive TimerAction : Type :=
  | MarkStable
  | PrintAndReset (capturedManual : bool).

Global Instance TimerAction_eq_dec : EqDecision TimerAction.
Proof. solve_decision. Defined.

Record Timer : Type := mkTimer {
  timer_id : nat;
  remaining : nat;
  action : TimerAction
}.

(** What the console does to the outside world. *)
Inductive Output : Type :=
  | Alert (message : string)
  | ConsoleError (message : string)
  | PrintPage
  | TicketComplete.

Global Instance Timer_eq_dec : EqDecision Timer.
Proof. solve_decision. Defined.

Global Instance Output_eq_dec : EqDecision Output.
Proof. solve_decision. Defined.

Record Console : Type := mkConsole {
  (* React state *)
  currentWeight : number;
  isStable : bool;
  processing : bool;
  detectedPlate : string;
  mode : Mode;
  matchedTicket : option Ticket;
  material : string;
  lastPrintedTicket : option Ticket;
  manualWeight : string;
  useManualWeight : bool;
  (* refs: the pending timer id; whether the camera is mounted *)
  stabilityTimeoutRef : option nat;
  webcamRef : bool;
  (* whether the last run of the stability effect returned a cleanup;
     the image whose recognition [handleCapture] awaits *)
  stabilityCleanup : bool;
  identifying : option string;
  (* the host: pending [setTimeout] timers, the next timer id,
     [localStorage], and what the console did to the outside *)
  timers : list Timer;
  nextTimerId : nat;
  storage : localStorage;
  outputs : list Output
}.

(** Functional record update, one setter per field. *)
Definition set_currentWeight (v : number) (st : Console) : Console :=
  {| currentWeight := v;
     isStable := isStable st;
     processing := processing st;
     detectedPlate := detectedPlate st;
     mode := mode st;
     matchedTicket := matchedTicket st;
     material := material st;
     lastPrintedTicket := lastPrintedTicket st;
     manualWeight := manualWeight st;
     useManualWeight := useManualWeight st;
     stabilityTimeoutRef := stabilityTimeoutRef st;
     webcamRef := webcamRef st;
     stabilityCleanup := stabilityCleanup st;
     identifying := identifying st;
     timers := timers st;
     nextTimerId := nextTimerId st;
     storage := storage st;
     outputs := outputs st |}.
Definition set_isStable (v : bool) (st : Console) : Console :=
  {| currentWeight := currentWeight st;
     isStable := v;
     processing := processing st;
     detectedPlate := detectedPlate st;
     mode := mode st;
     matchedTicket := matchedTicket st;
     material := material st;
     lastPrintedTicket := lastPrintedTicket st;
     manualWeight := manualWeight st;
     useManualWeight := useManualWeight st;
     stabilityTimeoutRef := stabilityTimeoutRef st;
     webcamRef := webcamRef st;
     stabilityCleanup := stabilityCleanup st;
     identifying := identifying st;
     timers := timers st;
     nextTimerId := nextTimerId st;
     storage := storage st;
     outputs := outputs st |}.
Definition set_processing (v : bool) (st : Console) : Console :=
  {| currentWeight := currentWeight st;
     isStable := isStable st;
     processing := v;
     detectedPlate := detectedPlate st;
     mode := mode st;
     matchedTicket := matchedTicket st;
     material := material st;
     lastPrintedTicket := lastPrintedTicket st;
     manualWeight := manualWeight st;
     useManualWeight := useManualWeight st;
     stabilityTimeoutRef := stabilityTimeoutRef st;
     webcamRef := webcamRef st;
     stabilityCleanup := stabilityCleanup st;
     identifying := identifying st;
     timers := timers st;
     nextTimerId := nextTimerId st;
     storage := storage st;
     outputs := outputs st |}.
Definition set_detectedPlate (v : string) (st : Console) : Console :=
  {| currentWeight := currentWeight st;
     isStable := isStable st;
     processing := processing st;
     detectedPlate := v;
     mode := mode st;
     matchedTicket := matchedTicket st;
     material := material st;
     lastPrintedTicket := lastPrintedTicket st;
     manualWeight := manualWeight st;
     useManualWeight := useManualWeight st;
     stabilityTimeoutRef := stabilityTimeoutRef st;
     webcamRef := webcamRef st;
     stabilityCleanup := stabilityCleanup st;
     identifying := identifying st;
     timers := timers st;
     nextTimerId := nextTimerId st;
     storage := storage st;
     outputs := outputs st |}.
Definition set_mode (v : Mode) (st : Console) : Console :=
  {| currentWeight := currentWeight st;
     isStable := isStable st;
     processing := processing st;
     detectedPlate := detectedPlate st;
     mode := v;
     matchedTicket := matchedTicket st;
     material := material st;
     lastPrintedTicket := lastPrintedTicket st;
     manualWeight := manualWeight st;
     useManualWeight := useManualWeight st;
     stabilityTimeoutRef := stabilityTimeoutRef st;
     webcamRef := webcamRef st;
     stabilityCleanup := stabilityCleanup st;
     identifying := identifying st;
     timers := timers st;
     nextTimerId := nextTimerId st;
     storage := storage st;
     outputs := outputs st |}.
Definition set_matchedTicket (v : option Ticket) (st : Console) : Console :=
  {| currentWeight := currentWeight st;
     isStable := isStable st;
     processing := processing st;
     detectedPlate := detectedPlate st;
     mode := mode st;
     matchedTicket := v;
     material := material st;
     lastPrintedTicket := lastPrintedTicket st;
     manualWeight := manualWeight st;
     useManualWeight := useManualWeight st;
     stabilityTimeoutRef := stabilityTimeoutRef st;
     webcamRef := webcamRef st;
     stabilityCleanup := stabilityCleanup st;
     identifying := identifying st;
     timers := timers st;
     nextTimerId := nextTimerId st;
     storage := storage st;
     outputs := outputs st |}.
Definition set_material (v : string) (st : Console) : Console :=
  {| currentWeight := currentWeight st;
     isStable := isStable st;
     processing := processing st;
     detectedPlate := detectedPlate st;
     mode := mode st;
     matchedTicket := matchedTicket st;
     material := v;
     lastPrintedTicket := lastPrintedTicket st;
     manualWeight := manualWeight st;
     useManualWeight := useManualWeight st;
     stabilityTimeoutRef := stabilityTimeoutRef st;
     webcamRef := webcamRef st;
     stabilityCleanup := stabilityCleanup st;
     identifying := identifying st;
     timers := timers st;
     nextTimerId := nextTimerId st;
     storage := storage st;
     outputs := outputs st |}.
Definition set_lastPrintedTicket (v : option Ticket) (st : Console) : Console :=
  {| currentWeight := currentWeight st;
     isStable := isStable st;
     processing := processing st;
     detectedPlate := detectedPlate st;
     mode := mode st;
     matchedTicket := matchedTicket st;
     material := material st;
     lastPrintedTicket := v;
     manualWeight := manualWeight st;
     useManualWeight := useManualWeight st;
     stabilityTimeoutRef := stabilityTimeoutRef st;
     webcamRef := webcamRef st;
     stabilityCleanup := stabilityCleanup st;
     identifying := identifying st;
     timers := timers st;
     nextTimerId := nextTimerId st;
     storage := storage st;
     outputs := outputs st |}.
Definition set_manualWeight (v : string) (st : Console) : Console :=
  {| currentWeight := currentWeight st;
     isStable := isStable st;
     processing := processing st;
     detectedPlate := detectedPlate st;
     mode := mode st;
     matchedTicket := matchedTicket st;
     material := material st;
     lastPrintedTicket := lastPrintedTicket st;
     manualWeight := v;
     useManualWeight := useManualWeight st;
     stabilityTimeoutRef := stabilityTimeoutRef st;
     webcamRef := webcamRef st;
     stabilityCleanup := stabilityCleanup st;
     identifying := identifying st;
     timers := timers st;
     nextTimerId := nextTimerId st;
     storage := storage st;
     outputs := outputs st |}.
Definition set_useManualWeight (v : bool) (st : Console) : Console :=
  {| currentWeight := currentWeight st;
     isStable := isStable st;
     processing := processing st;
     detectedPlate := detectedPlate st;
     mode := mode st;
     matchedTicket := matchedTicket st;
     material := material st;
     lastPrintedTicket := lastPrintedTicket st;
     manualWeight := manualWeight st;
     useManualWeight := v;
     stabilityTimeoutRef := stabilityTimeoutRef st;
     webcamRef := webcamRef st;
     stabilityCleanup := stabilityCleanup st;
     identifying := identifying st;
     timers := timers st;
     nextTimerId := nextTimerId st;
     storage := storage st;
     outputs := outputs st |}.
Definition set_stabilityTimeoutRef (v : option nat) (st : Console) : Console :=
  {| currentWeight := currentWeight st;
     isStable := isStable st;
     processing := processing st;
     detectedPlate := detectedPlate st;
     mode := mode st;
     matchedTicket := matchedTicket st;
     material := material st;
     lastPrintedTicket := lastPrintedTicket st;
     manualWeight := manualWeight st;
     useManualWeight := useManualWeight st;
     stabilityTimeoutRef := v;
     webcamRef := webcamRef st;
     stabilityCleanup := stabilityCleanup st;
     identifying := identifying st;
     timers := timers st;
     nextTimerId := nextTimerId st;
     storage := storage st;
     outputs := outputs st |}.
Definition set_webcamRef (v : bool) (st : Console) : Console :=
  {| currentWeight := currentWeight st;
     isStable := isStable st;
     processing := processing st;
     detectedPlate := detectedPlate st;
     mode := mode st;
     matchedTicket := matchedTicket st;
     material := material st;
     lastPrintedTicket := lastPrintedTicket st;
     manualWeight := manualWeight st;
     useManualWeight := useManualWeight st;
     stabilityTimeoutRef := stabilityTimeoutRef st;
     webcamRef := v;
     stabilityCleanup := stabilityCleanup st;
     identifying := identifying st;
     timers := timers st;
     nextTimerId := nextTimerId st;
     storage := storage st;
     outputs := outputs st |}.
Definition set_stabilityCleanup (v : bool) (st : Console) : Console :=
  {| currentWeight := currentWeight st;
     isStable := isStable st;
     processing := processing st;
     detectedPlate := detectedPlate st;
     mode := mode st;
     matchedTicket := matchedTicket st;
     material := material st;
     lastPrintedTicket := lastPrintedTicket st;
     manualWeight := manualWeight st;
     useManualWeight := useManualWeight st;
     stabilityTimeoutRef := stabilityTimeoutRef st;
     webcamRef := webcamRef st;
     stabilityCleanup := v;
     identifying := identifying st;
     timers := timers st;
     nextTimerId := nextTimerId st;
     storage := storage st;
     outputs := outputs st |}.
Definition set_identifying (v : option string) (st : Console) : Console :=
  {| currentWeight := currentWeight st;
     isStable := isStable st;
     processing := processing st;
     detectedPlate := detectedPlate st;
     mode := mode st;
     matchedTicket := matchedTicket st;
     material := material st;
     lastPrintedTicket := lastPrintedTicket st;
     manualWeight := manualWeight st;
     useManualWeight := useManualWeight st;
     stabilityTimeoutRef := stabilityTimeoutRef st;
     webcamRef := webcamRef st;
     stabilityCleanup := stabilityCleanup st;
     identifying := v;
     timers := timers st;
     nextTimerId := nextTimerId st;
     storage := storage st;
     outputs := outputs st |}.
Definition set_timers (v : list Timer) (st : Console) : Console :=
  {| currentWeight := currentWeight st;
     isStable := isStable st;
     processing := processing st;
     detectedPlate := detectedPlate st;
     mode := mode st;
     matchedTicket := matchedTicket st;
     material := material st;
     lastPrintedTicket := lastPrintedTicket st;
     manualWeight := manualWeight st;
     useManualWeight := useManualWeight st;
     stabilityTimeoutRef := stabilityTimeoutRef st;
     webcamRef := webcamRef st;
     stabilityCleanup := stabilityCleanup st;
     identifying := identifying st;
     timers := v;
     nextTimerId := nextTimerId st;
     storage := storage st;
     outputs := outputs st |}.
Definition set_nextTimerId (v : nat) (st : Console) : Console :=
  {| currentWeight := currentWeight st;
     isStable := isStable st;
     processing := processing st;
     detectedPlate := detectedPlate st;
     mode := mode st;
     matchedTicket := matchedTicket st;
     material := material st;
     lastPrintedTicket := lastPrintedTicket st;
     manualWeight := manualWeight st;
     useManualWeight := useManualWeight st;
     stabilityTimeoutRef := stabilityTimeoutRef st;
     webcamRef := webcamRef st;
     stabilityCleanup := stabilityCleanup st;
     identifying := identifying st;
     timers := timers st;
     nextTimerId := v;
     storage := storage st;
     outputs := outputs st |}.
Definition set_storage (v : localStorage) (st : Console) : Console :=
  {| currentWeight := currentWeight st;
     isStable := isStable st;
     processing := processing st;
     detectedPlate := detectedPlate st;
     mode := mode st;
     matchedTicket := matchedTicket st;
     material := material st;
     lastPrintedTicket := lastPrintedTicket st;
     manualWeight := manualWeight st;
     useManualWeight := useManualWeight st;
     stabilityTimeoutRef := stabilityTimeoutRef st;
     webcamRef := webcamRef st;
     stabilityCleanup := stabilityCleanup st;
     identifying := identifying st;
     timers := timers st;
     nextTimerId := nextTimerId st;
     storage := v;
     outputs := outputs st |}.
Definition set_outputs (v : list Output) (st : Console) : Console :=
  {| currentWeight := currentWeight st;
     isStable := isStable st;
     processing := processing st;
     detectedPlate := detectedPlate st;
     mode := mode st;
     matchedTicket := matchedTicket st;
     material := material st;
     lastPrintedTicket := lastPrintedTicket st;
     manualWeight := manualWeight st;
     useManualWeight := useManualWeight st;
     stabilityTimeoutRef := stabilityTimeoutRef st;
     webcamRef := webcamRef st;
     stabilityCleanup := stabilityCleanup st;
     identifying := identifying st;
     timers := timers st;
     nextTimerId := nextTimerId st;
     storage := storage st;
     outputs := v |}.

Definition alert (message : string) (st : Console) : Console :=
  set_outputs (outputs st ++ [Alert message]) st.

Definition emit (o : Output) (st : Console) : Console :=
  set_outputs (outputs st ++ [o]) st.

(** *** Timers of the host *)

(** [window.setTimeout(action, delay)]: the new timer gets the next id. *)
Definition setTimeout (a : TimerAction) (delay : nat) (st : Console)
    : nat * Console :=
  let i := nextTimerId st in
  (i, set_nextTimerId (S i)
        (set_timers (timers st ++ [mkTimer i delay a]) st)).

(** [window.clearTimeout(i)] *)
Definition clearTimeout (i : nat) (st : Console) : Console :=
  set_timers (filter (fun t => timer_id t <> i) (timers st)) st.

(** [if (stabilityTimeoutRef.current) window.clearTimeout(...)]: a timer id
    is truthy unless it is 0. *)
Definition clearStabilityTimeout (st : Console) : Console :=
  match stabilityTimeoutRef st with
  | Some i => if bool_decide (i = 0%nat) then st else clearTimeout i st
  | None => st
  end.

(** *** The stability effect, [useEffect(..., [currentWeight, useManualWeight])] *)

Definition stability_effect (st : Console) : Console :=
  if useManualWeight st then
    set_stabilityCleanup false (set_isStable true st)
  else
    (* Reset stability on change *)
    let st1 := set_isStable false st in
    (* Clear existing timeout *)
    let st2 := clearStabilityTimeout st1 in
    (* Set new timeout: if weight doesn't change for 800ms, it's stable *)
    let '(i, st3) := setTimeout MarkStable 800 st2 in
    set_stabilityCleanup true (set_stabilityTimeoutRef (Some i) st3).

(** The function the effect returned, run before the effect runs again. *)
Definition stability_cleanup (st : Console) : Console :=
  if stabilityCleanup st then clearStabilityTimeout st else st.

(** A render in which a dependency of the effect changed. *)
Definition rerun_effect (st : Console) : Console :=
  stability_effect (stability_cleanup st).

(** [setCurrentWeight(w)]: React bails out when the value is the same. *)
Definition setCurrentWeight (w : number) (st : Console) : Console :=
  if same w (currentWeight st) then st
  else rerun_effect (set_currentWeight w st).

(** [setUseManualWeight(b)] *)
Definition setUseManualWeight (b : bool) (st : Console) : Console :=
  if bool_decide (b = useManualWeight st) then st
  else rerun_effect (set_useManualWeight b st).

(** The first render: state initialisers, the camera mounted, the effect
    run once. *)
Definition mount (data : localStorage) : Console :=
  stability_effect
    {| currentWeight := of_Z 0; isStable := false; processing := false;
       detectedPlate := ""; mode := IDLE; matchedTicket := None;
       material := "Mixed Metal"; lastPrintedTicket := None;
       manualWeight := ""; useManualWeight := false;
       stabilityTimeoutRef := None; webcamRef := true;
       stabilityCleanup := false; identifying := None;
       timers := []; nextTimerId := 1; storage := data; outputs := [] |}.

(** *** Handlers *)

(** The weight a confirm records:
    [useManualWeight ? parseFloat(manualWeight) || 0 : currentWeight]. *)
Definition confirmedWeight (st : Console) : number :=
  if useManualWeight st then num_or (parseFloat (manualWeight st)) (of_Z 0)
  else currentWeight st.

Definition resetConsole (capturedManual : bool) (st : Console) : Console :=
  let st1 := set_mode IDLE st in
  let st2 := set_detectedPlate "" st1 in
  let st3 := set_matchedTicket None st2 in
  let st4 := set_manualWeight "" st3 in
  if capturedManual then set_manualWeight "0" st4 else st4.

Definition NotStableError : string :=
  "Scale is unstable. Please wait for the STABLE indicator.".

(** [handleCapture] up to its [await]: [screenshot] is what
    [getScreenshot()] returns. *)
Definition handleCapture (screenshot : option string) (st : Console)
    : Console :=
  if negb (webcamRef st) then st
  else if negb (isStable st) && negb (useManualWeight st) then
    alert NotStableError st
  else
    let st1 := set_processing true st in
    let st2 := set_mode IDLE st1 in
    let st3 := set_matchedTicket None st2 in
    let st4 := set_detectedPlate "" st3 in
    match screenshot with
    | Some imageSrc =>
        if bool_decide (imageSrc = "") then
          set_processing false
            (alert "Error processing transaction."
               (emit (ConsoleError "Camera capture failed") st4))
        else set_identifying (Some imageSrc) st4
    | None =>
        set_processing false
          (alert "Error processing transaction."
             (emit (ConsoleError "Camera capture failed") st4))
    end.

(** [handleCapture] from the moment [identifyTruck] resolves. *)
Definition handleCapture_resume (recognition : RecognitionResult)
    (st : Console) : Console :=
  match identifying st with
  | None => st
  | Some _ =>
      let st1 := set_identifying None st in
      let st2 := set_detectedPlate (rr_licensePlate recognition) st1 in
      let openTicket :=
        findOpenTicketByPlate (rr_licensePlate recognition) (storage st2) in
      let st3 :=
        match openTicket with
        | Some t => set_matchedTicket (Some t) (set_mode OUTBOUND st2)
        | None => set_mode INBOUND st2
        end in
      set_processing false st3
  end.

(** The ticket [processInbound] builds. *)
Definition newTicket (uuid : string) (now : Z) (imageSrc : option string)
    (st : Console) : Ticket :=
  {| id := uuid;
     licensePlate :=
       if bool_decide (detectedPlate st = "") then "UNKNOWN"
       else detectedPlate st;
     companyName := None;
     materialType := material st;
     inboundWeight := confirmedWeight st;
     inboundTime := now;
     inboundImage := default "" imageSrc;
     outboundWeight := None; outboundTime := None; outboundImage := None;
     netWeight := None; ratePerKg := None; totalCost := None;
     status := OPEN |}.

Definition processInbound (uuid : string) (now : Z)
    (screenshot : option string) (st : Console) : Console :=
  if negb (webcamRef st) then st
  else
    let ticket := newTicket uuid now screenshot st in
    let st1 := set_storage (saveTicket ticket (storage st)) st in
    let st2 := resetConsole (useManualWeight st) st1 in
    emit TicketComplete st2.

(** Hardcoded $0.25/kg for demo *)
Definition rate : number := Num (Q2Qc (1 # 4)).

(** The ticket [processOutbound] builds from the matched one. *)
Definition updatedTicket (matched : Ticket) (now : Z)
    (screenshot : option string) (st : Console) : Ticket :=
  let outWeight := confirmedWeight st in
  let net := num_abs (num_sub (inboundWeight matched) outWeight) in
  let cost := num_mul net rate in
  {| id := id matched;
     licensePlate := licensePlate matched;
     companyName := companyName matched;
     materialType := materialType matched;
     inboundWeight := inboundWeight matched;
     inboundTime := inboundTime matched;
     inboundImage := inboundImage matched;
     outboundWeight := Some outWeight;
     outboundTime := Some now;
     outboundImage := Some (default "" screenshot);
     netWeight := Some net;
     ratePerKg := Some rate;
     totalCost := Some cost;
     status := CLOSED |}.

Definition processOutbound (now : Z) (screenshot : option string)
    (st : Console) : Console :=
  match matchedTicket st with
  | None => st
  | Some matched =>
      if negb (webcamRef st) then st
      else
        let ticket := updatedTicket matched now screenshot st in
        let st1 := set_storage (saveTicket ticket (storage st)) st in
        let st2 := set_lastPrintedTicket (Some ticket) st1 in
        (* Auto Print after short delay to allow state update *)
        snd (setTimeout (PrintAndReset (useManualWeight st)) 500 st2)
  end.

(** *** Time *)

Definition fire (a : TimerAction) (st : Console) : Console :=
  match a with
  | MarkStable => set_isStable true st
  | PrintAndReset capturedManual =>
      emit TicketComplete (resetConsole capturedManual (emit PrintPage st))
  end.

(** One millisecond passes: every pending timer comes one millisecond
    closer, and those that are due fire, oldest first. *)
Definition tick (st : Console) : Console :=
  let due := filter (fun t => (remaining t <= 1)%nat) (timers st) in
  let pending := filter (fun t => ~ (remaining t <= 1)%nat) (timers st) in
  let pending1 :=
    (fun t => mkTimer (timer_id t) (pred (remaining t)) (action t))
      <$> pending in
  foldl (fun s t => fire (action t) s) (set_timers pending1 st) due.

Definition elapse (ms : nat) (st : Console) : Console := Nat.iter ms tick st.

(** *** The console as a state machine *)

Inductive Event : Type :=
  (* the scale or the simulation delivers a weight *)
  | WeightUpdate (weight : number)
  (* the Manual Entry Mode checkbox *)
  | ToggleManual (checked : bool)
  (* the manual weight input *)
  | TypeManualWeight (value : string)
  (* the plate input of the inbound draft; [value] is already upper-cased *)
  | EditPlate (value : string)
  | SelectMaterial (value : string)
  (* CAPTURE WEIGHT *)
  | Capture (screenshot : option string)
  | Identified (recognition : RecognitionResult)
  (* CREATE TICKET *)
  | ConfirmInbound (uuid : string) (now : Z) (screenshot : option string)
  (* PRINT TICKET *)
  | ConfirmOutbound (now : Z) (screenshot : option string)
  | Cancel
  | Elapse (ms : nat).

Definition step (st : Console) (e : Event) : Console :=
  match e with
  | WeightUpdate w => setCurrentWeight w st
  | ToggleManual checked =>
      let st1 := setUseManualWeight checked st in
      if checked then set_manualWeight "0" st1 else st1
  | TypeManualWeight value => set_manualWeight value st
  | EditPlate value => set_detectedPlate value st
  | SelectMaterial value => set_material value st
  | Capture screenshot => handleCapture screenshot st
  | Identified recognition => handleCapture_resume recognition st
  | ConfirmInbound uuid now screenshot =>
      processInbound uuid now screenshot st
  | ConfirmOutbound now screenshot => processOutbound now screenshot st
  | Cancel => resetConsole (useManualWeight st) st
  | Elapse ms => elapse ms st
  end.

Definition run (st : Console) (events : list Event) : Console :=
  foldl step st events.

(** The states the console goes through after mounting. *)
Inductive reachable (data : localStorage) : Console -> Prop :=
  | reachable_mount : reachable data (mount data)
  | reachable_step st e :
      reachable data st -> reachable data (step st e).

End WeighingConsole.

Import WeighingConsole.

Ltac by_computation := apply (bool_decide_unpack _); vm_compute; exact I.

(** ** geminiService.ts *)

Module geminiService.

(** A code unit that [/[^A-Z0-9]/gi] does not match: a digit or a letter of
    either case. *)
Definition is_alphanumeric (c : ascii) : bool :=
  let n := N_of_ascii c in
  ((48 <=? n) && (n <=? 57) || (65 <=? n) && (n <=? 90)
   || (97 <=? n) && (n <=? 122))%N.

(** [s.replace(/[^A-Z0-9]/gi, '')] *)
Fixpoint remove_non_alphanumeric (s : string) : string :=
  match s with
  | EmptyString => EmptyString
  | String c r =>
      if is_alphanumeric c then String c (remove_non_alphanumeric r)
      else remove_non_alphanumeric r
  end.

(** [toUpperCase] on one code unit below 128: the letters a-z move to A-Z,
    nothing else changes. *)
Definition upper_case (c : ascii) : ascii :=
  let n := N_of_ascii c in
  if ((97 <=? n) && (n <=? 122))%N then ascii_of_N (n - 32) else c.

(** [s.toUpperCase()], for the text it is applied to here: what
    [remove_non_alphanumeric] leaves holds code units below 128 only. *)
Fixpoint toUpperCase (s : string) : string :=
  match s with
  | EmptyString => EmptyString
  | String c r => String (upper_case c) (toUpperCase r)
  end.

(** [s.split(',')] *)
Fixpoint split_commas (segment : string) (s : string) : list string :=
  match s with
  | EmptyString => [segment]
  | String c r =>
      if bool_decide (c = ","%char) then segment :: split_commas "" r
      else split_commas (segment +:+ String c "") r
  end.

(** Clean base64 string if it has headers:
    [base64Image.split(',')[1] || base64Image]. *)
Definition cleanBase64 (base64Image : string) : string :=
  match split_commas "" base64Image !! 1%nat with
  | Some part => if bool_decide (part = "") then base64Image else part
  | None => base64Image
  end.

(** What [JSON.parse(response.text)] yields, as the response schema types
    it: [licensePlate] may be missing, [confidence] is a number. *)
Record Data : Type := mkData {
  data_licensePlate : option string;
  data_confidence : number
}.

(** [data.licensePlate.replace(/[^A-Z0-9]/gi, '').toUpperCase()] *)
Definition normalizedPlate (licensePlate : string) : string :=
  toUpperCase (remove_non_alphanumeric licensePlate).

Section identifyTruck.
(** The collaborators: [ai.models.generateContent] as a function of the
    image data it is sent, giving [response.text] or rejecting, and
    [JSON.parse], [None] when it throws. *)
Variable generateContent : string -> promise (option string).
Variable JSON_parse : string -> option Data.

(** The result of the [catch] block. *)
Definition unknown : RecognitionResult :=
  {| rr_licensePlate := "UNKNOWN"; rr_confidence := of_Z 0 |}.

(** [identifyTruck(base64Image)]: what its promise resolves to; the
    [try]/[catch] leaves no way for it to reject. *)
Definition identifyTruck (base64Image : string) : RecognitionResult :=
  match generateContent (cleanBase64 base64Image) with
  | Rejected _ => unknown
  | Resolved None => unknown
  | Resolved (Some text) =>
      if bool_decide (text = "") then unknown   (* No response from AI *)
      else
        match JSON_parse text with
        | None => unknown
        | Some data =>
            match data_licensePlate data with
            | None => unknown
            | Some licensePlate =>
                (* Normalize plate *)
                let normalized := normalizedPlate licensePlate in
                {| rr_licensePlate :=
                     if bool_decide (normalized = "") then "UNKNOWN"
                     else normalized;
                   rr_confidence := data_confidence data |}
            end
        end
  end.
End identifyTruck.

End geminiService.

Import geminiService.

(** ** ReceiptPrinter.tsx *)

Module ReceiptPrinter.

(** What React renders for [{x && <block/>}]: nothing when [x] is
    [undefined] or the empty string, the text of [x] when [x] is a falsy
    number (0 or NaN), the block otherwise. *)
Inductive Rendered (A : Type) : Type :=
  | Nothing
  | Text (s : string)
  | Block (a : A).
Arguments Nothing {A}.
Arguments Text {A} s.
Arguments Block {A} a.

Definition guarded_by {A} (x : option number) (block : A) : Rendered A :=
  match x with
  | None => Nothing
  | Some w =>
      if truthy w then Block block
      else if isNaN w then Text "NaN" else Text "0"
  end.

(** The outbound rows: the weight, the time [outboundTime || 0], and the
    net weight. *)
Record OutboundRows : Type := mkOutboundRows {
  row_outboundWeight : option number;
  row_outboundTime : Z;
  row_netWeight : option number
}.

(** The receipt; [total] holds the number [toFixed(2)] formats. *)
Record Receipt : Type := mkReceipt {
  ticket_no : string;
  license : string;
  material_row : string;
  inbound_row : number;
  outbound_rows : Rendered OutboundRows;
  total : Rendered (option number);
  inbound_thumbnail : string;
  outbound_thumbnail : option string
}.

Definition ReceiptPrinter (ticket : option Ticket) : option Receipt :=
  match ticket with
  | None => None
  | Some ticket =>
      Some {| ticket_no := substring 0 8 (id ticket);
              license := licensePlate ticket;
              material_row := materialType ticket;
              inbound_row := inboundWeight ticket;
              outbound_rows :=
                guarded_by (outboundWeight ticket)
                  {| row_outboundWeight := outboundWeight ticket;
                     row_outboundTime := default 0 (outboundTime ticket);
                     row_netWeight := netWeight ticket |};
              total := guarded_by (totalCost ticket) (totalCost ticket);
              inbound_thumbnail := inboundImage ticket;
              outbound_thumbnail :=
                match outboundImage ticket with
                | Some image =>
                    if bool_decide (image = "") then None else Some image
                | None => None
                end |}
  end.

End ReceiptPrinter.

Import ReceiptPrinter.

(** ** WeighingConsole.tsx: the scale connection *)

Module ScaleConnection.

(** The console together with the state of its scale section: the two
    flags, the [scaleService] ref, the [useManualWeight] that the
    [onWeightUpdate] callback of each service created so far closed over
    (the last one created is the one the ref holds, while it holds one),
    and the number of [connect()] calls still awaited. *)
Record Panel : Type := mkPanel {
  console : Console;
  isConnected : bool;
  isSimulating : bool;
  scaleServiceRef : bool;
  created : list bool;
  connecting : nat
}.

Definition mountPanel (data : localStorage) : Panel :=
  {| console := mount data; isConnected := false; isSimulating := false;
     scaleServiceRef := false; created := []; connecting := 0 |}.

(** The condition under which the two scale buttons are rendered. *)
Definition buttons_shown (p : Panel) : bool :=
  negb (isConnected p) && negb (isSimulating p)
  && negb (useManualWeight (console p)).

(** The callback handed to [new ScaleService]:
    [(weight) => { if (!useManualWeight) setCurrentWeight(weight); }],
    [useManualWeight] being the one of the render that created it. *)
Definition onWeightUpdate (capturedManual : bool) (weight : number)
    (st : Console) : Console :=
  if negb capturedManual then setCurrentWeight weight st else st.

(** [handleConnectScale] up to its [await]. *)
Definition handleConnectScale (p : Panel) : Panel :=
  if scaleServiceRef p then p
  else
    {| console := console p; isConnected := isConnected p;
       isSimulating := isSimulating p;
       scaleServiceRef := true;
       created := created p ++ [useManualWeight (console p)];
       connecting := S (connecting p) |}.

Definition ConnectError : string :=
  "Failed to connect. Ensure you are on Chrome/Edge Desktop or use Simulation mode.".

(** [handleConnectScale] from the moment [connect()] settles; what
    [connect] wrote to [console.error] is in its own result. *)
Definition handleConnectScale_resume (navigator : Navigator) (p : Panel)
    : Panel :=
  match connecting p with
  | O => p
  | S pending =>
      match settled (connect navigator constructor) with
      | Resolved connected =>
          {| console := console p; isConnected := connected;
             isSimulating := false;
             scaleServiceRef := scaleServiceRef p; created := created p;
             connecting := pending |}
      | Rejected _ =>
          {| console := alert ConnectError (console p);
             isConnected := isConnected p; isSimulating := isSimulating p;
             scaleServiceRef := scaleServiceRef p; created := created p;
             connecting := pending |}
      end
  end.

Definition toggleSimulation (p : Panel) : Panel :=
  {| console := setCurrentWeight (of_Z 0) (console p);
     isConnected := false;   (* Can't be both *)
     isSimulating := negb (isSimulating p);
     scaleServiceRef := false; created := created p;
     connecting := connecting p |}.

Inductive PanelEvent : Type :=
  (* CONNECT SCALE *)
  | ConnectScale
  | ConnectSettled (navigator : Navigator)
  (* SIMULATION *)
  | ToggleSimulation
  (* the [service]-th service created reads a weight off the port *)
  | ScaleReading (service : nat) (weight : number)
  (* anything else that happens to the console *)
  | ConsoleEvent (e : Event).

Definition panel_step (p : Panel) (e : PanelEvent) : Panel :=
  match e with
  | ConnectScale => handleConnectScale p
  | ConnectSettled navigator => handleConnectScale_resume navigator p
  | ToggleSimulation => toggleSimulation p
  | ScaleReading service weight =>
      match created p !! service with
      | Some capturedManual =>
          {| console := onWeightUpdate capturedManual weight (console p);
             isConnected := isConnected p; isSimulating := isSimulating p;
             scaleServiceRef := scaleServiceRef p; created := created p;
             connecting := connecting p |}
      | None => p
      end
  | ConsoleEvent e =>
      {| console := step (console p) e;
         isConnected := isConnected p; isSimulating := isSimulating p;
         scaleServiceRef := scaleServiceRef p; created := created p;
         connecting := connecting p |}
  end.

(** The states of the panel after mounting, the two buttons being clicked
    only while they are rendered. *)
Inductive panel_reachable (data : localStorage) : Panel -> Prop :=
  | panel_mount : panel_reachable data (mountPanel data)
  | panel_click p e :
      panel_reachable data p ->
      match e with
      | ConnectScale | ToggleSimulation => buttons_shown p = true
      | _ => True
      end ->
      panel_reachable data (panel_step p e).

(** The [disabled] attribute of the CAPTURE button. *)
Definition capture_disabled (p : Panel) : bool :=
  (negb (isStable (console p)) && negb (useManualWeight (console p)))
  || (negb (isConnected p) && negb (isSimulating p)
      && negb (useManualWeight (console p))).

End ScaleConnection.

Import ScaleConnection.

(** ** App.tsx *)

Module App.

(** [x + y] *)
Definition num_add (x y : number) : number :=
  match x, y with
  | NaN, _ | _, NaN => NaN
  | Num a, Num b => Num (a + b)%Qc
  | PosInf, NegInf | NegInf, PosInf => NaN
  | PosInf, _ | _, PosInf => PosInf
  | NegInf, _ | _, NegInf => NegInf
  end.

(** [x || 0] for a field that may be missing. *)
Definition or_zero (x : option number) : number :=
  match x with
  | Some w => num_or w (of_Z 0)
  | None => of_Z 0
  end.

(** [t.outboundTime || t.inboundTime] *)
Definition activity (t : Ticket) : Z :=
  match outboundTime t with
  | Some time => if bool_decide (time = 0) then inboundTime t else time
  | None => inboundTime t
  end.

(** The comparator of the sort: [timeB - timeA]. *)
Definition compareFn (a b : Ticket) : Z := activity b - activity a.

(** [Array.prototype.sort(compareFn)] sorts stably: an element moves
    behind another one only if the comparator is positive on the pair.
    Here by insertion, from the end of the array. *)
Fixpoint insert_by (compare : Ticket -> Ticket -> Z) (x : Ticket)
    (l : list Ticket) : list Ticket :=
  match l with
  | [] => [x]
  | y :: rest =>
      if bool_decide (0 < compare x y) then y :: insert_by compare x rest
      else x :: y :: rest
  end.

Definition sort (compare : Ticket -> Ticket -> Z) (l : list Ticket)
    : list Ticket :=
  foldr (insert_by compare) [] l.

(** The tickets the effect loads: all of them, most recent first. *)
Definition recentTickets (data : localStorage) : list Ticket :=
  sort compareFn (getTickets data).

(** [recentTickets.reduce((acc, t) => acc + (t.totalCost || 0), 0)] *)
Definition totalRevenue (recentTickets : list Ticket) : number :=
  foldl (fun acc t => num_add acc (or_zero (totalCost t))) (of_Z 0)
        recentTickets.

(** [recentTickets.reduce((acc, t) => acc + (t.netWeight || 0), 0)] *)
Definition totalWeight (recentTickets : list Ticket) : number :=
  foldl (fun acc t => num_add acc (or_zero (netWeight t))) (of_Z 0)
        recentTickets.

(** The cards of the activity strip: [recentTickets.slice(0, 15)]. *)
Definition activity_strip (recentTickets : list Ticket) : list Ticket :=
  take 15 recentTickets.

End App.

Import App.

(** * Vocabulary of the properties *)

Definition sample_ticket (i plate : string) (s : TicketStatus) : Ticket :=
  {| id := i; licensePlate := plate; companyName := None;
     materialType := "Mixed Metal"; inboundWeight := of_Z 20000;
     inboundTime := 1700000000000; inboundImage := "";
     outboundWeight := None; outboundTime := None; outboundImage := None;
     netWeight := None; ratePerKg := None; totalCost := None;
     status := s |}.

(** The records of a collection that carry the id [i], and the others, both
    in stored order. *)
Definition records_with_id (i : string) (l : list Ticket) : list Ticket :=
  filter (fun x => id x = i) l.

Definition records_without_id (i : string) (l : list Ticket) : list Ticket :=
  filter (fun x => id x <> i) l.

(** The round trip as the specification words it: after [saveTicket t] and
    then [saveTicket t'] with the id of [t], exactly one record carries that
    id, and it is [t']. *)
Definition round_trip_leaves_one (data : localStorage) (t t' : Ticket) : Prop :=
  records_with_id (id t)
    (getTickets (saveTicket t' (saveTicket t data))) = [t'].

(** The two failures the specification expects of [connect]. *)
Inductive ErrorKind : Type := ConnectionError | TransportError.

(** C5 as the specification words it: the way [connect] settles tells a
    missing transport capability and a declined device (ConnectionError)
    from a device that does not open (TransportError).  [kind_of] is any
    reading of the settled promise as an error. *)
Definition connect_fails_as_specified
    (kind_of : promise bool -> option ErrorKind) : Prop :=
  (forall navigator this,
     serial navigator = false ->
     kind_of (settled (connect navigator this)) = Some ConnectionError) /\
  (forall navigator this error,
     serial navigator = true ->
     requestPort navigator = Rejected error ->
     kind_of (settled (connect navigator this)) = Some ConnectionError) /\
  (forall navigator this selected error,
     serial navigator = true ->
     requestPort navigator = Resolved (Some selected) ->
     open selected 9600 = Rejected error ->
     kind_of (settled (connect navigator this)) = Some TransportError).

Definition navigator_declined : Navigator :=
  {| serial := true; requestPort := Rejected "NotFoundError" |}.

Definition port_that_fails : SerialPort :=
  {| readable := false; open := fun _ => Rejected "NetworkError" |}.

Definition port_that_opens : SerialPort :=
  {| readable := true; open := fun _ => Resolved () |}.

Definition navigator_busy_port : Navigator :=
  {| serial := true; requestPort := Resolved (Some port_that_fails) |}.

Definition navigator_ready : Navigator :=
  {| serial := true; requestPort := Resolved (Some port_that_opens) |}.

Fixpoint all_chars (p : ascii -> bool) (s : string) : bool :=
  match s with
  | EmptyString => true
  | String c r => p c && all_chars p r
  end.

Definition no_digit (s : string) : bool :=
  all_chars (fun c => negb (is_digit c)) s.

Definition digits (s : string) : bool :=
  negb (bool_decide (s = "")) && all_chars is_digit s.

Definition starts_with_digit (s : string) : bool :=
  match s with
  | String c _ => is_digit c
  | EmptyString => false
  end.

(** A dot that opens a fraction: a dot with a digit behind it. *)
Definition starts_with_fraction (s : string) : bool :=
  match s with
  | String "." r => starts_with_digit r
  | _ => false
  end.

(** The number a decimal numeral [ds.fs] denotes ([fs] empty when there is
    no fraction). *)
Definition decimal_value (ds fs : string) : Qc :=
  Q2Qc (inject_Z (digits_value (ds +:+ fs))
        / inject_Z (10 ^ Z.of_nat (String.length fs))).

(** [m] is the first numeric substring of [line]: nothing before it holds a
    digit, it is a maximal run of digits [ds], followed by a dot and a
    maximal run of digits [fs] when the line has them there. *)
Inductive first_numeric (line : string) : string -> string -> string -> Prop :=
  | first_integer pre ds post :
      line = pre +:+ ds +:+ post ->
      no_digit pre = true -> digits ds = true ->
      starts_with_digit post = false ->
      starts_with_fraction post = false ->
      first_numeric line ds ds ""
  | first_decimal pre ds fs post :
      line = pre +:+ ds +:+ "." +:+ fs +:+ post ->
      no_digit pre = true -> digits ds = true -> digits fs = true ->
      starts_with_digit post = false ->
      first_numeric line (ds +:+ "." +:+ fs) ds fs.

(** The text a sequence of chunks spells. *)
Definition join (chunks : list string) : string :=
  foldr String.append "" chunks.

Definition no_newline (s : string) : bool :=
  all_chars (fun c => negb (is_newline c)) s.

(** The scan of [split_newlines], cut in two: the segments it has completed
    and the state it is in at the end of the text. *)
Fixpoint completed (in_run : bool) (segment : string) (s : string)
    : list string :=
  match s with
  | EmptyString => []
  | String c r =>
      if is_newline c then
        if in_run then completed true "" r
        else segment :: completed true "" r
      else completed false (segment +:+ String c "") r
  end.

Fixpoint scan_state (in_run : bool) (segment : string) (s : string)
    : bool * string :=
  match s with
  | EmptyString => (in_run, segment)
  | String c r =>
      if is_newline c then scan_state true "" r
      else scan_state false (segment +:+ String c "") r
  end.

Definition CR : string := String "013" "".
Definition LF : string := String "010" "".

(** The scenario of the specification: "ABC123" weighs in at 20000 and,
    ten minutes later, out at 15000. *)
Definition scenario : list Event :=
  [ WeightUpdate (of_Z 20000); Elapse 800;
    Capture (Some "data:image/jpeg;base64,AAAA");
    Identified (mkRecognition "ABC123" (Num (Q2Qc (9 # 10))));
    ConfirmInbound "t1" 1700000000000 (Some "data:image/jpeg;base64,AAAA");
    WeightUpdate (of_Z 15000); Elapse 800;
    Capture (Some "data:image/jpeg;base64,BBBB");
    Identified (mkRecognition "ABC123" (Num (Q2Qc (9 # 10))));
    ConfirmOutbound 1700000600000 (Some "data:image/jpeg;base64,BBBB");
    Elapse 500 ].

(** The ticket the inbound confirm of the scenario opens. *)
Definition open_ticket : Ticket :=
  {| id := "t1"; licensePlate := "ABC123"; companyName := None;
     materialType := "Mixed Metal"; inboundWeight := of_Z 20000;
     inboundTime := 1700000000000;
     inboundImage := "data:image/jpeg;base64,AAAA";
     outboundWeight := None; outboundTime := None; outboundImage := None;
     netWeight := None; ratePerKg := None; totalCost := None;
     status := OPEN |}.

(** The console of the scenario when the outbound draft is shown: the
    ticket matched by the second capture, the scale reading 15000. *)
Definition console_at_outbound : Console :=
  run (mount None) (take 9 scenario).

(** The console in manual-entry mode, the weight field cleared. *)
Definition console_manual : Console :=
  run (mount None) [ToggleManual true; TypeManualWeight ""].

(** The console 150 ms after the scale delivered 14870. *)
Definition console_in_motion : Console :=
  run (mount (Some [sample_ticket "t1" "ABC123" OPEN]))
      [Elapse 900; WeightUpdate (of_Z 14870); Elapse 150].

(** A field of the outbound and financial groups is there if and only if
    the ticket is CLOSED. *)
Definition ticket_consistent (t : Ticket) : Prop :=
  (is_Some (outboundWeight t) <-> status t = CLOSED) /\
  (is_Some (outboundTime t) <-> status t = CLOSED) /\
  (is_Some (outboundImage t) <-> status t = CLOSED) /\
  (is_Some (netWeight t) <-> status t = CLOSED) /\
  (is_Some (ratePerKg t) <-> status t = CLOSED) /\
  (is_Some (totalCost t) <-> status t = CLOSED).

Definition no_closing_field (t : Ticket) : Prop :=
  outboundWeight t = None /\ outboundTime t = None /\
  outboundImage t = None /\ netWeight t = None /\
  ratePerKg t = None /\ totalCost t = None.

Definition every_closing_field (t : Ticket) : Prop :=
  is_Some (outboundWeight t) /\ is_Some (outboundTime t) /\
  is_Some (outboundImage t) /\ is_Some (netWeight t) /\
  is_Some (ratePerKg t) /\ is_Some (totalCost t).

(** The pending timers that will mark the reading stable. *)
Definition stability_timers (st : Console) : list Timer :=
  filter (fun t => action t = MarkStable) (timers st).

(** An event during which the reading does not change: it is neither a
    different weight nor the manual-entry checkbox. *)
Definition quiet (reading : number) (e : Event) : Prop :=
  match e with
  | WeightUpdate w => same w reading = true
  | ToggleManual _ => False
  | _ => True
  end.

(** The milliseconds that pass during a sequence of events. *)
Fixpoint elapsed (events : list Event) : nat :=
  match events with
  | [] => 0
  | Elapse ms :: rest => ms + elapsed rest
  | _ :: rest => elapsed rest
  end.

(** What holds of the timers in every state of the console. *)
Record console_inv (st : Console) : Prop := mkInv {
  inv_timer :
    forall t, t ∈ timers st -> action t = MarkStable ->
      stabilityTimeoutRef st = Some (timer_id t) /\ timer_id t <> 0%nat /\
      (1 <= remaining t <= 800)%nat;
  inv_manual :
    useManualWeight st = true ->
    isStable st = true /\ stability_timers st = [];
  inv_scale :
    useManualWeight st = false ->
    stabilityCleanup st = true /\
    (isStable st = true \/ stability_timers st <> []);
  inv_next : (1 <= nextTimerId st)%nat
}.

(** The reading is stable, or a timer will mark it stable within [k]
    milliseconds. *)
Definition due_within (k : nat) (st : Console) : Prop :=
  isStable st = true \/
  exists t, t ∈ timers st /\ action t = MarkStable /\ (remaining t <= k)%nat.

(** An event that neither delivers a weight, nor toggles manual entry, nor
    lets time pass. *)
Definition plain (e : Event) : Prop :=
  match e with
  | WeightUpdate _ | ToggleManual _ | Elapse _ => False
  | _ => True
  end.

(** The hypotheses under which the effect may run again: the timer part
    of the invariant, and a cleanup to run unless no stability timer is
    pending. *)
Definition timers_tracked (st : Console) : Prop :=
  forall t : Timer, t ∈ timers st -> action t = MarkStable ->
    stabilityTimeoutRef st = Some (timer_id t) /\ timer_id t <> 0%nat /\
    (1 <= remaining t <= 800)%nat.

(** The ticket the outbound confirm of the scenario leaves in the ledger. *)
Definition closed_ticket : Ticket :=
  {| id := "t1"; licensePlate := "ABC123"; companyName := None;
     materialType := "Mixed Metal"; inboundWeight := of_Z 20000;
     inboundTime := 1700000000000;
     inboundImage := "data:image/jpeg;base64,AAAA";
     outboundWeight := Some (of_Z 15000);
     outboundTime := Some 1700000600000;
     outboundImage := Some "data:image/jpeg;base64,BBBB";
     netWeight := Some (of_Z 5000); ratePerKg := Some rate;
     totalCost := Some (of_Z 1250);
     status := CLOSED |}.

(** An upper-case letter or a digit. *)
Definition is_plate_char (c : ascii) : bool :=
  let n := N_of_ascii c in
  ((48 <=? n) && (n <=? 57) || (65 <=? n) && (n <=? 90))%N.

(** The plate [identifyTruck] reports for a plate text the model read. *)
Definition reported_plate (licensePlate : string) : string :=
  if bool_decide (normalizedPlate licensePlate = "") then "UNKNOWN"
  else normalizedPlate licensePlate.

(** A response that carries a plate text. *)
Definition answers (licensePlate : string) (confidence : number)
    (text : string) (parse : string -> option Data) : Prop :=
  text <> "" /\ parse text = Some (mkData (Some licensePlate) confidence).

(** No comma in the text. *)
Definition no_comma (s : string) : bool :=
  all_chars (fun c => negb (bool_decide (c = ","%char))) s.

(** The recognition service gives nothing to read a plate from: it
    rejects, or answers without text, with text that does not parse, with
    no plate, or with a plate that holds no letter and no digit. *)
Definition unreadable (generateContent : string -> promise (option string))
    (JSON_parse : string -> option Data) (base64Image : string) : Prop :=
  forall text,
    generateContent (cleanBase64 base64Image) = Resolved (Some text) ->
    text = "" \/ JSON_parse text = None \/
    exists data, JSON_parse text = Some data /\
      (data_licensePlate data = None \/
       exists licensePlate, data_licensePlate data = Some licensePlate /\
                            normalizedPlate licensePlate = "").

(** The ids of the ledger, in stored order. *)
Definition ledger_ids (st : Console) : list string :=
  id <$> getTickets (storage st).

(** What the transaction panel works on: the mode, the matched ticket, the
    image whose recognition is awaited, and the ledger. *)
Definition desk (st : Console)
    : Mode * option Ticket * option string * localStorage :=
  (mode st, matchedTicket st, identifying st, storage st).

(** What holds of the transaction panel in every state of the console. *)
Record draft_inv (st : Console) : Prop := mkDraft {
  draft_outbound : mode st = OUTBOUND <-> is_Some (matchedTicket st);
  draft_pending :
    is_Some (identifying st) -> mode st = IDLE /\ matchedTicket st = None;
  draft_matched :
    forall t, matchedTicket st = Some t ->
      status t = OPEN /\ licensePlate t <> "UNKNOWN" /\ id t ∈ ledger_ids st
}.

(** An inbound confirm under an id the ledger does not hold. *)
Definition opens_record (st : Console) (e : Event) : bool :=
  match e with
  | ConfirmInbound uuid _ _ => bool_decide (uuid ∉ ledger_ids st)
  | _ => false
  end.

(** An event that does not switch manual entry on. *)
Definition keeps_scale (e : Event) : Prop :=
  match e with
  | ToggleManual true => False
  | _ => True
  end.

(** The scale is read, the reading is in motion, and no stability timer
    fires within the next [k] milliseconds. *)
Record settling (k : nat) (st : Console) : Prop := mkSettling {
  settling_inv : console_inv st;
  settling_scale : useManualWeight st = false;
  settling_motion : isStable st = false;
  settling_timers :
    forall t, t ∈ timers st -> action t = MarkStable -> (k < remaining t)%nat
}.

(** [connect] gets a port and opens it. *)
Definition port_opens (navigator : Navigator) : Prop :=
  serial navigator = true /\
  exists selected u,
    requestPort navigator = Resolved (Some selected) /\
    open selected 9600 = Resolved u.

(** Most recent activity first. *)
Definition most_recent_first (l : list Ticket) : Prop :=
  StronglySorted (fun a b => activity b <= activity a) l.

(** A ticket whose cost counts in the revenue: the cost is there, and is
    neither 0 nor NaN. *)
Definition has_cost (t : Ticket) : bool :=
  match totalCost t with
  | Some w => truthy w
  | None => false
  end.

(** An event that delivers a finite weight, when it delivers one: a
    reading of the scale or of the simulation, or a manual entry that
    reads as a finite number or as nothing. *)
Definition finite_event (e : Event) : Prop :=
  match e with
  | WeightUpdate w => isFinite w = true
  | TypeManualWeight value =>
      isFinite (num_or (parseFloat value) (of_Z 0)) = true
  | _ => True
  end.

(** A field that is absent or holds a finite number. *)
Definition finite_field (x : option number) : Prop :=
  match x with
  | Some w => isFinite w = true
  | None => True
  end.

(** A field that is absent or holds a finite number that is not negative. *)
Definition amount (x : option number) : Prop :=
  match x with
  | Some (Num q) => (0 <= q)%Qc
  | Some _ => False
  | None => True
  end.

Definition sound_ticket (t : Ticket) : Prop :=
  isFinite (inboundWeight t) = true /\ finite_field (outboundWeight t) /\
  amount (netWeight t) /\ amount (totalCost t).

(** What holds of the weights in every state of a console that is fed
    finite weights. *)
Record finite_inv (st : Console) : Prop := mkFinite {
  finite_current : isFinite (currentWeight st) = true;
  finite_manual :
    isFinite (num_or (parseFloat (manualWeight st)) (of_Z 0)) = true;
  finite_ledger : Forall sound_ticket (getTickets (storage st));
  finite_matched :
    forall t, matchedTicket st = Some t -> isFinite (inboundWeight t) = true
}.

(** The number of line breaks of a text. *)
Fixpoint count_newlines (s : string) : nat :=
  match s with
  | EmptyString => 0
  | String c r => (if is_newline c then 1 else 0) + count_newlines r
  end.

(** A finite number that is not negative. *)
Definition finite_nonneg (w : number) : Prop :=
  exists q : Qc, w = Num q /\ (0 <= q)%Qc.

(** The OPEN tickets of a collection that carry the plate [plate]. *)
Definition open_with (plate : string) (l : list Ticket) : list Ticket :=
  filter (fun t => status t = OPEN /\ licensePlate t = plate) l.

(** At most one OPEN ticket for each plate, the sentinel apart. *)
Definition one_open_per_plate (l : list Ticket) : Prop :=
  forall plate, plate <> "UNKNOWN" -> (length (open_with plate l) <= 1)%nat.

(** What the operator can do on the transaction panel without retyping the
    plate: CREATE TICKET is rendered in the inbound draft only. *)
Definition operator_event (st : Console) (e : Event) : Prop :=
  match e with
  | EditPlate _ => False
  | ConfirmInbound _ _ _ => mode st = INBOUND
  | _ => True
  end.

Fixpoint operator_run (st : Console) (events : list Event) : Prop :=
  match events with
  | [] => True
  | e :: rest => operator_event st e /\ operator_run (step st e) rest
  end.

(** What holds of the plates while the operator does not retype one. *)
Record plate_inv (st : Console) : Prop := mkPlates {
  plates_draft : draft_inv st;
  plates_ledger : one_open_per_plate (getTickets (storage st));
  plates_inbound :
    mode st = INBOUND -> detectedPlate st <> "UNKNOWN" ->
    open_with (detectedPlate st) (getTickets (storage st)) = []
}.

(** The two scale buttons are clicked only while they are rendered. *)
Fixpoint clicks_allowed (p : Panel) (events : list PanelEvent) : Prop :=
  match events with
  | [] => True
  | e :: rest =>
      match e with
      | ConnectScale | ToggleSimulation => buttons_shown p = true
      | _ => True
      end /\ clicks_allowed (panel_step p e) rest
  end.

(** An event that is not the settling of a [connect()]. *)
Definition not_settling (e : PanelEvent) : Prop :=
  match e with
  | ConnectSettled _ => False
  | _ => True
  end.

(** * Properties *)

(** ** The embedding on known values *)

Example parseFloat_values :
  parseFloat "12400" = of_Z 12400 /\
  parseFloat "  -12.50e1kg" = of_Z (-125) /\
  parseFloat "0.25" = rate /\
  parseFloat "5." = of_Z 5 /\
  parseFloat ".5" = Num (Q2Qc (1 # 2)) /\
  parseFloat "1e3" = of_Z 1000 /\
  parseFloat "1e" = of_Z 1 /\
  parseFloat "-Infinityx" = NegInf /\
  parseFloat "" = NaN /\
  parseFloat "kg" = NaN /\
  parseFloat ".e5" = NaN.
Proof. split_and!; by_computation. Qed.

Example split_newlines_values :
  split_newlines ("12" +:+ CR +:+ LF +:+ "34" +:+ LF) = ["12"; "34"; ""] /\
  split_newlines (LF +:+ "34" +:+ LF) = [""; "34"; ""] /\
  split_newlines "" = [""] /\
  split_newlines "abc" = ["abc"] /\
  split_newlines LF = [""; ""].
Proof. by split_and!. Qed.

Example regex_match_values :
  regex_match "ST,GS,+ 12400 kg" = Some "12400" /\
  regex_match "a12.x3" = Some "12" /\
  regex_match "w=12.5.7" = Some "12.5" /\
  regex_match "ST,GS" = None.
Proof. by split_and!. Qed.

(** ** The ticket ledger *)

Section find_split.
Context {A : Type} (P : A -> Prop) `{!forall x, Decision (P x)}.

(** [list_find] stops at the first element that satisfies [P]. *)
Lemma list_find_split (l : list A) (i : nat) (x : A) :
  list_find P l = Some (i, x) <->
  exists l1 l2, l = l1 ++ x :: l2 /\ length l1 = i /\ P x /\
                Forall (fun y => ~ P y) l1.
Proof.
  rewrite list_find_Some. split.
  - intros (Hi & HP & Hlt).
    exists (take i l), (drop (S i) l). split_and!.
    + by rewrite take_drop_middle.
    + apply length_take_le. apply lookup_lt_Some in Hi. lia.
    + done.
    + apply Forall_lookup. intros j y Hj.
      apply lookup_take_Some in Hj as [Hj ?]. eauto.
  - intros (l1 & l2 & -> & <- & HP & Hall). split_and!.
    + by rewrite list_lookup_middle.
    + done.
    + intros j y Hj Hlt. rewrite lookup_app_l in Hj by done.
      by eapply (Forall_lookup_1 _ _ _ _ Hall).
Qed.

Lemma findIndex_Some (l : list A) (i : nat) :
  findIndex P l = Some i <-> exists x, list_find P l = Some (i, x).
Proof.
  unfold findIndex. rewrite fmap_Some. split.
  - intros [[j x] [? ?]]; simplify_eq/=. eauto.
  - intros [x ?]. by exists (i, x).
Qed.

Lemma findIndex_None (l : list A) :
  findIndex P l = None <-> Forall (fun y => ~ P y) l.
Proof. unfold findIndex. by rewrite fmap_None, list_find_None. Qed.

Lemma find_Some (l : list A) (x : A) :
  find P l = Some x <-> exists i, list_find P l = Some (i, x).
Proof.
  unfold find. rewrite fmap_Some. split.
  - intros [[j y] [? ?]]; simplify_eq/=. eauto.
  - intros [i ?]. by exists (i, x).
Qed.

Lemma find_None (l : list A) :
  find P l = None <-> Forall (fun y => ~ P y) l.
Proof. unfold find. by rewrite fmap_None, list_find_None. Qed.
End find_split.

(** C2. [findOpenTicketByPlate] returns nothing exactly when the plate is
    the sentinel "UNKNOWN" or no OPEN ticket carries the plate; otherwise
    it returns the earliest stored ticket that is OPEN and carries exactly
    that plate, whatever else the store holds. *)
Theorem findOpenTicketByPlate_spec (data : localStorage) (plate : string) :
  let matches t := status t = OPEN /\ licensePlate t = plate in
  (plate = "UNKNOWN" -> findOpenTicketByPlate plate data = None) /\
  (Forall (fun t => ~ matches t) (getTickets data) ->
   findOpenTicketByPlate plate data = None) /\
  (forall before t after,
     plate <> "UNKNOWN" ->
     getTickets data = before ++ t :: after ->
     matches t ->
     Forall (fun u => ~ matches u) before ->
     findOpenTicketByPlate plate data = Some t) /\
  (findOpenTicketByPlate plate data = None ->
   plate = "UNKNOWN" \/ Forall (fun t => ~ matches t) (getTickets data)).
Proof.
  intros matches. unfold findOpenTicketByPlate. split_and!.
  - intros ->. by rewrite bool_decide_eq_true_2.
  - intros Hall. case_bool_decide; [done|]. by apply find_None.
  - intros before t after Hne Hl Ht Hbefore.
    rewrite bool_decide_eq_false_2 by done.
    apply find_Some. exists (length before). apply list_find_split.
    by exists before, after.
  - case_bool_decide; [by left|]. intros Hnone. right.
    by apply find_None in Hnone.
Qed.

Lemma findOpenTicketByPlate_spec_witness :
  findOpenTicketByPlate "ABC123"
    (Some [sample_ticket "t0" "ABC123" CLOSED;
           sample_ticket "t1" "ABC123" OPEN;
           sample_ticket "t2" "ABC123" OPEN])
  = Some (sample_ticket "t1" "ABC123" OPEN).
Proof.
  apply (findOpenTicketByPlate_spec _ "ABC123")
    with (before := [sample_ticket "t0" "ABC123" CLOSED])
         (after := [sample_ticket "t2" "ABC123" OPEN]).
  - discriminate.
  - reflexivity.
  - split; reflexivity.
  - repeat constructor. intros [? _]. discriminate.
Defined.

Lemma saveTicket_absent (t : Ticket) (data : localStorage) :
  Forall (fun x => id x <> id t) (getTickets data) ->
  saveTicket t data = Some (getTickets data ++ [t]).
Proof.
  intros Hall. unfold saveTicket.
  by rewrite (proj2 (findIndex_None _ _) Hall).
Qed.

Lemma saveTicket_present (t x : Ticket) (data : localStorage)
    (l1 l2 : list Ticket) :
  getTickets data = l1 ++ x :: l2 ->
  id x = id t ->
  Forall (fun y => id y <> id t) l1 ->
  saveTicket t data = Some (l1 ++ t :: l2).
Proof.
  intros Hl Hx Hall. unfold saveTicket.
  assert (Hfind : findIndex (fun y => id y = id t) (getTickets data)
                  = Some (length l1)).
  { apply findIndex_Some. exists x. apply list_find_split.
    by exists l1, l2. }
  rewrite Hfind, Hl. f_equal.
  replace (length l1) with (length l1 + 0)%nat by lia.
  by rewrite insert_app_r.
Qed.

(** Every collection either lacks the id or splits at its first record
    with the id. *)
Lemma first_with_id (i : string) (l : list Ticket) :
  Forall (fun y => id y <> i) l \/
  exists l1 x l2, l = l1 ++ x :: l2 /\ id x = i /\
                  Forall (fun y => id y <> i) l1.
Proof.
  destruct (list_find (fun y => id y = i) l) as [[n x]|] eqn:Hfind.
  - right. apply list_find_split in Hfind as (l1 & l2 & ? & ? & ? & ?).
    by exists l1, x, l2.
  - left. by apply list_find_None in Hfind.
Qed.

Lemma records_with_id_none (i : string) (l : list Ticket) :
  Forall (fun y => id y <> i) l -> records_with_id i l = [].
Proof.
  unfold records_with_id. induction 1 as [|y l Hy _ IH]; [done|].
  by rewrite filter_cons_False.
Qed.

(** What two saves under one id leave behind, in every collection: the
    second ticket sits where the first record with the id was, or at the
    end when there was none. *)
Lemma saveTicket_twice (data : localStorage) (t t' : Ticket) :
  id t' = id t ->
  getTickets (saveTicket t' (saveTicket t data)) =
    match findIndex (fun x => id x = id t) (getTickets data) with
    | Some i => <[i := t']> (getTickets data)
    | None => getTickets data ++ [t']
    end.
Proof.
  intros Hid.
  destruct (first_with_id (id t) (getTickets data))
    as [Hall | (l1 & x & l2 & Hl & Hx & Hall)].
  - rewrite (saveTicket_absent t) by done.
    rewrite (saveTicket_present t' t _ (getTickets data) []);
      [|done|done|by rewrite Hid].
    by rewrite (proj2 (findIndex_None _ _) Hall).
  - rewrite (saveTicket_present t x _ l1 l2) by done.
    rewrite (saveTicket_present t' t _ l1 l2); [|done|done|by rewrite Hid].
    assert (Hfind : findIndex (fun y => id y = id t) (getTickets data)
                    = Some (length l1)).
    { apply findIndex_Some. exists x. apply list_find_split.
      by exists l1, l2. }
    rewrite Hfind, Hl. simpl.
    replace (length l1) with (length l1 + 0)%nat by lia.
    by rewrite insert_app_r.
Qed.




(** [saveTicket] keeps the ids of the ledger pairwise distinct, so the
    ledgers it builds from an empty store meet the condition of the round
    trip. *)
Lemma distinct_ids_at_most_one (i : string) (l : list Ticket) :
  NoDup (id <$> l) -> (length (records_with_id i l) <= 1)%nat.
Proof.
  unfold records_with_id. induction l as [|x l IH]; simpl; [lia|].
  intros [Hx Hl]%NoDup_cons. rewrite filter_cons. case_decide; [|by apply IH].
  fold (records_with_id i l).
  rewrite (records_with_id_none i l); [simpl; lia|].
  apply Forall_forall. intros y Hy Hyi. apply Hx.
  apply list_elem_of_fmap. exists y. split; [congruence|done].
Qed.

Lemma saveTicket_distinct_ids (t : Ticket) (data : localStorage) :
  NoDup (id <$> getTickets data) ->
  NoDup (id <$> getTickets (saveTicket t data)).
Proof.
  intros Hnd.
  destruct (first_with_id (id t) (getTickets data))
    as [Hall | (l1 & x & l2 & Hl & Hx & Hall)].
  - rewrite (saveTicket_absent t) by done. simpl.
    rewrite fmap_app. apply NoDup_app. split_and!; [done| |apply NoDup_singleton].
    intros i Hi ->%list_elem_of_singleton.
    apply list_elem_of_fmap in Hi as (y & Hy & Hin).
    by eapply (proj1 (Forall_forall _ _) Hall).
  - rewrite (saveTicket_present t x _ l1 l2) by done. simpl.
    rewrite Hl in Hnd. rewrite fmap_app, fmap_cons in *.
    by rewrite <- Hx.
Qed.

(** ** Connecting to the scale *)

(** C5, as stated, fails: a declined device and a device that does not open
    both make [connect] resolve to [false]; no error reaches the caller and
    the two cases settle alike. *)
Lemma connect_failures_indistinguishable :
  settled (connect navigator_declined constructor) = Resolved false /\
  settled (connect navigator_busy_port constructor) = Resolved false /\
  ~ exists kind_of, connect_fails_as_specified kind_of.
Proof.
  split_and!; [reflexivity..|].
  intros (kind_of & _ & Hdeclined & Hopen).
  specialize (Hdeclined navigator_declined constructor "NotFoundError"
                eq_refl eq_refl).
  specialize (Hopen navigator_busy_port constructor port_that_fails
                "NetworkError" eq_refl eq_refl eq_refl).
  simpl in *. congruence.
Qed.

(** C5, as amended.  [connect] rejects with an error when the browser has
    no Web Serial; when the chooser is dismissed, or the selected port does
    not open, it logs the error and resolves to [false], the same way in
    both cases; it resolves to [true] only when a port was selected and
    opened, so it never succeeds in any of the failure cases. *)
Theorem connect_outcomes (navigator : Navigator) (this : ScaleService) :
  (serial navigator = false ->
   settled (connect navigator this)
   = Rejected "Web Serial API not supported in this browser.") /\
  (forall error,
     serial navigator = true ->
     requestPort navigator = Rejected error ->
     settled (connect navigator this) = Resolved false /\
     console_error (connect navigator this)
     = ["Error connecting to scale:"; error]) /\
  (forall selected error,
     serial navigator = true ->
     requestPort navigator = Resolved (Some selected) ->
     open selected 9600 = Rejected error ->
     settled (connect navigator this) = Resolved false /\
     console_error (connect navigator this)
     = ["Error connecting to scale:"; error]) /\
  (settled (connect navigator this) = Resolved true <->
   serial navigator = true /\
   exists selected,
     requestPort navigator = Resolved (Some selected) /\
     open selected 9600 = Resolved ()).
Proof.
  unfold connect, isSupported. split_and!.
  - by intros ->.
  - by intros error -> ->.
  - by intros selected error -> -> ->.
  - destruct (serial navigator); simpl;
      [|split; [done | by intros [? _]]].
    destruct (requestPort navigator) as [[selected|]|]; simpl;
      [|split; [done | intros (_ & ? & ? & _); congruence]..].
    destruct (open selected 9600) as [[]|] eqn:Hopen; simpl.
    + split; [|done]. intros _. split; [done|]. by exists selected.
    + split; [done|]. intros (_ & ? & ? & ?). congruence.
Qed.

Lemma connect_outcomes_witness :
  settled (connect navigator_busy_port constructor) = Resolved false /\
  settled (connect navigator_ready constructor) = Resolved true.
Proof.
  split.
  - apply (connect_outcomes navigator_busy_port constructor)
      with (selected := port_that_fails) (error := "NetworkError");
      reflexivity.
  - apply (connect_outcomes navigator_ready constructor).
    split; [reflexivity|]. exists port_that_opens. split; reflexivity.
Defined.

(** ** Reading a weight out of a line *)

Section strings.
Implicit Types (s r : string) (c : ascii).

Lemma app_nil_string s : "" +:+ s = s.
Proof. reflexivity. Qed.

Lemma app_cons_string c r s : String c r +:+ s = String c (r +:+ s).
Proof. reflexivity. Qed.

Lemma app_string_nil s : s +:+ "" = s.
Proof. induction s as [|c r IH]; [done|]. by rewrite app_cons_string, IH. Qed.

Lemma app_string_assoc s1 s2 s3 : (s1 +:+ s2) +:+ s3 = s1 +:+ (s2 +:+ s3).
Proof.
  induction s1 as [|c r IH]; [done|]. by rewrite !app_cons_string, IH.
Qed.

Lemma digit_not_whitespace c : is_digit c = true -> is_whitespace c = false.
Proof.
  unfold is_digit, is_whitespace.
  intros [H1 H2]%andb_true_iff. apply N.leb_le in H1, H2.
  apply orb_false_iff; split; [apply orb_false_iff; split|].
  - apply andb_false_iff. right. apply N.leb_gt. lia.
  - apply N.eqb_neq. lia.
  - apply N.eqb_neq. lia.
Qed.

Lemma span_digits_app ds rest :
  all_chars is_digit ds = true -> starts_with_digit rest = false ->
  span_digits (ds +:+ rest) = (ds, rest).
Proof.
  induction ds as [|c r IH]; simpl.
  - intros _ Hrest. rewrite app_nil_string.
    destruct rest as [|c r]; [done|]. simpl in *. by rewrite Hrest.
  - intros [Hc Hr]%andb_true_iff Hrest. by rewrite Hc, IH.
Qed.

Lemma span_digits_all ds :
  all_chars is_digit ds = true -> span_digits ds = (ds, "").
Proof.
  intros Hds. rewrite <- (app_string_nil ds) at 1.
  by apply span_digits_app.
Qed.

Lemma regex_match_no_digit s : no_digit s = true -> regex_match s = None.
Proof.
  unfold no_digit. induction s as [|c r IH]; simpl; [done|].
  intros [Hc Hr]%andb_true_iff. apply negb_true_iff in Hc.
  rewrite Hc. by apply IH.
Qed.

Lemma regex_match_skip pre s :
  no_digit pre = true -> regex_match (pre +:+ s) = regex_match s.
Proof.
  unfold no_digit. induction pre as [|c r IH]; simpl; [done|].
  intros [Hc Hr]%andb_true_iff. apply negb_true_iff in Hc.
  change (String c r +:+ s) with (String c (r +:+ s)). simpl.
  rewrite Hc. by apply IH.
Qed.

Lemma regex_match_at_digit s :
  starts_with_digit s = true -> regex_match s = Some (number_at s).
Proof. destruct s as [|c r]; simpl; [done|]. by intros ->. Qed.

Lemma digits_inv ds :
  digits ds = true ->
  ds <> "" /\ all_chars is_digit ds = true /\ starts_with_digit ds = true.
Proof.
  unfold digits. intros [Hne Hall]%andb_true_iff.
  apply negb_true_iff, bool_decide_eq_false in Hne.
  split_and!; [done..|]. destruct ds as [|c r]; [done|]. simpl in *.
  by apply andb_true_iff in Hall as [? _].
Qed.

Lemma number_at_integer ds post :
  digits ds = true ->
  starts_with_digit post = false -> starts_with_fraction post = false ->
  number_at (ds +:+ post) = ds.
Proof.
  intros (_ & Hds & _)%digits_inv Hpost Hfrac. unfold number_at.
  rewrite span_digits_app by done.
  destruct post as [|c r]; [done|].
  destruct (decide (c = "."%char)) as [->|Hc].
  - simpl in Hfrac. destruct r as [|c' r']; [done|]. simpl in *.
    by rewrite Hfrac, bool_decide_eq_true_2.
  - destruct c as [[] [] [] [] [] [] [] []]; try done.
Qed.

Lemma number_at_decimal ds fs post :
  digits ds = true -> digits fs = true ->
  starts_with_digit post = false ->
  number_at (ds +:+ "." +:+ fs +:+ post) = ds +:+ "." +:+ fs.
Proof.
  intros (_ & Hds & _)%digits_inv (Hne & Hfs & _)%digits_inv Hpost.
  unfold number_at. rewrite span_digits_app by done.
  rewrite app_cons_string, app_nil_string.
  rewrite span_digits_app by done.
  by rewrite bool_decide_eq_false_2.
Qed.

Lemma starts_with_digit_app ds s :
  starts_with_digit ds = true -> starts_with_digit (ds +:+ s) = true.
Proof. by destruct ds. Qed.

(** The leftmost match of the pattern is the first numeric substring. *)
Lemma regex_match_first_numeric line m ds fs :
  first_numeric line m ds fs -> regex_match line = Some m.
Proof.
  destruct 1 as [pre ds post -> Hpre Hds Hpost Hfrac
                |pre ds fs post -> Hpre Hds Hfs Hpost].
  - rewrite regex_match_skip by done.
    rewrite regex_match_at_digit.
    + by rewrite number_at_integer.
    + apply starts_with_digit_app. by apply digits_inv.
  - rewrite regex_match_skip by done.
    rewrite regex_match_at_digit.
    + by rewrite number_at_decimal.
    + apply starts_with_digit_app. by apply digits_inv.
Qed.
End strings.

Section numerals.
Implicit Types (s r ds fs : string) (c : ascii).

Lemma scale10_neg (m : Z) (n : nat) :
  scale10 m (0 - Z.of_nat n)
  = Q2Qc (inject_Z m / inject_Z (10 ^ Z.of_nat n)).
Proof.
  unfold scale10. apply Q2Qc_eq_iff. unfold Qdiv.
  replace (0 - Z.of_nat n) with (- Z.of_nat n) by lia.
  rewrite Qpower_opp, Zpower_Qpower by lia. reflexivity.
Qed.

Lemma parseFloat_at_digit s :
  starts_with_digit s = true -> parseFloat s = parse_unsigned false s.
Proof.
  destruct s as [|c r]; [done|]. simpl. intros Hc. unfold parseFloat.
  simpl. rewrite (digit_not_whitespace c Hc).
  rewrite !bool_decide_eq_false_2; [done|by intros ->..].
Qed.

Lemma not_Infinity_at_digit s :
  starts_with_digit s = true -> is_prefix "Infinity" s = false.
Proof.
  destruct s as [|c r]; [done|]. simpl. intros Hc.
  rewrite bool_decide_eq_false_2; [done|by intros <-].
Qed.

(** [parseFloat] of a run of digits is the integer it spells. *)
Lemma parseFloat_integer ds :
  digits ds = true -> parseFloat ds = Num (decimal_value ds "").
Proof.
  intros Hdigits. destruct (digits_inv _ Hdigits) as (Hne & Hds & Hstart).
  rewrite parseFloat_at_digit by done. unfold parse_unsigned.
  rewrite not_Infinity_at_digit by done.
  rewrite span_digits_all by done. simpl.
  rewrite (bool_decide_eq_false_2 (ds = "")) by done. simpl.
  unfold decimal_value. by rewrite <- scale10_neg.
Qed.

(** [parseFloat] of digits, a dot and digits is the decimal it spells. *)
Lemma parseFloat_decimal ds fs :
  digits ds = true -> digits fs = true ->
  parseFloat (ds +:+ "." +:+ fs) = Num (decimal_value ds fs).
Proof.
  intros Hdigits Hfdigits.
  destruct (digits_inv _ Hdigits) as (Hne & Hds & Hstart).
  destruct (digits_inv _ Hfdigits) as (Hfne & Hfs & _).
  rewrite parseFloat_at_digit by by apply starts_with_digit_app.
  unfold parse_unsigned.
  rewrite not_Infinity_at_digit by by apply starts_with_digit_app.
  rewrite span_digits_app by done.
  change ("." +:+ fs) with (String "." fs). unfold fraction_part.
  rewrite bool_decide_eq_true_2 by done.
  rewrite span_digits_all by done.
  rewrite (bool_decide_eq_false_2 (ds = "")) by done. simpl.
  unfold decimal_value. by rewrite <- scale10_neg.
Qed.

Lemma decimal_value_integer ds : Num (decimal_value ds "") = of_Z (digits_value ds).
Proof.
  unfold decimal_value, of_Z. f_equal. apply Q2Qc_eq_iff.
  rewrite app_string_nil. simpl. unfold Qeq. simpl. lia.
Qed.

(** A line that holds a digit is not blank. *)
Lemma trim_not_blank s :
  no_digit s = false -> (0 < String.length (trim s))%nat.
Proof.
  unfold no_digit, trim. induction s as [|c r IH]; simpl; [done|].
  intros Hs. destruct (is_whitespace c) eqn:Hw.
  - apply IH. apply andb_false_iff in Hs as [Hc|Hr]; [|done].
    apply negb_false_iff, digit_not_whitespace in Hc. congruence.
  - simpl. rewrite Hw. simpl. lia.
Qed.

Lemma no_digit_app s1 s2 :
  no_digit (s1 +:+ s2) = no_digit s1 && no_digit s2.
Proof.
  unfold no_digit. induction s1 as [|c r IH]; [done|].
  change (String c r +:+ s2) with (String c (r +:+ s2)). simpl.
  by rewrite IH, andb_assoc.
Qed.

Lemma first_numeric_has_digit line m ds fs :
  first_numeric line m ds fs -> no_digit line = false.
Proof.
  assert (Hstart : forall d s, digits d = true -> no_digit (d +:+ s) = false).
  { intros d s (_ & _ & Hd)%digits_inv. destruct d as [|c r]; [done|].
    unfold no_digit. simpl in *. by rewrite Hd. }
  destruct 1 as [pre ds post -> Hpre Hds Hpost Hfrac
                |pre ds fs post -> Hpre Hds Hfs Hpost];
    rewrite no_digit_app, Hstart by done; apply andb_false_r.
Qed.
Lemma span_digits_spec s ds r :
  span_digits s = (ds, r) ->
  s = ds +:+ r /\ all_chars is_digit ds = true /\ starts_with_digit r = false.
Proof.
  revert ds r. induction s as [|c s IH]; intros ds r; simpl.
  - by intros [= <- <-].
  - destruct (is_digit c) eqn:Hc.
    + destruct (span_digits s) as [d r'] eqn:Hspan. intros [= <- <-].
      destruct (IH d r' eq_refl) as (-> & Hd & Hr).
      split_and!; [done| |done]. simpl. by rewrite Hc.
    + intros [= <- <-]. split_and!; [done..|]. simpl. by rewrite Hc.
Qed.

Lemma span_digits_at_digit s ds r :
  starts_with_digit s = true -> span_digits s = (ds, r) ->
  s = ds +:+ r /\ digits ds = true /\ starts_with_digit r = false.
Proof.
  intros Hs (-> & Hds & Hr)%span_digits_spec. split_and!; [done| |done].
  unfold digits. rewrite Hds, andb_true_r. apply negb_true_iff.
  apply bool_decide_eq_false_2. intros ->.
  rewrite app_nil_string in Hs. congruence.
Qed.

Lemma first_numeric_cons c line m ds fs :
  is_digit c = false ->
  first_numeric line m ds fs -> first_numeric (String c line) m ds fs.
Proof.
  intros Hc.
  destruct 1 as [pre ds post -> Hpre Hds Hpost Hfrac
                |pre ds fs post -> Hpre Hds Hfs Hpost].
  - apply (first_integer _ (String c pre) ds post); try done.
    unfold no_digit in *. simpl. by rewrite Hc.
  - apply (first_decimal _ (String c pre) ds fs post); try done.
    unfold no_digit in *. simpl. by rewrite Hc.
Qed.

(** A line that holds a digit has a first numeric substring. *)
Lemma first_numeric_exists line :
  no_digit line = false -> exists m ds fs, first_numeric line m ds fs.
Proof.
  induction line as [|c line IH]; [done|].
  destruct (is_digit c) eqn:Hc.
  - intros _.
    destruct (span_digits (String c line)) as [ds r] eqn:Hspan.
    destruct (span_digits_at_digit (String c line) ds r Hc Hspan)
      as (Hline & Hds & Hr).
    destruct (starts_with_fraction r) eqn:Hfrac.
    + destruct r as [|dot r1]; [done|].
      destruct (decide (dot = "."%char)) as [->|Hdot].
      * simpl in Hfrac.
        destruct (span_digits r1) as [fs post] eqn:Hfspan.
        destruct (span_digits_at_digit _ _ _ Hfrac Hfspan)
          as (-> & Hfs & Hpost).
        exists (ds +:+ "." +:+ fs), ds, fs.
        by apply (first_decimal _ "" ds fs post).
      * exfalso. revert Hfrac. clear -Hdot.
        destruct dot as [[] [] [] [] [] [] [] []]; by simpl.
    + exists ds, ds, "". by apply (first_integer _ "" ds r).
  - unfold no_digit. simpl. rewrite Hc. simpl. intros Hline.
    destruct (IH Hline) as (m & ds & fs & Hfirst).
    exists m, ds, fs. by apply first_numeric_cons.
Qed.
End numerals.



(** ** Chunk boundaries *)

Section framer.
Implicit Types (s u v seg : string) (b : bool) (c : ascii).

Lemma split_scan_decompose b seg s :
  split_scan b seg s = completed b seg s ++ [(scan_state b seg s).2].
Proof.
  revert b seg. induction s as [|c r IH]; intros b seg; simpl; [done|].
  destruct (is_newline c); [destruct b|]; by rewrite IH.
Qed.

Lemma processData_scan chunk buffer :
  processData chunk buffer =
    ((scan_state false "" (buffer +:+ chunk)).2,
     flat_map emit_line (completed false "" (buffer +:+ chunk))).
Proof.
  unfold processData, split_newlines. rewrite split_scan_decompose.
  by rewrite last_snoc, removelast_last.
Qed.

Lemma completed_app b seg u v :
  completed b seg (u +:+ v) =
    completed b seg u
    ++ completed (scan_state b seg u).1 (scan_state b seg u).2 v.
Proof.
  revert b seg. induction u as [|c r IH]; intros b seg; [done|].
  change (String c r +:+ v) with (String c (r +:+ v)). simpl.
  destruct (is_newline c); [destruct b|]; by rewrite IH.
Qed.

Lemma scan_state_app b seg u v :
  scan_state b seg (u +:+ v) =
    scan_state (scan_state b seg u).1 (scan_state b seg u).2 v.
Proof.
  revert b seg. induction u as [|c r IH]; intros b seg; [done|].
  change (String c r +:+ v) with (String c (r +:+ v)). simpl.
  destruct (is_newline c); by rewrite IH.
Qed.

(** Text without a line break only extends the segment being read. *)
Lemma scan_state_no_newline b seg u :
  no_newline u = true ->
  scan_state b seg u = (if bool_decide (u = "") then b else false, seg +:+ u).
Proof.
  unfold no_newline. revert b seg.
  induction u as [|c r IH]; intros b seg; simpl.
  - by rewrite app_string_nil.
  - intros [Hc Hr]%andb_true_iff. apply negb_true_iff in Hc.
    rewrite Hc, IH by done. rewrite app_string_assoc.
    by case_bool_decide.
Qed.

Lemma completed_no_newline b seg u :
  no_newline u = true -> completed b seg u = [].
Proof.
  unfold no_newline. revert b seg.
  induction u as [|c r IH]; intros b seg; simpl; [done|].
  intros [Hc Hr]%andb_true_iff. apply negb_true_iff in Hc.
  by rewrite Hc, IH.
Qed.

Lemma no_newline_app u v :
  no_newline (u +:+ v) = no_newline u && no_newline v.
Proof.
  unfold no_newline. induction u as [|c r IH]; [done|].
  change (String c r +:+ v) with (String c (r +:+ v)). simpl.
  by rewrite IH, andb_assoc.
Qed.

(** The segment being read never holds a line break, and it is empty
    inside a run of line breaks. *)
Lemma scan_state_invariant b seg s :
  no_newline seg = true -> (b = true -> seg = "") ->
  no_newline (scan_state b seg s).2 = true /\
  ((scan_state b seg s).1 = true -> (scan_state b seg s).2 = "").
Proof.
  revert b seg. induction s as [|c r IH]; intros b seg Hseg Hb; simpl.
  - done.
  - destruct (is_newline c) eqn:Hc.
    + by apply IH.
    + apply IH; [|done]. rewrite no_newline_app, Hseg.
      unfold no_newline. simpl. by rewrite Hc.
Qed.

(** Entering the scan inside a run of line breaks changes neither the
    readings nor the carry-over. *)
Lemma in_run_irrelevant v :
  (scan_state true "" v).2 = (scan_state false "" v).2 /\
  flat_map emit_line (completed true "" v)
  = flat_map emit_line (completed false "" v).
Proof.
  destruct v as [|c r]; [done|]. simpl.
  destruct (is_newline c); [|done]. split; [done|].
  change (emit_line "") with (@nil number). done.
Qed.

(** Scanning on from the carry-over is scanning on from where the scan
    stopped. *)
Lemma resume_from_buffer b seg v :
  no_newline seg = true -> (b = true -> seg = "") ->
  (scan_state false "" (seg +:+ v)).2 = (scan_state b seg v).2 /\
  flat_map emit_line (completed false "" (seg +:+ v))
  = flat_map emit_line (completed b seg v).
Proof.
  intros Hseg Hb.
  rewrite scan_state_app, completed_app.
  rewrite completed_no_newline by done.
  rewrite (scan_state_no_newline false "" seg) by done. simpl.
  destruct b.
  - rewrite (Hb eq_refl). simpl.
    by destruct (in_run_irrelevant v) as [-> ->].
  - by case_bool_decide; simplify_eq.
Qed.

Lemma processData_app u v buffer :
  processData (u +:+ v) buffer =
    ((processData v (processData u buffer).1).1,
     (processData u buffer).2
     ++ (processData v (processData u buffer).1).2).
Proof.
  rewrite !processData_scan. simpl.
  rewrite <- app_string_assoc, scan_state_app, completed_app, flat_map_app.
  destruct (scan_state_invariant false "" (buffer +:+ u)) as [Hseg Hb];
    [done..|].
  destruct (resume_from_buffer _ _ v Hseg Hb) as [-> ->]. done.
Qed.

Lemma processData_no_newline buffer chunk :
  no_newline (processData chunk buffer).1 = true.
Proof.
  rewrite processData_scan. simpl. by apply scan_state_invariant.
Qed.

(** An empty chunk changes nothing. *)
Lemma processData_empty buffer :
  no_newline buffer = true -> processData "" buffer = (buffer, []).
Proof.
  intros Hbuffer. rewrite processData_scan, app_string_nil.
  rewrite (scan_state_no_newline false "" buffer) by done.
  by rewrite completed_no_newline.
Qed.
End framer.

Lemma feed_join (chunks : list string) (buffer : string) :
  no_newline buffer = true ->
  feed chunks buffer = processData (join chunks) buffer.
Proof.
  revert buffer. induction chunks as [|chunk rest IH]; intros buffer Hbuffer.
  - simpl. by rewrite processData_empty.
  - cbn [feed join foldr]. fold (join rest). rewrite processData_app.
    destruct (processData chunk buffer) as [buffer1 ws] eqn:Hchunk.
    assert (Hbuffer1 : no_newline buffer1 = true).
    { pose proof (processData_no_newline buffer chunk) as Hnn.
      by rewrite Hchunk in Hnn. }
    rewrite (IH buffer1 Hbuffer1). cbn [fst snd].
    by destruct (processData (join rest) buffer1).
Qed.

(** The read loop, which skips empty values, delivers what the framer
    delivers. *)
Lemma readLoop_feed (chunks : list string) (buffer : string) :
  no_newline buffer = true -> readLoop chunks buffer = feed chunks buffer.
Proof.
  revert buffer. induction chunks as [|chunk rest IH]; intros buffer Hbuffer;
    [done|]. cbn [readLoop feed].
  case_bool_decide as Hchunk.
  - subst chunk. rewrite processData_empty by done. by rewrite IH.
  - destruct (processData chunk buffer) as [buffer1 ws] eqn:Hdata.
    rewrite IH; [done|].
    pose proof (processData_no_newline buffer chunk) as Hnn.
    by rewrite Hdata in Hnn.
Qed.

(** C6.  From a carry-over buffer without a line break (the empty buffer of
    a new service, and every buffer [processData] leaves), two sequences of
    chunks that spell the same text make the framer emit the same readings
    and leave the same carry-over: both are what the whole text gives in one
    chunk.  An empty chunk is a no-op, and the read loop, which skips empty
    values, emits the same. *)
Theorem processData_chunk_independence
    (buffer : string) (chunks1 chunks2 : list string) :
  no_newline buffer = true ->
  join chunks1 = join chunks2 ->
  feed chunks1 buffer = feed chunks2 buffer /\
  feed chunks1 buffer = processData (join chunks1) buffer /\
  readLoop chunks1 buffer = readLoop chunks2 buffer /\
  processData "" buffer = (buffer, []).
Proof.
  intros Hbuffer Hjoin. split_and!.
  - by rewrite !feed_join, Hjoin.
  - by apply feed_join.
  - by rewrite !readLoop_feed, !feed_join, Hjoin.
  - by apply processData_empty.
Qed.

(** A reading split across three chunks, an empty chunk among them, against
    the same text in one chunk. *)
Lemma processData_chunk_independence_witness :
  feed ["ST,GS,+ 12"; ""; "400 kg" +:+ CR; LF +:+ "ST,GS,+ 0 kg" +:+ LF; "7"] ""
  = feed ["ST,GS,+ 12400 kg" +:+ CR +:+ LF +:+ "ST,GS,+ 0 kg" +:+ LF +:+ "7"] ""
  /\ feed ["ST,GS,+ 12400 kg" +:+ CR +:+ LF +:+ "ST,GS,+ 0 kg" +:+ LF +:+ "7"] ""
     = ("7", [of_Z 12400; of_Z 0]).
Proof.
  split.
  - apply (processData_chunk_independence ""
             ["ST,GS,+ 12"; ""; "400 kg" +:+ CR; LF +:+ "ST,GS,+ 0 kg" +:+ LF; "7"]
             ["ST,GS,+ 12400 kg" +:+ CR +:+ LF +:+ "ST,GS,+ 0 kg" +:+ LF +:+ "7"]);
      reflexivity.
  - by_computation.
Defined.

(** A complete line goes through [emit_line] once its line break arrives. *)
Lemma processData_complete_line (line : string) :
  no_newline line = true ->
  processData (line +:+ LF) "" = ("", emit_line line).
Proof.
  intros Hline.
  rewrite processData_scan, app_nil_string, scan_state_app, completed_app.
  rewrite (scan_state_no_newline false "" line) by done.
  rewrite completed_no_newline by done.
  rewrite app_nil_string. case_bool_decide; simpl; by rewrite app_nil_r.
Qed.

(** ** The camera *)

Section camera.
Implicit Types (st : Console).

Lemma webcamRef_resetConsole (capturedManual : bool) st :
  webcamRef (resetConsole capturedManual st) = webcamRef st.
Proof. by destruct capturedManual. Qed.

Lemma webcamRef_fire_all (due : list Timer) st :
  webcamRef (foldl (fun s t => fire (action t) s) st due) = webcamRef st.
Proof.
  revert st. induction due as [|t due IH]; intros st; simpl; [done|].
  rewrite IH. destruct (action t); simpl; [done|].
  by rewrite webcamRef_resetConsole.
Qed.

Lemma webcamRef_elapse (ms : nat) st :
  webcamRef (elapse ms st) = webcamRef st.
Proof.
  unfold elapse. induction ms as [|ms IH]; simpl; [done|].
  unfold tick. by rewrite webcamRef_fire_all.
Qed.

Lemma webcamRef_clearStabilityTimeout st :
  webcamRef (clearStabilityTimeout st) = webcamRef st.
Proof.
  unfold clearStabilityTimeout. destruct (stabilityTimeoutRef st); [|done].
  by case_bool_decide.
Qed.

Lemma webcamRef_rerun_effect st : webcamRef (rerun_effect st) = webcamRef st.
Proof.
  unfold rerun_effect, stability_effect.
  destruct (useManualWeight (stability_cleanup st)); simpl;
    rewrite ?webcamRef_clearStabilityTimeout; simpl;
    unfold stability_cleanup; destruct (stabilityCleanup st);
    by rewrite ?webcamRef_clearStabilityTimeout.
Qed.

Lemma webcamRef_step st (e : Event) : webcamRef (step st e) = webcamRef st.
Proof.
  destruct e as [w|checked|value|value|value|screenshot|recognition
                |uuid now screenshot|now screenshot| |ms]; simpl.
  - unfold setCurrentWeight. destruct (same w _); [done|].
    by rewrite webcamRef_rerun_effect.
  - unfold setUseManualWeight.
    destruct checked; simpl; case_bool_decide; simpl;
      by rewrite ?webcamRef_rerun_effect.
  - done.
  - done.
  - done.
  - unfold handleCapture. destruct (webcamRef st) eqn:Hcam; simpl; [|done].
    destruct (negb (isStable st) && negb (useManualWeight st)); [done|].
    destruct screenshot as [imageSrc|]; [|done]. by case_bool_decide.
  - unfold handleCapture_resume. destruct (identifying st); [|done]. simpl.
    by destruct (findOpenTicketByPlate _ _).
  - unfold processInbound. destruct (webcamRef st) eqn:Hcam; simpl; [|done].
    by rewrite webcamRef_resetConsole.
  - unfold processOutbound. destruct (matchedTicket st); [|done].
    by destruct (webcamRef st) eqn:Hcam.
  - apply webcamRef_resetConsole.
  - apply webcamRef_elapse.
Qed.

(** The camera view is rendered with the console and stays mounted: the
    guard [if (!webcamRef.current) return] of the handlers never fires in a
    state the console reaches. *)
Lemma reachable_webcam (data : localStorage) st :
  reachable data st -> webcamRef st = true.
Proof.
  induction 1 as [|st e _ IH]; [|by rewrite webcamRef_step].
  unfold mount, stability_effect. simpl. done.
Qed.
(** A run of events leads from a reachable state to a reachable state. *)
Lemma reachable_run (data : localStorage) st (events : list Event) :
  reachable data st -> reachable data (run st events).
Proof.
  unfold run. revert st.
  induction events as [|e events IH]; intros st Hst; simpl; [done|].
  apply IH. by constructor.
Qed.
End camera.

(** ** Closing a ticket *)



(** ** Manual entry *)

Lemma storage_resetConsole (capturedManual : bool) (st : Console) :
  storage (resetConsole capturedManual st) = storage st.
Proof. by destruct capturedManual. Qed.

Lemma storage_processInbound
    (st : Console) (uuid : string) (now : Z) (screenshot : option string) :
  webcamRef st = true ->
  storage (processInbound uuid now screenshot st)
  = saveTicket (newTicket uuid now screenshot st) (storage st).
Proof.
  intros Hcam. unfold processInbound. rewrite Hcam. simpl.
  by rewrite storage_resetConsole.
Qed.

Lemma parseFloat_empty : parseFloat "" = NaN.
Proof. reflexivity. Qed.

Lemma num_or_never_NaN (x : number) : isNaN (num_or x (of_Z 0)) = false.
Proof.
  unfold num_or. destruct x as [q| | |]; simpl; try done.
  by destruct (negb (bool_decide (q = 0%Qc))).
Qed.

(** C10.  In manual-entry mode, when the manual weight string is empty or
    [parseFloat] makes NaN of it, the weight a confirm records is exactly 0,
    a finite number and not NaN: it is the inbound weight of the ticket
    [processInbound] builds and the outbound weight of the ticket
    [processOutbound] builds, and with the camera mounted these are the
    tickets saved to the ledger. *)
Theorem manual_weight_defaults_to_zero
    (st : Console) (uuid : string) (now : Z) (screenshot : option string) :
  useManualWeight st = true ->
  manualWeight st = "" \/ parseFloat (manualWeight st) = NaN ->
  confirmedWeight st = of_Z 0 /\
  isNaN (confirmedWeight st) = false /\
  isFinite (confirmedWeight st) = true /\
  inboundWeight (newTicket uuid now screenshot st) = of_Z 0 /\
  (forall matched,
     outboundWeight (updatedTicket matched now screenshot st)
     = Some (of_Z 0)) /\
  (webcamRef st = true ->
   storage (processInbound uuid now screenshot st)
   = saveTicket (newTicket uuid now screenshot st) (storage st) /\
   forall matched,
     matchedTicket st = Some matched ->
     storage (processOutbound now screenshot st)
     = saveTicket (updatedTicket matched now screenshot st) (storage st)).
Proof.
  intros Hmanual Hstring.
  assert (Hnan : parseFloat (manualWeight st) = NaN).
  { destruct Hstring as [-> | ?]; [apply parseFloat_empty | done]. }
  assert (Hweight : confirmedWeight st = of_Z 0).
  { unfold confirmedWeight. by rewrite Hmanual, Hnan. }
  split_and!.
  - done.
  - by rewrite Hweight.
  - by rewrite Hweight.
  - simpl. by rewrite Hweight.
  - intros matched. simpl. by rewrite Hweight.
  - intros Hcam. split; [by apply storage_processInbound|].
    intros matched Hmatched. unfold processOutbound.
    by rewrite Hmatched, Hcam.
Qed.

(** In manual-entry mode the recorded weight is never NaN. *)
Lemma manual_weight_never_NaN (st : Console) :
  useManualWeight st = true -> isNaN (confirmedWeight st) = false.
Proof.
  intros Hmanual. unfold confirmedWeight. rewrite Hmanual.
  apply num_or_never_NaN.
Qed.

Lemma manual_weight_defaults_to_zero_witness :
  inboundWeight (newTicket "t9" 1700000000000 None console_manual) = of_Z 0.
Proof.
  apply (manual_weight_defaults_to_zero console_manual "t9"
           1700000000000 None); [by vm_compute | left; by vm_compute].
Defined.

(** ** Capturing *)

(** C4.  In every state the console reaches, a capture requested while
    the reading is in MOTION and manual entry is off is rejected with the
    NotStable alert and nothing else happens.  In any state at all with the
    reading in MOTION and manual entry off, [handleCapture] makes no
    transition: with the camera mounted it raises the alert, without it
    the request is ignored, and mode, processing flag, pending
    recognition, draft and ledger stay as they were.  Whenever
    [handleCapture] does anything else, the reading is STABLE or manual
    entry is on. *)
Theorem handleCapture_requires_stable
    (st : Console) (screenshot : option string) :
  let st' := handleCapture screenshot st in
  (forall data,
     reachable data st ->
     isStable st = false -> useManualWeight st = false ->
     st' = alert NotStableError st) /\
  (isStable st = false -> useManualWeight st = false ->
   (webcamRef st = true -> st' = alert NotStableError st) /\
   (st' = st \/ st' = alert NotStableError st) /\
   mode st' = mode st /\
   processing st' = processing st /\
   identifying st' = identifying st /\
   detectedPlate st' = detectedPlate st /\
   matchedTicket st' = matchedTicket st /\
   storage st' = storage st) /\
  (st' <> st -> st' <> alert NotStableError st ->
   isStable st = true \/ useManualWeight st = true).
Proof.
  intros st'. subst st'. unfold handleCapture. split_and!.
  - intros data Hreach -> ->.
    by rewrite (reachable_webcam data st Hreach).
  - intros -> ->. destruct (webcamRef st); simpl.
    + split_and!; auto.
    + split_and!; auto. done.
  - destruct (webcamRef st); simpl; [|done].
    destruct (isStable st); simpl; [by left|].
    destruct (useManualWeight st); simpl; [by right|done].
Qed.

Lemma handleCapture_requires_stable_witness :
  handleCapture (Some "data:image/jpeg;base64,AAAA") console_in_motion
  = alert NotStableError console_in_motion.
Proof.
  apply (handleCapture_requires_stable console_in_motion
           (Some "data:image/jpeg;base64,AAAA"))
    with (data := Some [sample_ticket "t1" "ABC123" OPEN]).
  - apply reachable_run, reachable_mount.
  - reflexivity.
  - reflexivity.
Defined.

(** ** Tickets of the ledger *)

Lemma newTicket_open uuid now screenshot st :
  status (newTicket uuid now screenshot st) = OPEN /\
  no_closing_field (newTicket uuid now screenshot st).
Proof. by repeat split. Qed.

Lemma updatedTicket_closed matched now screenshot st :
  status (updatedTicket matched now screenshot st) = CLOSED /\
  every_closing_field (updatedTicket matched now screenshot st).
Proof. repeat split; by eexists. Qed.

Lemma open_consistent (t : Ticket) :
  status t = OPEN -> no_closing_field t -> ticket_consistent t.
Proof.
  intros Hopen (H1 & H2 & H3 & H4 & H5 & H6).
  unfold ticket_consistent. rewrite Hopen, H1, H2, H3, H4, H5, H6.
  repeat split; try done; by intros [? ?].
Qed.

Lemma closed_consistent (t : Ticket) :
  status t = CLOSED -> every_closing_field t -> ticket_consistent t.
Proof.
  intros Hclosed (H1 & H2 & H3 & H4 & H5 & H6).
  unfold ticket_consistent. rewrite Hclosed. repeat split; done.
Qed.

Lemma elem_of_saveTicket (t u : Ticket) (data : localStorage) :
  t ∈ getTickets (saveTicket u data) -> t = u \/ t ∈ getTickets data.
Proof.
  destruct (first_with_id (id u) (getTickets data))
    as [Hall | (l1 & x & l2 & Hl & Hx & Hall)].
  - rewrite (saveTicket_absent u) by done. simpl.
    rewrite elem_of_app, list_elem_of_singleton. tauto.
  - rewrite (saveTicket_present u x _ l1 l2) by done. simpl.
    rewrite Hl, !elem_of_app, !elem_of_cons. tauto.
Qed.

Section storage_frame.
Implicit Types (st : Console).

Lemma storage_fire a st : storage (fire a st) = storage st.
Proof. destruct a; simpl; [done|]. by rewrite storage_resetConsole. Qed.

Lemma storage_fire_all (due : list Timer) st :
  storage (foldl (fun s t => fire (action t) s) st due) = storage st.
Proof.
  revert st. induction due as [|t due IH]; intros st; simpl; [done|].
  by rewrite IH, storage_fire.
Qed.

Lemma storage_tick st : storage (tick st) = storage st.
Proof. unfold tick. by rewrite storage_fire_all. Qed.

Lemma storage_elapse ms st : storage (elapse ms st) = storage st.
Proof.
  unfold elapse. induction ms as [|ms IH]; simpl; [done|].
  by rewrite storage_tick.
Qed.

Lemma storage_clearStabilityTimeout st :
  storage (clearStabilityTimeout st) = storage st.
Proof.
  unfold clearStabilityTimeout. destruct (stabilityTimeoutRef st); [|done].
  by case_bool_decide.
Qed.

Lemma storage_stability_effect st :
  storage (stability_effect st) = storage st.
Proof.
  unfold stability_effect. destruct (useManualWeight st); [done|]. simpl.
  by rewrite storage_clearStabilityTimeout.
Qed.

Lemma storage_stability_cleanup st :
  storage (stability_cleanup st) = storage st.
Proof.
  unfold stability_cleanup. destruct (stabilityCleanup st); [|done].
  apply storage_clearStabilityTimeout.
Qed.

Lemma storage_rerun_effect st : storage (rerun_effect st) = storage st.
Proof.
  unfold rerun_effect.
  by rewrite storage_stability_effect, storage_stability_cleanup.
Qed.

Lemma storage_handleCapture screenshot st :
  storage (handleCapture screenshot st) = storage st.
Proof.
  unfold handleCapture. destruct (webcamRef st); simpl; [|done].
  destruct (negb (isStable st) && negb (useManualWeight st)); [done|].
  destruct screenshot as [imageSrc|]; [|done]. by case_bool_decide.
Qed.

Lemma storage_handleCapture_resume recognition st :
  storage (handleCapture_resume recognition st) = storage st.
Proof.
  unfold handleCapture_resume. destruct (identifying st); [|done]. simpl.
  by destruct (findOpenTicketByPlate _ _).
Qed.

(** One step of the console leaves the ledger alone or saves one ticket:
    the OPEN ticket of an inbound confirm or the CLOSED ticket of an
    outbound confirm. *)
Lemma storage_step st (e : Event) :
  storage (step st e) = storage st \/
  exists ticket,
    storage (step st e) = saveTicket ticket (storage st) /\
    ((status ticket = OPEN /\ no_closing_field ticket) \/
     (status ticket = CLOSED /\ every_closing_field ticket)).
Proof.
  destruct e as [w|checked|value|value|value|screenshot|recognition
                |uuid now screenshot|now screenshot| |ms]; simpl.
  - left. unfold setCurrentWeight. destruct (same w _); [done|].
    by rewrite storage_rerun_effect.
  - left. unfold setUseManualWeight.
    destruct checked; simpl; case_bool_decide; simpl;
      by rewrite ?storage_rerun_effect.
  - by left.
  - by left.
  - by left.
  - left. apply storage_handleCapture.
  - left. apply storage_handleCapture_resume.
  - destruct (webcamRef st) eqn:Hcam.
    + right. exists (newTicket uuid now screenshot st).
      split; [by apply storage_processInbound|].
      left. apply newTicket_open.
    + left. unfold processInbound. by rewrite Hcam.
  - unfold processOutbound.
    destruct (matchedTicket st) as [matched|]; [|by left].
    destruct (webcamRef st); simpl; [|by left].
    right. exists (updatedTicket matched now screenshot st).
    split; [done|]. right. apply updatedTicket_closed.
  - left. apply storage_resetConsole.
  - left. apply storage_elapse.
Qed.
End storage_frame.


(** ** The stability detector *)

Section stability.
Implicit Types (st : Console) (t : Timer).

Lemma stability_timers_nil st :
  stability_timers st = [] <->
  forall t, t ∈ timers st -> action t <> MarkStable.
Proof.
  unfold stability_timers. split.
  - intros Hnil t Ht Ha.
    by apply (filter_nil_not_elem_of _ _ t Hnil Ha).
  - intros Hall. induction (timers st) as [|t l IH]; [done|].
    rewrite filter_cons_False by (apply Hall; left).
    apply IH. intros t' Ht'. apply Hall. by right.
Qed.

(** *** What timers that fire leave alone *)

Lemma fire_frame a st :
  useManualWeight (fire a st) = useManualWeight st /\
  currentWeight (fire a st) = currentWeight st /\
  stabilityTimeoutRef (fire a st) = stabilityTimeoutRef st /\
  stabilityCleanup (fire a st) = stabilityCleanup st /\
  timers (fire a st) = timers st /\
  nextTimerId (fire a st) = nextTimerId st /\
  (isStable st = true -> isStable (fire a st) = true) /\
  (a = MarkStable -> isStable (fire a st) = true).
Proof. destruct a as [|[]]; simpl; by split_and!. Qed.

Lemma fire_all_frame (due : list Timer) st :
  let st' := foldl (fun s t => fire (action t) s) st due in
  useManualWeight st' = useManualWeight st /\
  currentWeight st' = currentWeight st /\
  stabilityTimeoutRef st' = stabilityTimeoutRef st /\
  stabilityCleanup st' = stabilityCleanup st /\
  timers st' = timers st /\
  nextTimerId st' = nextTimerId st /\
  (isStable st = true -> isStable st' = true) /\
  ((exists t, t ∈ due /\ action t = MarkStable) -> isStable st' = true).
Proof.
  revert st. induction due as [|t due IH]; intros st; simpl.
  - split_and!; try done. by intros (? & ?%elem_of_nil & _).
  - destruct (IH (fire (action t) st))
      as (H1 & H2 & H3 & H4 & H5 & H6 & H7 & H8).
    destruct (fire_frame (action t) st)
      as (F1 & F2 & F3 & F4 & F5 & F6 & F7 & F8).
    split_and!; try congruence.
    + intros Hs. by apply H7, F7.
    + intros (t' & [->|Ht']%elem_of_cons & Ha).
      * by apply H7, F8.
      * apply H8. by exists t'.
Qed.

Lemma tick_frame st :
  useManualWeight (tick st) = useManualWeight st /\
  currentWeight (tick st) = currentWeight st /\
  stabilityTimeoutRef (tick st) = stabilityTimeoutRef st /\
  stabilityCleanup (tick st) = stabilityCleanup st /\
  nextTimerId (tick st) = nextTimerId st /\
  (isStable st = true -> isStable (tick st) = true).
Proof.
  unfold tick.
  match goal with |- context [foldl _ ?s ?due] =>
    destruct (fire_all_frame due s) as (H1 & H2 & H3 & H4 & _ & H6 & H7 & _)
  end.
  by split_and!.
Qed.

Lemma timers_tick st t' :
  t' ∈ timers (tick st) <->
  exists t, t ∈ timers st /\ ~ (remaining t <= 1)%nat /\
            t' = mkTimer (timer_id t) (pred (remaining t)) (action t).
Proof.
  unfold tick.
  match goal with |- context [foldl _ ?s ?due] =>
    destruct (fire_all_frame due s) as (_ & _ & _ & _ & -> & _)
  end.
  simpl. rewrite list_elem_of_fmap. split.
  - intros (t & -> & [? ?]%list_elem_of_filter). by exists t.
  - intros (t & ? & ? & ->). exists t. split; [done|].
    by apply list_elem_of_filter.
Qed.

Lemma tick_fires st t :
  t ∈ timers st -> action t = MarkStable -> (remaining t <= 1)%nat ->
  isStable (tick st) = true.
Proof.
  intros Ht Ha Hdue. unfold tick.
  match goal with |- context [foldl _ ?s ?due] =>
    destruct (fire_all_frame due s) as (_ & _ & _ & _ & _ & _ & _ & H)
  end.
  apply H. exists t. split; [|done]. by apply list_elem_of_filter.
Qed.

Lemma tick_due k st : due_within k st -> due_within (pred k) (tick st).
Proof.
  intros [Hs | (t & Ht & Ha & Hk)].
  - left. by apply tick_frame.
  - destruct (decide (remaining t <= 1)%nat) as [Hdue|Hlater].
    + left. by eapply tick_fires.
    + right. exists (mkTimer (timer_id t) (pred (remaining t)) (action t)).
      split_and!; [|done|simpl; lia].
      apply timers_tick. by exists t.
Qed.

Lemma elapse_due ms k st :
  due_within k st -> due_within (k - ms) (elapse ms st).
Proof.
  unfold elapse. revert k. induction ms as [|ms IH]; intros k Hk; simpl.
  - by replace (k - 0)%nat with k by lia.
  - replace (k - S ms)%nat with (pred (k - ms)) by lia.
    apply tick_due. by apply IH.
Qed.

Lemma elapse_frame ms st :
  useManualWeight (elapse ms st) = useManualWeight st /\
  currentWeight (elapse ms st) = currentWeight st.
Proof.
  unfold elapse. induction ms as [|ms [IH1 IH2]]; simpl; [done|].
  destruct (tick_frame (Nat.iter ms tick st)) as (H1 & H2 & _).
  split; congruence.
Qed.
End stability.

Section effect.
Implicit Types (st : Console) (t : Timer).

Lemma clearStabilityTimeout_frame st :
  isStable (clearStabilityTimeout st) = isStable st /\
  useManualWeight (clearStabilityTimeout st) = useManualWeight st /\
  stabilityTimeoutRef (clearStabilityTimeout st) = stabilityTimeoutRef st /\
  stabilityCleanup (clearStabilityTimeout st) = stabilityCleanup st /\
  nextTimerId (clearStabilityTimeout st) = nextTimerId st /\
  (forall t, t ∈ timers (clearStabilityTimeout st) -> t ∈ timers st).
Proof.
  unfold clearStabilityTimeout.
  destruct (stabilityTimeoutRef st) as [i|] eqn:Href; [|by split_and!].
  case_bool_decide; [by split_and!|]. simpl. split_and!; try done.
  by intros t [_ ?]%list_elem_of_filter.
Qed.

Lemma clearStabilityTimeout_clears st :
  timers_tracked st -> stability_timers (clearStabilityTimeout st) = [].
Proof.
  intros Htracked. apply stability_timers_nil. intros t Ht Ha.
  destruct (clearStabilityTimeout_frame st) as (_ & _ & _ & _ & _ & Hsub).
  destruct (Htracked t (Hsub t Ht) Ha) as (Href & Hid & _).
  revert Ht. unfold clearStabilityTimeout. rewrite Href.
  rewrite bool_decide_eq_false_2 by done. simpl.
  intros [Hne _]%list_elem_of_filter. by apply Hne.
Qed.

Lemma stability_cleanup_spec st :
  timers_tracked st ->
  stabilityCleanup st = true \/ stability_timers st = [] ->
  let st' := stability_cleanup st in
  useManualWeight st' = useManualWeight st /\
  stabilityTimeoutRef st' = stabilityTimeoutRef st /\
  nextTimerId st' = nextTimerId st /\
  stability_timers st' = [] /\
  (forall t, t ∈ timers st' -> t ∈ timers st).
Proof.
  intros Htracked Hcleanup. unfold stability_cleanup.
  destruct (stabilityCleanup st) eqn:Hflag; simpl.
  - destruct (clearStabilityTimeout_frame st)
      as (_ & H2 & H3 & _ & H5 & H6).
    split_and!; try done. by apply clearStabilityTimeout_clears.
  - destruct Hcleanup as [?|Hnil]; [done|]. by split_and!.
Qed.

Lemma stability_effect_manual st :
  useManualWeight st = true -> stability_timers st = [] ->
  let st' := stability_effect st in
  isStable st' = true /\ useManualWeight st' = true /\
  stability_timers st' = [] /\ timers st' = timers st /\
  stabilityTimeoutRef st' = stabilityTimeoutRef st /\
  nextTimerId st' = nextTimerId st.
Proof.
  intros Hmanual Hnil. unfold stability_effect. rewrite Hmanual. simpl.
  by split_and!.
Qed.

Lemma stability_effect_scale st :
  useManualWeight st = false -> stability_timers st = [] ->
  let st' := stability_effect st in
  let armed := mkTimer (nextTimerId st) 800 MarkStable in
  isStable st' = false /\ useManualWeight st' = false /\
  stability_timers st' = [armed] /\
  stabilityTimeoutRef st' = Some (nextTimerId st) /\
  stabilityCleanup st' = true /\
  nextTimerId st' = S (nextTimerId st) /\
  (forall t, t ∈ timers st' ->
             t = armed \/ t ∈ timers st /\ action t <> MarkStable).
Proof.
  intros Hmanual Hnil. unfold stability_effect. rewrite Hmanual.
  set (st1 := set_isStable false st).
  destruct (clearStabilityTimeout_frame st1)
    as (H1 & H2 & H3 & H4 & H5 & H6).
  assert (Hnone : forall t, t ∈ timers (clearStabilityTimeout st1) ->
                            t ∈ timers st /\ action t <> MarkStable).
  { intros t Ht. apply H6 in Ht. split; [done|].
    by apply (proj1 (stability_timers_nil st) Hnil). }
  simpl. rewrite H5. simpl. split_and!; try done.
  - by rewrite H2.
  - unfold stability_timers. simpl. rewrite filter_app.
    rewrite filter_cons_True, filter_nil by done.
    replace (filter _ (timers (clearStabilityTimeout st1)))
      with (@nil Timer); [done|].
    symmetry. apply (stability_timers_nil (clearStabilityTimeout st1)).
    intros t Ht. by apply Hnone.
  - intros t [Ht|Ht%list_elem_of_singleton]%elem_of_app.
    + right. by apply Hnone.
    + by left.
Qed.

(** Running the effect again arms exactly one timer of 800 ms, the
    pending one being cancelled, when the scale is read; it leaves no
    stability timer in manual-entry mode. *)
Lemma rerun_effect_scale st :
  timers_tracked st ->
  stabilityCleanup st = true \/ stability_timers st = [] ->
  useManualWeight st = false ->
  let st' := rerun_effect st in
  let armed := mkTimer (nextTimerId st) 800 MarkStable in
  isStable st' = false /\ useManualWeight st' = false /\
  stability_timers st' = [armed] /\
  stabilityTimeoutRef st' = Some (nextTimerId st) /\
  stabilityCleanup st' = true /\
  nextTimerId st' = S (nextTimerId st) /\
  (forall t, t ∈ timers st' ->
             t = armed \/ t ∈ timers st /\ action t <> MarkStable).
Proof.
  intros Htracked Hcleanup Hmanual. unfold rerun_effect.
  destruct (stability_cleanup_spec st Htracked Hcleanup)
    as (C1 & C2 & C3 & C4 & C5).
  destruct (stability_effect_scale (stability_cleanup st))
    as (E1 & E2 & E3 & E4 & E5 & E6 & E7); [congruence|done|].
  rewrite C3 in *. split_and!; try done.
  intros t Ht. destruct (E7 t Ht) as [->|[? ?]]; [by left|right].
  split; [by apply C5|done].
Qed.

Lemma rerun_effect_manual st :
  timers_tracked st ->
  stabilityCleanup st = true \/ stability_timers st = [] ->
  useManualWeight st = true ->
  let st' := rerun_effect st in
  isStable st' = true /\ useManualWeight st' = true /\
  stability_timers st' = [] /\
  nextTimerId st' = nextTimerId st /\
  (forall t, t ∈ timers st' -> t ∈ timers st).
Proof.
  intros Htracked Hcleanup Hmanual. unfold rerun_effect.
  destruct (stability_cleanup_spec st Htracked Hcleanup)
    as (C1 & C2 & C3 & C4 & C5).
  destruct (stability_effect_manual (stability_cleanup st))
    as (E1 & E2 & E3 & E4 & E5 & E6); [congruence|done|].
  split_and!; try done; [congruence|].
  intros t Ht. apply C5. by rewrite <- E4.
Qed.

Lemma inv_rerun_effect st :
  timers_tracked st ->
  stabilityCleanup st = true \/ stability_timers st = [] ->
  (1 <= nextTimerId st)%nat ->
  console_inv (rerun_effect st).
Proof.
  intros Htracked Hcleanup Hnext.
  destruct (useManualWeight st) eqn:Hmanual.
  - destruct (rerun_effect_manual st Htracked Hcleanup Hmanual)
      as (E1 & E2 & E3 & E4 & E5).
    split.
    + intros t Ht Ha.
      by destruct (proj1 (stability_timers_nil _) E3 t Ht).
    + done.
    + congruence.
    + lia.
  - destruct (rerun_effect_scale st Htracked Hcleanup Hmanual)
      as (E1 & E2 & E3 & E4 & E5 & E6 & E7).
    split.
    + intros t Ht Ha. destruct (E7 t Ht) as [->|[_ ?]]; [|done].
      simpl. split_and!; [done|lia|lia|lia].
    + congruence.
    + intros _. split; [done|]. right. by rewrite E3.
    + lia.
Qed.

Lemma inv_cleanup_ready st :
  console_inv st ->
  stabilityCleanup st = true \/ stability_timers st = [].
Proof.
  intros Hinv. destruct (useManualWeight st) eqn:Hmanual.
  - right. by apply (inv_manual st Hinv).
  - left. by apply (inv_scale st Hinv).
Qed.

Lemma inv_mount (data : localStorage) : console_inv (mount data).
Proof.
  unfold mount.
  match goal with |- console_inv (stability_effect ?s) =>
    destruct (stability_effect_scale s)
      as (E1 & E2 & E3 & E4 & E5 & E6 & E7); [done..|]
  end.
  split.
  - intros t Ht Ha. destruct (E7 t Ht) as [->|[[]%elem_of_nil _]].
    simpl. split_and!; [done|lia|lia|lia].
  - congruence.
  - intros _. split; [done|]. right. by rewrite E3.
  - rewrite E6. lia.
Qed.
End effect.

Section invariant.
Implicit Types (st : Console) (t : Timer).

Lemma stability_timers_pending st :
  stability_timers st <> [] <->
  exists t, t ∈ timers st /\ action t = MarkStable.
Proof.
  split.
  - intros Hne. destruct (stability_timers st) as [|t l] eqn:Hl; [done|].
    assert (Ht : t ∈ stability_timers st) by (rewrite Hl; by left).
    apply list_elem_of_filter in Ht as [? ?]. by exists t.
  - intros (t & Ht & Ha) Hnil.
    by apply (proj1 (stability_timers_nil st) Hnil t).
Qed.

(** The invariant only reads the stability flag, the manual flag, the
    timer reference, the cleanup flag, the timers and the next id. *)
Lemma inv_frame st st' :
  console_inv st ->
  isStable st' = isStable st ->
  useManualWeight st' = useManualWeight st ->
  stabilityTimeoutRef st' = stabilityTimeoutRef st ->
  stabilityCleanup st' = stabilityCleanup st ->
  (nextTimerId st <= nextTimerId st')%nat ->
  (forall t, t ∈ timers st' -> action t = MarkStable -> t ∈ timers st) ->
  (forall t, t ∈ timers st -> t ∈ timers st') ->
  console_inv st'.
Proof.
  intros [I1 I2 I3 I4] Hs Hm Hr Hc Hn Hold Hnew. split.
  - intros t Ht Ha. rewrite Hr. apply I1; [by apply Hold|done].
  - rewrite Hm, Hs. intros [? Hnil]%I2. split; [done|].
    apply stability_timers_nil. intros t Ht Ha.
    exact (proj1 (stability_timers_nil st) Hnil t (Hold t Ht Ha) Ha).
  - rewrite Hm, Hs, Hc. intros [? [?|Hpending]]%I3; split; auto.
    right. apply stability_timers_pending.
    apply stability_timers_pending in Hpending as (t & Ht & Ha).
    exists t. split; [by apply Hnew|done].
  - lia.
Qed.

Lemma inv_tick st : console_inv st -> console_inv (tick st).
Proof.
  intros [I1 I2 I3 I4].
  destruct (tick_frame st) as (Hm & Hw & Hr & Hc & Hn & Hs).
  split.
  - intros t' (t & Ht & Hlater & ->)%timers_tick Ha. simpl in *.
    destruct (I1 t Ht Ha) as (? & ? & ?). rewrite Hr.
    split_and!; [done|done|lia|lia].
  - rewrite Hm. intros [? Hnil]%I2. split; [by apply Hs|].
    apply stability_timers_nil.
    intros t' (t & Ht & Hlater & ->)%timers_tick Ha. simpl in *.
    exact (proj1 (stability_timers_nil st) Hnil t Ht Ha).
  - rewrite Hm, Hc. intros [? Hdue]%I3. split; [done|].
    destruct Hdue as [?|Hpending]; [left; by apply Hs|].
    apply stability_timers_pending in Hpending as (t & Ht & Ha).
    destruct (decide (remaining t <= 1)%nat) as [Hdue|Hlater].
    + left. by eapply tick_fires.
    + right. apply stability_timers_pending.
      exists (mkTimer (timer_id t) (pred (remaining t)) (action t)).
      split; [|done]. apply timers_tick. by exists t.
  - lia.
Qed.

Lemma inv_elapse ms st : console_inv st -> console_inv (elapse ms st).
Proof.
  intros Hinv. unfold elapse. induction ms as [|ms IH]; simpl; [done|].
  by apply inv_tick.
Qed.

(** What a plain event leaves alone. *)
Lemma plain_step st (e : Event) :
  plain e ->
  isStable (step st e) = isStable st /\
  useManualWeight (step st e) = useManualWeight st /\
  currentWeight (step st e) = currentWeight st /\
  stabilityTimeoutRef (step st e) = stabilityTimeoutRef st /\
  stabilityCleanup (step st e) = stabilityCleanup st /\
  (nextTimerId st <= nextTimerId (step st e))%nat /\
  (forall t, t ∈ timers (step st e) -> action t = MarkStable ->
             t ∈ timers st) /\
  (forall t, t ∈ timers st -> t ∈ timers (step st e)).
Proof.
  destruct e as [w|checked|value|value|value|screenshot|recognition
                |uuid now screenshot|now screenshot| |ms];
    intros Hplain; try (destruct Hplain; fail); simpl.
  - by split_and!.
  - by split_and!.
  - by split_and!.
  - unfold handleCapture. destruct (webcamRef st); simpl; [|by split_and!].
    destruct (negb (isStable st) && negb (useManualWeight st));
      [by split_and!|].
    destruct screenshot as [imageSrc|]; [|by split_and!].
    case_bool_decide; by split_and!.
  - unfold handleCapture_resume.
    destruct (identifying st); [|by split_and!]. simpl.
    destruct (findOpenTicketByPlate _ _); by split_and!.
  - unfold processInbound. destruct (webcamRef st); simpl; [|by split_and!].
    destruct (useManualWeight st) eqn:Hmanual; simpl;
      rewrite ?Hmanual; by split_and!.
  - unfold processOutbound.
    destruct (matchedTicket st) as [matched|]; [|by split_and!].
    destruct (webcamRef st); simpl; [|by split_and!].
    split_and!; try done.
    + lia.
    + intros t [?|Ht%list_elem_of_singleton]%elem_of_app Ha; [done|].
      subst t. discriminate.
    + intros t Ht. apply elem_of_app. by left.
  - destruct (useManualWeight st) eqn:Hmanual; simpl;
      rewrite ?Hmanual; by split_and!.
Qed.

Lemma inv_step st (e : Event) : console_inv st -> console_inv (step st e).
Proof.
  intros Hinv.
  destruct e as [w|checked|value|value|value|screenshot|recognition
                |uuid now screenshot|now screenshot| |ms].
  - simpl. unfold setCurrentWeight. destruct (same w _); [done|].
    apply inv_rerun_effect;
      [exact (inv_timer st Hinv) | exact (inv_cleanup_ready st Hinv)
      |exact (inv_next st Hinv)].
  - simpl.
    assert (Hset : console_inv (setUseManualWeight checked st)).
    { unfold setUseManualWeight. case_bool_decide; [done|].
      apply inv_rerun_effect;
        [exact (inv_timer st Hinv) | exact (inv_cleanup_ready st Hinv)
        |exact (inv_next st Hinv)]. }
    destruct checked; [|done].
    by apply (inv_frame (setUseManualWeight true st)).
  - destruct (plain_step st (TypeManualWeight value) I)
      as (? & ? & _ & ? & ? & ? & ? & ?). by eapply inv_frame.
  - destruct (plain_step st (EditPlate value) I)
      as (? & ? & _ & ? & ? & ? & ? & ?). by eapply inv_frame.
  - destruct (plain_step st (SelectMaterial value) I)
      as (? & ? & _ & ? & ? & ? & ? & ?). by eapply inv_frame.
  - destruct (plain_step st (Capture screenshot) I)
      as (? & ? & _ & ? & ? & ? & ? & ?). by eapply inv_frame.
  - destruct (plain_step st (Identified recognition) I)
      as (? & ? & _ & ? & ? & ? & ? & ?). by eapply inv_frame.
  - destruct (plain_step st (ConfirmInbound uuid now screenshot) I)
      as (? & ? & _ & ? & ? & ? & ? & ?). by eapply inv_frame.
  - destruct (plain_step st (ConfirmOutbound now screenshot) I)
      as (? & ? & _ & ? & ? & ? & ? & ?). by eapply inv_frame.
  - destruct (plain_step st Cancel I)
      as (? & ? & _ & ? & ? & ? & ? & ?). by eapply inv_frame.
  - simpl. by apply inv_elapse.
Qed.

Lemma reachable_inv (data : localStorage) st :
  reachable data st -> console_inv st.
Proof.
  induction 1 as [|st e _ IH]; [apply inv_mount|by apply inv_step].
Qed.

(** Quiet events keep the reading and the manual flag, and bring the
    stability deadline closer by the time they take. *)
Lemma quiet_step st (e : Event) (k : nat) :
  useManualWeight st = false ->
  quiet (currentWeight st) e ->
  due_within k st ->
  useManualWeight (step st e) = false /\
  currentWeight (step st e) = currentWeight st /\
  due_within (k - elapsed [e]) (step st e).
Proof.
  intros Hmanual Hquiet Hdue.
  destruct e as [w|checked|value|value|value|screenshot|recognition
                |uuid now screenshot|now screenshot| |ms];
    try done;
    try (match goal with |- context [step st ?e] =>
           destruct (plain_step st e I)
             as (Hs & Hm & Hw & _ & _ & _ & _ & Hnew)
         end;
         simpl elapsed; replace (k - 0)%nat with k by lia;
         split_and!; [congruence|done|];
         destruct Hdue as [?|(t & Ht & Ha & Hk)];
         [left; congruence | right; exists t; by split_and!; auto]).
  - simpl in *. unfold setCurrentWeight. rewrite Hquiet.
    by replace (k - 0)%nat with k by lia.
  - simpl step. simpl elapsed. replace (ms + 0)%nat with ms by lia.
    destruct (elapse_frame ms st) as [Hm Hw].
    split_and!; [congruence|done|]. by apply elapse_due.
Qed.

Lemma quiet_run st (events : list Event) (k : nat) :
  useManualWeight st = false ->
  Forall (quiet (currentWeight st)) events ->
  due_within k st ->
  due_within (k - elapsed events) (run st events).
Proof.
  unfold run. revert st k.
  induction events as [|e events IH]; intros st k Hmanual Hquiet Hdue.
  - simpl. by replace (k - 0)%nat with k by lia.
  - apply Forall_cons in Hquiet as [He Hevents].
    destruct (quiet_step st e k Hmanual He Hdue) as (Hm & Hw & Hk).
    simpl foldl.
    replace (k - elapsed (e :: events))%nat
      with (k - elapsed [e] - elapsed events)%nat.
    + apply IH; [done| |done]. by rewrite Hw.
    + destruct e; simpl; lia.
Qed.

Lemma inv_due_within st :
  console_inv st -> useManualWeight st = false -> due_within 800 st.
Proof.
  intros Hinv Hmanual.
  destruct (inv_scale st Hinv Hmanual) as [_ [?|Hpending]]; [by left|].
  apply stability_timers_pending in Hpending as (t & Ht & Ha).
  right. exists t. split_and!; [done..|].
  by apply (inv_timer st Hinv t Ht Ha).
Qed.

Lemma inv_due_now st :
  console_inv st -> due_within 0 st -> isStable st = true.
Proof.
  intros Hinv [?|(t & Ht & Ha & Hk)]; [done|].
  destruct (inv_timer st Hinv t Ht Ha) as (_ & _ & ?). lia.
Qed.
End invariant.

(** C9.  In every state the console reaches after mounting:
    - with manual entry off, a weight that differs from the current reading
      sets the state to MOTION at once and leaves exactly one stability
      timer pending, a new one of 800 ms (any timer pending before is
      cancelled);
    - with manual entry off, once 800 ms have passed during which the
      reading did not change, the state is STABLE;
    - with manual entry on, the state is STABLE and no stability timer is
      pending. *)
Theorem stability_detector (data : localStorage) (st : Console) :
  reachable data st ->
  (forall w,
     useManualWeight st = false ->
     same w (currentWeight st) = false ->
     let st' := step st (WeightUpdate w) in
     isStable st' = false /\
     stability_timers st' = [mkTimer (nextTimerId st) 800 MarkStable] /\
     stabilityTimeoutRef st' = Some (nextTimerId st)) /\
  (forall events,
     useManualWeight st = false ->
     Forall (quiet (currentWeight st)) events ->
     (800 <= elapsed events)%nat ->
     isStable (run st events) = true) /\
  (useManualWeight st = true ->
   isStable st = true /\ stability_timers st = []).
Proof.
  intros Hreach. pose proof (reachable_inv data st Hreach) as Hinv.
  split_and!.
  - intros w Hmanual Hdiffers st'. subst st'. simpl.
    unfold setCurrentWeight. rewrite Hdiffers.
    destruct (rerun_effect_scale (set_currentWeight w st))
      as (E1 & _ & E3 & E4 & _);
      [exact (inv_timer st Hinv) | exact (inv_cleanup_ready st Hinv)
      |exact Hmanual|].
    by split_and!.
  - intros events Hmanual Hquiet Hlong.
    apply inv_due_now.
    + eapply reachable_inv. by apply reachable_run.
    + replace 0%nat with (800 - elapsed events)%nat by lia.
      apply quiet_run; [done..|]. by apply inv_due_within.
  - intros Hmanual. by apply (inv_manual st Hinv).
Qed.

Lemma stability_detector_witness :
  isStable (run (mount None)
              [Elapse 300; Capture (Some "data:image/jpeg;base64,AAAA");
               WeightUpdate (of_Z 0); Elapse 500]) = true.
Proof.
  apply (stability_detector None (mount None)).
  - apply reachable_mount.
  - reflexivity.
  - repeat constructor.
  - simpl. lia.
Defined.

(** The reading 20000 arrives 300 ms after mounting: MOTION until 800 ms
    have passed without another change, STABLE from then on; switching to
    manual entry in between makes the state STABLE at once. *)
Example motion_then_stable :
  isStable (run (mount None) [Elapse 300; WeightUpdate (of_Z 20000);
                              Elapse 799]) = false /\
  isStable (run (mount None) [Elapse 300; WeightUpdate (of_Z 20000);
                              Elapse 800]) = true /\
  isStable (run (mount None) [Elapse 300; WeightUpdate (of_Z 20000);
                              Elapse 400; WeightUpdate (of_Z 20010);
                              Elapse 799]) = false /\
  isStable (run (mount None) [Elapse 300; WeightUpdate (of_Z 20000);
                              ToggleManual true]) = true /\
  timers (run (mount None) [Elapse 300; WeightUpdate (of_Z 20000);
                            ToggleManual true]) = [].
Proof. split_and!; by vm_compute. Qed.

Example scenario_ledger :
  storage (run (mount None) scenario) = Some [closed_ticket] /\
  mode (run (mount None) scenario) = IDLE /\
  outputs (run (mount None) scenario) = [TicketComplete; PrintPage; TicketComplete].
Proof. split_and!; by_computation. Qed.


(** * Further properties of the ledger *)

(** Last write wins: saving two tickets under one id leaves what saving the
    second alone leaves. *)
Lemma saveTicket_overwrite (t t' : Ticket) (data : localStorage) :
  id t' = id t -> saveTicket t' (saveTicket t data) = saveTicket t' data.
Proof.
  intros Hid.
  destruct (first_with_id (id t) (getTickets data))
    as [Hall | (l1 & x & l2 & Hl & Hx & Hall)].
  - rewrite (saveTicket_absent t) by done.
    rewrite (saveTicket_present t' t _ (getTickets data) []);
      [|done|done|by rewrite Hid].
    rewrite (saveTicket_absent t'); [done|by rewrite Hid].
  - rewrite (saveTicket_present t x _ l1 l2) by done.
    rewrite (saveTicket_present t' t _ l1 l2); [|done|done|by rewrite Hid].
    rewrite (saveTicket_present t' x _ l1 l2); [done|done|congruence|].
    by rewrite Hid.
Qed.

Lemma saveTicket_cases (t : Ticket) (data : localStorage) :
  (Forall (fun x => id x <> id t) (getTickets data) /\
   getTickets (saveTicket t data) = getTickets data ++ [t]) \/
  (exists l1 x l2,
     getTickets data = l1 ++ x :: l2 /\ id x = id t /\
     Forall (fun y => id y <> id t) l1 /\
     getTickets (saveTicket t data) = l1 ++ t :: l2).
Proof.
  destruct (first_with_id (id t) (getTickets data))
    as [Hall | (l1 & x & l2 & Hl & Hx & Hall)].
  - left. by rewrite (saveTicket_absent t).
  - right. exists l1, x, l2. by rewrite (saveTicket_present t x _ l1 l2).
Qed.

(** X1.  What [saveTicket] stores can be read back, and nothing else is
    lost: the saved ticket is in the ledger, every id stored before is
    still stored, the records with other ids are unchanged and in their
    order, and the ledger grows by one record exactly when the id was not
    stored, keeping its length otherwise. *)
Theorem saveTicket_read_back (t : Ticket) (data : localStorage) :
  let before := getTickets data in
  let after := getTickets (saveTicket t data) in
  t ∈ after /\
  (forall i, i ∈ id <$> before -> i ∈ id <$> after) /\
  records_without_id (id t) after = records_without_id (id t) before /\
  length after
  = (if bool_decide (id t ∈ id <$> before) then length before
     else S (length before)).
Proof.
  intros before after. subst before after.
  destruct (saveTicket_cases t data)
    as [[Hall ->] | (l1 & x & l2 & Hl & Hx & Hall & ->)].
  - split_and!.
    + apply elem_of_app. right. by left.
    + intros i Hi. rewrite fmap_app. apply elem_of_app. by left.
    + unfold records_without_id. rewrite filter_app.
      rewrite filter_cons_False by (intros Hn; by apply Hn).
      by rewrite filter_nil, app_nil_r.
    + rewrite bool_decide_eq_false_2.
      * rewrite length_app. simpl. lia.
      * intros (y & Hy & Hin)%list_elem_of_fmap.
        by apply (proj1 (Forall_forall _ _) Hall y Hin).
  - rewrite Hl. split_and!.
    + apply elem_of_app. right. by left.
    + intros i. rewrite !fmap_app, !fmap_cons, !elem_of_app, !elem_of_cons.
      rewrite Hx. tauto.
    + unfold records_without_id. rewrite !filter_app.
      rewrite !filter_cons_False; [done|by intros Hn|by intros Hn].
    + rewrite bool_decide_eq_true_2.
      * rewrite !length_app. simpl. lia.
      * rewrite fmap_app, fmap_cons, elem_of_app, elem_of_cons. auto.
Qed.

(** X2.  [saveTicket] keeps the ids of the ledger pairwise distinct, and in
    such a ledger the saved ticket is the only record with its id. *)
Theorem saveTicket_keeps_ids_distinct (t : Ticket) (data : localStorage) :
  NoDup (id <$> getTickets data) ->
  NoDup (id <$> getTickets (saveTicket t data)) /\
  records_with_id (id t) (getTickets (saveTicket t data)) = [t].
Proof.
  intros Hnd. split; [by apply saveTicket_distinct_ids|].
  destruct (saveTicket_cases t data)
    as [[Hall ->] | (l1 & x & l2 & Hl & Hx & Hall & ->)].
  - pose proof (records_with_id_none _ _ Hall) as Hnone.
    unfold records_with_id in *.
    rewrite filter_app, filter_cons_True, filter_nil by done.
    by rewrite Hnone.
  - pose proof (records_with_id_none _ _ Hall) as Hnone.
    pose proof (distinct_ids_at_most_one (id t) _ Hnd) as Hone.
    rewrite Hl in Hone. unfold records_with_id in *.
    rewrite filter_app, filter_cons_True in Hone by done.
    rewrite filter_app, filter_cons_True by done.
    rewrite Hnone in *. simpl in *.
    destruct (filter _ l2); [done | simpl in Hone; lia].
Qed.

Lemma saveTicket_keeps_ids_distinct_witness :
  NoDup (id <$> getTickets
           (saveTicket (sample_ticket "t1" "XYZ789" CLOSED)
              (Some [sample_ticket "t0" "ABC123" OPEN;
                     sample_ticket "t1" "XYZ789" OPEN]))).
Proof.
  apply (saveTicket_keeps_ids_distinct (sample_ticket "t1" "XYZ789" CLOSED)
           (Some [sample_ticket "t0" "ABC123" OPEN;
                  sample_ticket "t1" "XYZ789" OPEN])).
  simpl. apply (bool_decide_unpack _). by vm_compute.
Defined.

(** X3.  Last write wins, for every stored collection: saving a ticket and
    then another with the same id leaves the ledger that saving the second
    alone leaves; in particular saving a ticket twice is saving it once. *)
Theorem saveTicket_last_write_wins (t t' : Ticket) (data : localStorage) :
  id t' = id t ->
  saveTicket t' (saveTicket t data) = saveTicket t' data /\
  saveTicket t (saveTicket t data) = saveTicket t data.
Proof.
  intros Hid. split; by apply saveTicket_overwrite.
Qed.

Lemma saveTicket_last_write_wins_witness :
  saveTicket (sample_ticket "t1" "ABC123" CLOSED)
    (saveTicket (sample_ticket "t1" "ABC123" OPEN)
       (Some [sample_ticket "t0" "XYZ789" OPEN]))
  = saveTicket (sample_ticket "t1" "ABC123" CLOSED)
      (Some [sample_ticket "t0" "XYZ789" OPEN]).
Proof.
  apply (saveTicket_last_write_wins (sample_ticket "t1" "ABC123" OPEN)
           (sample_ticket "t1" "ABC123" CLOSED)
           (Some [sample_ticket "t0" "XYZ789" OPEN])).
  reflexivity.
Defined.

Lemma findOpenTicketByPlate_None (plate : string) (data : localStorage) :
  plate <> "UNKNOWN" ->
  findOpenTicketByPlate plate data = None <->
  Forall (fun t => ~ (status t = OPEN /\ licensePlate t = plate))
         (getTickets data).
Proof.
  intros Hne. unfold findOpenTicketByPlate.
  rewrite bool_decide_eq_false_2 by done. apply find_None.
Qed.

Lemma findOpenTicketByPlate_Some (plate : string) (data : localStorage)
    (t : Ticket) :
  findOpenTicketByPlate plate data = Some t <->
  plate <> "UNKNOWN" /\
  exists l1 l2, getTickets data = l1 ++ t :: l2 /\
    (status t = OPEN /\ licensePlate t = plate) /\
    Forall (fun u => ~ (status u = OPEN /\ licensePlate u = plate)) l1.
Proof.
  unfold findOpenTicketByPlate. case_bool_decide as Hp.
  - split; [done|]. by intros [? _].
  - rewrite find_Some. split.
    + intros [i (l1 & l2 & ? & ? & ? & ?)%list_find_split].
      split; [done|]. by exists l1, l2.
    + intros (_ & l1 & l2 & ? & ? & ?). exists (length l1).
      apply list_find_split. by exists l1, l2.
Qed.

(** X4.  A ticket weighed in is found at the next look-up: when no OPEN
    ticket carries the plate, saving an OPEN ticket with that plate (not
    the sentinel) makes [findOpenTicketByPlate] return exactly that ticket,
    also when its id replaces a stored record. *)
Theorem saveTicket_then_find (t : Ticket) (data : localStorage) :
  status t = OPEN ->
  licensePlate t <> "UNKNOWN" ->
  findOpenTicketByPlate (licensePlate t) data = None ->
  findOpenTicketByPlate (licensePlate t) (saveTicket t data) = Some t.
Proof.
  intros Hopen Hplate Hnone.
  apply findOpenTicketByPlate_None in Hnone; [|done].
  apply findOpenTicketByPlate_Some. split; [done|].
  destruct (saveTicket_cases t data)
    as [[Hall ->] | (l1 & x & l2 & Hl & Hx & Hall & ->)].
  - by exists (getTickets data), [].
  - exists l1, l2. split_and!; try done.
    rewrite Hl in Hnone. by apply Forall_app in Hnone as [? _].
Qed.

Lemma saveTicket_then_find_witness :
  findOpenTicketByPlate "ABC123"
    (saveTicket (sample_ticket "t1" "ABC123" OPEN)
       (Some [sample_ticket "t0" "ABC123" CLOSED]))
  = Some (sample_ticket "t1" "ABC123" OPEN).
Proof.
  apply (saveTicket_then_find (sample_ticket "t1" "ABC123" OPEN)
           (Some [sample_ticket "t0" "ABC123" CLOSED]));
    [reflexivity | discriminate | reflexivity].
Defined.

Lemma distinct_ids_same_record (l : list Ticket) (x y : Ticket) :
  NoDup (id <$> l) -> x ∈ l -> y ∈ l -> id x = id y -> x = y.
Proof.
  induction l as [|z l IH]; simpl; [by intros _ ?%elem_of_nil|].
  intros [Hz Hl]%NoDup_cons [->|Hx]%elem_of_cons [->|Hy]%elem_of_cons Hid.
  - done.
  - destruct Hz. rewrite Hid. by apply list_elem_of_fmap_2.
  - destruct Hz. rewrite <- Hid. by apply list_elem_of_fmap_2.
  - by apply IH.
Qed.

(** X5.  A closed ticket is not matched again: in a ledger with pairwise
    distinct ids, when [findOpenTicketByPlate] returns [m] and [m] is the
    only OPEN ticket with the plate, saving a CLOSED ticket under the id of
    [m] makes the look-up by that plate return nothing. *)
Theorem saveTicket_closed_then_find
    (plate : string) (m u : Ticket) (data : localStorage) :
  NoDup (id <$> getTickets data) ->
  findOpenTicketByPlate plate data = Some m ->
  (forall x, x ∈ getTickets data ->
             status x = OPEN -> licensePlate x = plate -> x = m) ->
  id u = id m -> status u = CLOSED ->
  findOpenTicketByPlate plate (saveTicket u data) = None.
Proof.
  intros Hnd Hfind Honly Hid Hclosed.
  apply findOpenTicketByPlate_Some in Hfind
    as (Hplate & k1 & k2 & Hk & [Hopen Hp] & _).
  assert (Hm : m ∈ getTickets data).
  { rewrite Hk. apply elem_of_app. right. by left. }
  apply findOpenTicketByPlate_None; [done|].
  destruct (saveTicket_cases u data)
    as [[Hall _] | (l1 & x & l2 & Hl & Hx & Hall & ->)].
  - exfalso. by apply (proj1 (Forall_forall _ _) Hall m Hm).
  - assert (Hxm : x = m).
    { apply (distinct_ids_same_record (getTickets data)); try done.
      - rewrite Hl. apply elem_of_app. right. by left.
      - congruence. }
    subst x. rewrite Hl in Hnd.
    rewrite fmap_app, fmap_cons in Hnd.
    apply NoDup_app in Hnd as (_ & Hl1 & [Hl2 _]%NoDup_cons).
    apply Forall_app. split; [|apply Forall_cons; split].
    + apply Forall_forall. intros y Hy [Hyo Hyp].
      assert (y = m) as ->.
      { apply Honly; [|done..]. rewrite Hl. apply elem_of_app. by left. }
      apply (Hl1 (id m)); [by apply list_elem_of_fmap_2|by left].
    + intros [? _]. congruence.
    + apply Forall_forall. intros y Hy [Hyo Hyp].
      assert (y = m) as ->.
      { apply Honly; [|done..]. rewrite Hl. apply elem_of_app. right.
        by right. }
      apply Hl2. by apply list_elem_of_fmap_2.
Qed.

Lemma saveTicket_closed_then_find_witness :
  findOpenTicketByPlate "ABC123"
    (saveTicket (sample_ticket "t1" "ABC123" CLOSED)
       (Some [sample_ticket "t0" "XYZ789" OPEN;
              sample_ticket "t1" "ABC123" OPEN]))
  = None.
Proof.
  apply (saveTicket_closed_then_find "ABC123"
           (sample_ticket "t1" "ABC123" OPEN)
           (sample_ticket "t1" "ABC123" CLOSED)
           (Some [sample_ticket "t0" "XYZ789" OPEN;
                  sample_ticket "t1" "ABC123" OPEN])).
  - simpl. apply (bool_decide_unpack _). by vm_compute.
  - reflexivity.
  - intros x [->|[->|[]%elem_of_nil]%elem_of_cons]%elem_of_cons Ho Hp;
      [discriminate Hp | reflexivity].
  - reflexivity.
  - reflexivity.
Defined.

(** * Further properties of the stream framer *)

Lemma digits_value_from_nonneg (s : string) (acc : Z) :
  all_chars is_digit s = true -> 0 <= acc -> 0 <= digits_value_from acc s.
Proof.
  revert acc. induction s as [|c r IH]; intros acc; simpl; [done|].
  intros [Hc Hr]%andb_true_iff Hacc. apply IH; [done|].
  unfold is_digit in Hc. apply andb_true_iff in Hc as [Hlo _].
  apply N.leb_le in Hlo. unfold digit_value. lia.
Qed.

Lemma all_chars_app (p : ascii -> bool) (s1 s2 : string) :
  all_chars p (s1 +:+ s2) = all_chars p s1 && all_chars p s2.
Proof.
  induction s1 as [|c r IH]; [done|].
  change (String c r +:+ s2) with (String c (r +:+ s2)). simpl.
  by rewrite IH, andb_assoc.
Qed.

Lemma decimal_value_nonneg (ds fs : string) :
  all_chars is_digit ds = true -> all_chars is_digit fs = true ->
  (0 <= decimal_value ds fs)%Qc.
Proof.
  intros Hds Hfs. unfold decimal_value, Qcle. cbn [this Q2Qc].
  change (Qred 0) with 0%Q. rewrite Qred_correct. unfold Qdiv.
  apply Qmult_le_0_compat.
  - change 0%Q with (inject_Z 0). rewrite <- Zle_Qle.
    apply digits_value_from_nonneg; [|done].
    by rewrite all_chars_app, Hds, Hfs.
  - apply Qinv_le_0_compat.
    change 0%Q with (inject_Z 0). rewrite <- Zle_Qle. lia.
Qed.

Lemma parseWeight_None (line : string) :
  parseWeight line = None <-> no_digit line = true.
Proof.
  split.
  - intros Hnone. destruct (no_digit line) eqn:Hd; [done|].
    destruct (first_numeric_exists line Hd) as (m & ds & fs & Hfirst).
    unfold parseWeight in Hnone.
    rewrite (regex_match_first_numeric _ _ _ _ Hfirst) in Hnone.
    destruct Hfirst.
    + by rewrite parseFloat_integer in Hnone.
    + by rewrite parseFloat_decimal in Hnone.
  - intros Hd. unfold parseWeight. by rewrite regex_match_no_digit.
Qed.



(** X7.  The carry-over of the framer: [processData] leaves in the buffer
    the text after the last line break it has seen, never a line break;
    text without a line break is only added to the buffer and emits
    nothing, however long it gets. *)
Theorem processData_carry_over (chunk buffer : string) :
  no_newline (processData chunk buffer).1 = true /\
  (no_newline buffer = true -> no_newline chunk = true ->
   processData chunk buffer = (buffer +:+ chunk, [])) /\
  (forall u c v,
     chunk = u +:+ String c v -> is_newline c = true ->
     no_newline v = true ->
     (processData chunk buffer).1 = v).
Proof.
  split_and!.
  - apply processData_no_newline.
  - intros Hbuffer Hchunk. rewrite processData_scan.
    rewrite (scan_state_no_newline false "" (buffer +:+ chunk))
      by by rewrite no_newline_app, Hbuffer, Hchunk.
    rewrite completed_no_newline
      by by rewrite no_newline_app, Hbuffer, Hchunk.
    by rewrite app_nil_string.
  - intros u c v -> Hc Hv. rewrite processData_scan.
    rewrite <- app_string_assoc, scan_state_app. simpl.
    rewrite Hc. rewrite (scan_state_no_newline true "" v) by done.
    by rewrite app_nil_string.
Qed.

Lemma processData_carry_over_witness :
  processData "400 k" "ST,GS,+ 12" = ("ST,GS,+ 12400 k", []) /\
  (processData ("g" +:+ String "010" "ST,") "ST,GS,+ 12400 k").1 = "ST,".
Proof.
  split.
  - apply (processData_carry_over "400 k" "ST,GS,+ 12"); reflexivity.
  - apply (processData_carry_over ("g" +:+ String "010" "ST,")
             "ST,GS,+ 12400 k") with (u := "g") (c := "010"%char);
      reflexivity.
Defined.

(** * Plate recognition *)

Section plates.
Implicit Types (s r : string) (c : ascii).

Lemma plate_char_alphanumeric c :
  is_plate_char c = true -> is_alphanumeric c = true.
Proof.
  unfold is_plate_char, is_alphanumeric. cbv zeta. intros ->. done.
Qed.

Lemma plate_char_upper_case c : is_plate_char c = true -> upper_case c = c.
Proof.
  unfold is_plate_char, upper_case. cbv zeta.
  rewrite orb_true_iff, !andb_true_iff, !N.leb_le. intros H.
  destruct ((97 <=? N_of_ascii c)%N) eqn:Hlo; [|done].
  destruct ((N_of_ascii c <=? 122)%N) eqn:Hhi; [|done].
  apply N.leb_le in Hlo. lia.
Qed.

Lemma upper_case_plate_char c :
  is_alphanumeric c = true -> is_plate_char (upper_case c) = true.
Proof.
  unfold is_alphanumeric, is_plate_char, upper_case. cbv zeta. intros H.
  destruct ((97 <=? N_of_ascii c) && (N_of_ascii c <=? 122))%N eqn:Hlower.
  - apply andb_true_iff in Hlower as [Hlo Hhi].
    apply N.leb_le in Hlo, Hhi.
    rewrite N_ascii_embedding by lia.
    apply orb_true_iff. right. apply andb_true_iff.
    split; apply N.leb_le; lia.
  - by rewrite orb_false_r in H.
Qed.

Lemma normalizedPlate_plate_chars s :
  all_chars is_plate_char (normalizedPlate s) = true.
Proof.
  unfold normalizedPlate. induction s as [|c r IH]; simpl; [done|].
  destruct (is_alphanumeric c) eqn:Hc; [|done]. simpl.
  by rewrite upper_case_plate_char, IH.
Qed.

Lemma normalizedPlate_fixed s :
  all_chars is_plate_char s = true -> normalizedPlate s = s.
Proof.
  unfold normalizedPlate. induction s as [|c r IH]; simpl; [done|].
  intros [Hc Hr]%andb_true_iff.
  rewrite (plate_char_alphanumeric c Hc). simpl.
  by rewrite (plate_char_upper_case c Hc), IH.
Qed.

Lemma reported_plate_plate_chars s :
  reported_plate s <> "" /\ all_chars is_plate_char (reported_plate s) = true.
Proof.
  unfold reported_plate. case_bool_decide as Hempty; [done|].
  split; [done|apply normalizedPlate_plate_chars].
Qed.
End plates.

Lemma identifyTruck_plate_chars
    (generateContent : string -> promise (option string))
    (JSON_parse : string -> option Data) (base64Image : string) :
  let result := identifyTruck generateContent JSON_parse base64Image in
  rr_licensePlate result <> "" /\
  all_chars is_plate_char (rr_licensePlate result) = true.
Proof.
  unfold identifyTruck.
  destruct (generateContent (cleanBase64 base64Image)) as [[text|]|error];
    [|done..].
  case_bool_decide as Htext; [done|].
  destruct (JSON_parse text) as [[[licensePlate|] confidence]|]; [|done..].
  apply (reported_plate_plate_chars licensePlate).
Qed.

(** X8.  The plate [identifyTruck] resolves to is never empty and holds
    only the letters A-Z and digits, whatever the recognition service
    answers; when the service rejects, gives no text, gives text that does
    not parse or that lacks the plate, the result is the plate "UNKNOWN"
    with confidence 0; a plate text without letter or digit gives "UNKNOWN"
    with the confidence of the answer. *)
Theorem identifyTruck_plate
    (generateContent : string -> promise (option string))
    (JSON_parse : string -> option Data) (base64Image : string) :
  let result := identifyTruck generateContent JSON_parse base64Image in
  let response := generateContent (cleanBase64 base64Image) in
  rr_licensePlate result <> "" /\
  all_chars is_plate_char (rr_licensePlate result) = true /\
  ((forall text, response = Resolved (Some text) ->
      text = "" \/ JSON_parse text = None \/
      exists data, JSON_parse text = Some data /\
                   data_licensePlate data = None) ->
   result = unknown) /\
  (forall text licensePlate confidence,
     response = Resolved (Some text) ->
     answers licensePlate confidence text JSON_parse ->
     result = {| rr_licensePlate := reported_plate licensePlate;
                 rr_confidence := confidence |}).
Proof.
  intros result response. subst result response. unfold identifyTruck.
  destruct (generateContent (cleanBase64 base64Image)) as [[text|]|error].
  - case_bool_decide as Htext.
    { split_and!; try done. by intros ? ? ? [= <-] [? _]. }
    destruct (JSON_parse text) as [[[licensePlate|] confidence]|] eqn:Hparse;
      simpl.
    + split_and!.
      * apply (reported_plate_plate_chars licensePlate).
      * apply (reported_plate_plate_chars licensePlate).
      * intros Hfail.
        destruct (Hfail text eq_refl) as [?|[?|(data & Hdata & Hnone)]].
        -- done.
        -- congruence.
        -- rewrite Hparse in Hdata. injection Hdata as Hdata. by subst data.
      * intros ? ? ? [= <-] [_ Hans]. rewrite Hparse in Hans.
        by injection Hans as <- <-.
    + split_and!; try done. intros ? ? ? [= <-] [_ Hans]. congruence.
    + split_and!; try done. intros ? ? ? [= <-] [_ Hans]. congruence.
  - split_and!; try done.
  - split_and!; try done.
Qed.

Lemma identifyTruck_plate_witness :
  identifyTruck (fun _ => Resolved (Some "{...}"))
    (fun _ => Some (mkData (Some "abc-123 x") (Num (Q2Qc (9 # 10)))))
    "data:image/jpeg;base64,AAAA"
  = {| rr_licensePlate := "ABC123X"; rr_confidence := Num (Q2Qc (9 # 10)) |}.
Proof.
  destruct (identifyTruck_plate (fun _ => Resolved (Some "{...}"))
              (fun _ => Some (mkData (Some "abc-123 x") (Num (Q2Qc (9 # 10)))))
              "data:image/jpeg;base64,AAAA") as (_ & _ & _ & Hanswer).
  apply (Hanswer "{...}" "abc-123 x" (Num (Q2Qc (9 # 10)))).
  - reflexivity.
  - split; [discriminate | reflexivity].
Defined.

(** X9.  Normalising a plate is idempotent: the plate [identifyTruck]
    reports for a text is the plate it reports for that plate, so a plate
    read with spaces, hyphens or small letters and the same plate read
    clean are reported alike; "UNKNOWN" is reported as itself. *)
Theorem reported_plate_idempotent (licensePlate : string) :
  reported_plate (reported_plate licensePlate) = reported_plate licensePlate /\
  normalizedPlate (normalizedPlate licensePlate) = normalizedPlate licensePlate /\
  reported_plate "UNKNOWN" = "UNKNOWN".
Proof.
  split_and!; [| |reflexivity].
  - destruct (reported_plate_plate_chars licensePlate) as [Hne Hchars].
    revert Hne Hchars. generalize (reported_plate licensePlate) as plate.
    intros plate Hne Hchars. unfold reported_plate.
    rewrite (normalizedPlate_fixed _ Hchars).
    by rewrite bool_decide_eq_false_2.
  - apply normalizedPlate_fixed, normalizedPlate_plate_chars.
Qed.

(** X10.  A ticket whose plate holds anything but the letters A-Z and
    digits, or is empty, is never matched by a capture: whatever the
    recognition service answers, the ticket [findOpenTicketByPlate] returns
    for the recognised plate carries a plate of letters A-Z and digits
    only, not "UNKNOWN". *)
Theorem recognised_plate_matches_clean_plates
    (generateContent : string -> promise (option string))
    (JSON_parse : string -> option Data) (base64Image : string)
    (data : localStorage) (t : Ticket) :
  findOpenTicketByPlate
    (rr_licensePlate (identifyTruck generateContent JSON_parse base64Image))
    data = Some t ->
  status t = OPEN /\
  licensePlate t <> "" /\ licensePlate t <> "UNKNOWN" /\
  all_chars is_plate_char (licensePlate t) = true.
Proof.
  intros (Hne & l1 & l2 & _ & [Hopen Hplate] & _)%findOpenTicketByPlate_Some.
  destruct (identifyTruck_plate_chars generateContent JSON_parse base64Image)
    as [Hnonempty Hchars].
  rewrite Hplate. by split_and!.
Qed.

Lemma recognised_plate_matches_clean_plates_witness :
  status open_ticket = OPEN /\
  licensePlate open_ticket <> "" /\ licensePlate open_ticket <> "UNKNOWN" /\
  all_chars is_plate_char (licensePlate open_ticket) = true.
Proof.
  apply (recognised_plate_matches_clean_plates
           (fun _ => Resolved (Some "{...}"))
           (fun _ => Some (mkData (Some "abc 123") (Num (Q2Qc (9 # 10)))))
           "data:image/jpeg;base64,BBBB"
           (Some [sample_ticket "t0" "ABC 123" OPEN; open_ticket])).
  by_computation.
Defined.

Section commas.
Implicit Types (s u v : string).

Lemma split_commas_no_comma segment u s :
  no_comma u = true ->
  split_commas segment (u +:+ s) = split_commas (segment +:+ u) s.
Proof.
  revert segment. induction u as [|c u IH]; intros segment Hu.
  - by rewrite app_nil_string, app_string_nil.
  - apply andb_true_iff in Hu as [Hc Hu].
    change (String c u +:+ s) with (String c (u +:+ s)). cbn [split_commas].
    apply negb_true_iff, bool_decide_eq_false in Hc.
    rewrite bool_decide_eq_false_2 by done.
    rewrite IH by done. f_equal.
    rewrite app_string_assoc. by rewrite app_cons_string, app_nil_string.
Qed.

Lemma split_commas_whole segment u :
  no_comma u = true -> split_commas segment u = [segment +:+ u].
Proof.
  intros Hu. rewrite <- (app_string_nil u) at 1.
  by rewrite split_commas_no_comma.
Qed.

Lemma split_commas_comma segment s :
  split_commas segment (String ","%char s) = segment :: split_commas "" s.
Proof. reflexivity. Qed.

Lemma split_commas_second u v :
  no_comma u = true -> no_comma v = true ->
  split_commas "" (u +:+ String ","%char v) !! 1%nat = Some v.
Proof.
  intros Hu Hv. rewrite split_commas_no_comma, split_commas_comma by done.
  rewrite split_commas_whole by done. by rewrite app_nil_string.
Qed.

Lemma split_commas_second_of_more u v s :
  no_comma u = true -> no_comma v = true ->
  split_commas "" (u +:+ String ","%char (v +:+ String ","%char s)) !! 1%nat
  = Some v.
Proof.
  intros Hu Hv. rewrite split_commas_no_comma, split_commas_comma by done.
  rewrite split_commas_no_comma, split_commas_comma by done.
  by rewrite app_nil_string.
Qed.
End commas.

(** X11.  What [identifyTruck] sends of the image: a data URL is cut down
    to the text between its first comma and its second one, or its end; a
    text without comma, or with nothing between the first comma and the
    next, is sent whole. *)
Theorem cleanBase64_payload (header payload rest : string) :
  no_comma header = true -> no_comma payload = true ->
  (cleanBase64 header = header) /\
  (payload <> "" ->
   cleanBase64 (header +:+ "," +:+ payload) = payload /\
   cleanBase64 (header +:+ "," +:+ payload +:+ "," +:+ rest) = payload) /\
  (cleanBase64 (header +:+ ",") = header +:+ ",") /\
  (cleanBase64 (header +:+ ",," +:+ rest) = header +:+ ",," +:+ rest).
Proof.
  intros Hheader Hpayload. unfold cleanBase64. split_and!.
  - by rewrite split_commas_whole.
  - intros Hne. split.
    + change (header +:+ "," +:+ payload)
        with (header +:+ String ","%char payload).
      rewrite split_commas_second by done.
      by rewrite bool_decide_eq_false_2.
    + change (header +:+ "," +:+ payload +:+ "," +:+ rest)
        with (header +:+ String ","%char (payload +:+ String ","%char rest)).
      rewrite split_commas_second_of_more by done.
      by rewrite bool_decide_eq_false_2.
  - change (header +:+ ",") with (header +:+ String ","%char "").
    by rewrite split_commas_second.
  - change (header +:+ ",," +:+ rest)
      with (header +:+ String ","%char ("" +:+ String ","%char rest)).
    by rewrite split_commas_second_of_more.
Qed.

Lemma cleanBase64_payload_witness :
  cleanBase64 "data:image/jpeg;base64,AAAA" = "AAAA".
Proof.
  destruct (cleanBase64_payload "data:image/jpeg;base64" "AAAA" "")
    as (_ & Hcut & _); [reflexivity..|].
  apply Hcut. discriminate.
Defined.

Lemma identifyTruck_unreadable
    (generateContent : string -> promise (option string))
    (JSON_parse : string -> option Data) (base64Image : string) :
  unreadable generateContent JSON_parse base64Image ->
  rr_licensePlate (identifyTruck generateContent JSON_parse base64Image)
  = "UNKNOWN".
Proof.
  unfold unreadable, identifyTruck. intros Hun.
  destruct (generateContent (cleanBase64 base64Image)) as [[text|]|error];
    [|done..].
  case_bool_decide as Htext; [done|].
  destruct (Hun text eq_refl)
    as [?|[Hparse|(data & Hparse & [Hnone|(plate & Hsome & Hempty)])]];
    [done|rewrite Hparse..].
  - done.
  - by rewrite Hnone.
  - rewrite Hsome. simpl. by rewrite bool_decide_eq_true_2.
Qed.

Lemma findOpenTicketByPlate_UNKNOWN (data : localStorage) :
  findOpenTicketByPlate "UNKNOWN" data = None.
Proof. reflexivity. Qed.

(** * The transaction panel *)

Section desk.
Implicit Types (st : Console).

Lemma desk_clearStabilityTimeout st :
  desk (clearStabilityTimeout st) = desk st.
Proof.
  unfold clearStabilityTimeout. destruct (stabilityTimeoutRef st); [|done].
  by case_bool_decide.
Qed.

Lemma desk_rerun_effect st : desk (rerun_effect st) = desk st.
Proof.
  unfold rerun_effect, stability_effect, stability_cleanup.
  assert (Hclean : desk (if stabilityCleanup st
                         then clearStabilityTimeout st else st) = desk st).
  { destruct (stabilityCleanup st); [apply desk_clearStabilityTimeout|done]. }
  destruct (useManualWeight _); [done|]. simpl.
  unfold desk in *. simpl.
  pose proof (desk_clearStabilityTimeout
                (set_isStable false
                   (if stabilityCleanup st
                    then clearStabilityTimeout st else st))) as Hclear.
  unfold desk in Hclear. simpl in Hclear. by rewrite Hclear.
Qed.

Lemma desk_setCurrentWeight w st : desk (setCurrentWeight w st) = desk st.
Proof.
  unfold setCurrentWeight. destruct (same w _); [done|].
  by rewrite desk_rerun_effect.
Qed.

Lemma desk_setUseManualWeight b st :
  desk (setUseManualWeight b st) = desk st.
Proof.
  unfold setUseManualWeight. case_bool_decide; [done|].
  by rewrite desk_rerun_effect.
Qed.

Lemma draft_inv_desk st st' : desk st' = desk st -> draft_inv st -> draft_inv st'.
Proof.
  unfold desk. intros [= Hm Ht Hi Hs] [I1 I2 I3].
  split; unfold ledger_ids; rewrite ?Hm, ?Ht, ?Hi, ?Hs; done.
Qed.

Lemma draft_inv_idle st :
  mode st = IDLE -> matchedTicket st = None -> draft_inv st.
Proof.
  intros Hm Ht. split; rewrite ?Hm, ?Ht.
  - split; [done|]. by intros [? ?].
  - done.
  - done.
Qed.

Lemma draft_inv_resetConsole b st : draft_inv (resetConsole b st).
Proof. apply draft_inv_idle; by destruct b. Qed.

Lemma draft_inv_fire a st : draft_inv st -> draft_inv (fire a st).
Proof.
  destruct a as [|b]; simpl.
  - by apply draft_inv_desk.
  - intros _. apply draft_inv_idle; by destruct b.
Qed.

Lemma draft_inv_fire_all (due : list Timer) st :
  draft_inv st -> draft_inv (foldl (fun s t => fire (action t) s) st due).
Proof.
  revert st. induction due as [|t due IH]; intros st Hinv; simpl; [done|].
  by apply IH, draft_inv_fire.
Qed.

Lemma draft_inv_tick st : draft_inv st -> draft_inv (tick st).
Proof.
  intros Hinv. unfold tick. apply draft_inv_fire_all.
  by apply (draft_inv_desk st).
Qed.

Lemma draft_inv_elapse ms st : draft_inv st -> draft_inv (elapse ms st).
Proof.
  intros Hinv. unfold elapse. induction ms as [|ms IH]; simpl; [done|].
  by apply draft_inv_tick.
Qed.

Lemma saveTicket_ids (i : string) (t : Ticket) (data : localStorage) :
  i ∈ id <$> getTickets data -> i ∈ id <$> getTickets (saveTicket t data).
Proof.
  destruct (saveTicket_cases t data)
    as [[Hall ->] | (l1 & x & l2 & Hl & Hx & Hall & ->)].
  - rewrite fmap_app. intros Hi. apply elem_of_app. by left.
  - rewrite Hl, !fmap_app, !fmap_cons, !elem_of_app, !elem_of_cons.
    rewrite Hx. tauto.
Qed.

Lemma saveTicket_length (t : Ticket) (data : localStorage) :
  length (getTickets (saveTicket t data))
  = if bool_decide (id t ∈ id <$> getTickets data)
    then length (getTickets data) else S (length (getTickets data)).
Proof.
  destruct (saveTicket_cases t data)
    as [[Hall ->] | (l1 & x & l2 & Hl & Hx & Hall & ->)].
  - rewrite bool_decide_eq_false_2.
    + rewrite length_app. simpl. lia.
    + intros (y & Hy & Hin)%list_elem_of_fmap.
      by apply (proj1 (Forall_forall _ _) Hall y Hin).
  - rewrite bool_decide_eq_true_2.
    + rewrite Hl, !length_app. done.
    + rewrite Hl, fmap_app, fmap_cons, Hx.
      apply elem_of_app. right. by left.
Qed.

Lemma draft_inv_handleCapture screenshot st :
  draft_inv st -> draft_inv (handleCapture screenshot st).
Proof.
  intros Hinv. unfold handleCapture.
  destruct (negb (webcamRef st)); [done|].
  destruct (negb (isStable st) && negb (useManualWeight st)).
  { by apply (draft_inv_desk st). }
  destruct screenshot as [imageSrc|]; [case_bool_decide|];
    by apply draft_inv_idle.
Qed.

Lemma draft_inv_handleCapture_resume recognition st :
  draft_inv st -> draft_inv (handleCapture_resume recognition st).
Proof.
  intros Hinv. unfold handleCapture_resume.
  destruct (identifying st) as [imageSrc|] eqn:Hid; [|done].
  destruct (draft_pending st Hinv) as [Hmode Hnone]; [by rewrite Hid|].
  simpl.
  destruct (findOpenTicketByPlate _ _) as [t|] eqn:Hfind; simpl.
  - apply findOpenTicketByPlate_Some in Hfind
      as (Hne & l1 & l2 & Hl & [Hopen Hplate] & _).
    split; simpl.
    + done.
    + by intros [? ?].
    + intros ? [= <-]. split_and!; [done|congruence|].
      unfold ledger_ids. simpl. rewrite Hl, fmap_app, fmap_cons.
      apply elem_of_app. right. by left.
  - split; simpl.
    + rewrite Hnone. split; [done|]. by intros [? ?].
    + by intros [? ?].
    + by rewrite Hnone.
Qed.

Lemma draft_inv_processInbound uuid now screenshot st :
  draft_inv st -> draft_inv (processInbound uuid now screenshot st).
Proof.
  intros Hinv. unfold processInbound.
  destruct (negb (webcamRef st)); [done|].
  apply draft_inv_idle; simpl; by destruct (useManualWeight st).
Qed.

Lemma draft_inv_processOutbound now screenshot st :
  draft_inv st -> draft_inv (processOutbound now screenshot st).
Proof.
  intros Hinv. unfold processOutbound.
  destruct (matchedTicket st) as [matched|] eqn:Hmatched; [|done].
  destruct (negb (webcamRef st)); [done|].
  destruct Hinv as [I1 I2 I3].
  split; simpl; [exact I1|exact I2|].
  intros t Ht. destruct (I3 t Ht) as (? & ? & Hin).
  split_and!; [done..|].
  unfold ledger_ids in *.
  exact (saveTicket_ids _ (updatedTicket matched now screenshot st) _ Hin).
Qed.

Lemma draft_inv_step st (e : Event) : draft_inv st -> draft_inv (step st e).
Proof.
  intros Hinv.
  destruct e as [w|checked|value|value|value|screenshot|recognition
                |uuid now screenshot|now screenshot| |ms]; simpl.
  - apply (draft_inv_desk st); [apply desk_setCurrentWeight|done].
  - apply (draft_inv_desk st); [|done].
    destruct checked; apply desk_setUseManualWeight.
  - by apply (draft_inv_desk st).
  - by apply (draft_inv_desk st).
  - by apply (draft_inv_desk st).
  - by apply draft_inv_handleCapture.
  - by apply draft_inv_handleCapture_resume.
  - by apply draft_inv_processInbound.
  - by apply draft_inv_processOutbound.
  - apply draft_inv_resetConsole.
  - by apply draft_inv_elapse.
Qed.

Lemma draft_inv_mount (data : localStorage) : draft_inv (mount data).
Proof. by apply draft_inv_idle. Qed.

Lemma reachable_draft (data : localStorage) st :
  reachable data st -> draft_inv st.
Proof.
  induction 1 as [|st e _ IH]; [apply draft_inv_mount|by apply draft_inv_step].
Qed.

Lemma storage_processOutbound st (matched : Ticket) now screenshot :
  matchedTicket st = Some matched -> webcamRef st = true ->
  storage (processOutbound now screenshot st)
  = saveTicket (updatedTicket matched now screenshot st) (storage st).
Proof.
  intros Hmatched Hcam. unfold processOutbound. by rewrite Hmatched, Hcam.
Qed.

(** The events that are not a confirm leave the ledger alone. *)
Lemma storage_step_other st (e : Event) :
  match e with
  | ConfirmInbound _ _ _ | ConfirmOutbound _ _ => True
  | _ => storage (step st e) = storage st
  end.
Proof.
  destruct e as [w|checked|value|value|value|screenshot|recognition
                |uuid now screenshot|now screenshot| |ms]; simpl; try done.
  - pose proof (desk_setCurrentWeight w st) as H. by injection H.
  - pose proof (desk_setUseManualWeight checked st) as H.
    destruct checked; by injection H.
  - apply storage_handleCapture.
  - apply storage_handleCapture_resume.
  - apply storage_resetConsole.
  - apply storage_elapse.
Qed.
End desk.

(** X12.  A capture whose image the recognition service cannot read ends
    in the inbound draft, whatever the ledger holds: the plate shown is
    "UNKNOWN", no ticket is matched, the ledger is as before; the ticket
    the inbound confirm then writes is OPEN under the plate "UNKNOWN", and
    a lookup of that plate does not find it. *)
Theorem capture_unreadable_plate
    (generateContent : string -> promise (option string))
    (JSON_parse : string -> option Data) (imageSrc : string)
    (data : localStorage) (st : Console) :
  reachable data st ->
  identifying st = Some imageSrc ->
  unreadable generateContent JSON_parse imageSrc ->
  let st' :=
    step st (Identified (identifyTruck generateContent JSON_parse imageSrc)) in
  mode st' = INBOUND /\ matchedTicket st' = None /\
  detectedPlate st' = "UNKNOWN" /\ processing st' = false /\
  storage st' = storage st /\
  forall uuid now screenshot,
    let ticket := newTicket uuid now screenshot st' in
    let st'' := step st' (ConfirmInbound uuid now screenshot) in
    licensePlate ticket = "UNKNOWN" /\ status ticket = OPEN /\
    ticket ∈ getTickets (storage st'') /\
    findOpenTicketByPlate (licensePlate ticket) (storage st'') = None.
Proof.
  intros Hreach Hid Hun st'.
  pose proof (reachable_webcam data st Hreach) as Hcam.
  destruct (draft_pending st (reachable_draft data st Hreach)) as [_ Hnone];
    [by rewrite Hid|].
  subst st'. simpl. unfold handleCapture_resume.
  rewrite Hid, (identifyTruck_unreadable _ _ _ Hun). simpl.
  split_and!; try done.
  intros uuid now screenshot.
  split_and!; try done.
  cbn [step]. rewrite storage_processInbound by done.
  match goal with |- ?t ∈ getTickets (saveTicket ?t ?d) =>
    destruct (saveTicket_cases t d)
      as [[_ ->] | (l1 & x & l2 & _ & _ & _ & ->)]
  end; apply elem_of_app; right; by left.
Qed.

Lemma capture_unreadable_plate_witness :
  mode (step (run (mount (Some [sample_ticket "t0" "UNKNOWN" OPEN]))
                [Elapse 800; Capture (Some "data:image/jpeg;base64,AAAA")])
          (Identified (identifyTruck (fun _ => Rejected "503")
                         (fun _ => None) "data:image/jpeg;base64,AAAA")))
  = INBOUND.
Proof.
  destruct (capture_unreadable_plate (fun _ => Rejected "503") (fun _ => None)
              "data:image/jpeg;base64,AAAA"
              (Some [sample_ticket "t0" "UNKNOWN" OPEN])
              (run (mount (Some [sample_ticket "t0" "UNKNOWN" OPEN]))
                 [Elapse 800; Capture (Some "data:image/jpeg;base64,AAAA")]))
    as (Hmode & _).
  - apply reachable_run, reachable_mount.
  - by_computation.
  - intros text Htext. discriminate.
  - exact Hmode.
Defined.

(** X13.  In every state the console reaches after mounting, the mode is
    OUTBOUND exactly when a ticket is matched; while a recognition is
    awaited the mode is IDLE and no ticket is matched; and a matched
    ticket is OPEN, its plate is not "UNKNOWN", and the ledger holds a
    record with its id. *)
Theorem draft_consistent (data : localStorage) (st : Console) :
  reachable data st ->
  (mode st = OUTBOUND <-> is_Some (matchedTicket st)) /\
  (is_Some (identifying st) -> mode st = IDLE /\ matchedTicket st = None) /\
  (forall t, matchedTicket st = Some t ->
     status t = OPEN /\ licensePlate t <> "UNKNOWN" /\
     id t ∈ ledger_ids st).
Proof.
  intros [I1 I2 I3]%reachable_draft. by split_and!.
Qed.

Lemma draft_consistent_witness :
  status open_ticket = OPEN /\ licensePlate open_ticket <> "UNKNOWN" /\
  id open_ticket ∈ ledger_ids console_at_outbound.
Proof.
  destruct (draft_consistent None console_at_outbound) as (_ & _ & Hmatched).
  - apply reachable_run, reachable_mount.
  - apply Hmatched. by_computation.
Defined.

(** X14.  In every state the console reaches, an event changes the number
    of records of the ledger only if it is an inbound confirm under an id
    the ledger does not hold, which adds one record; every other event, the
    outbound confirm included, leaves the number as it is; and no event
    removes an id from the ledger. *)
Theorem ledger_step (data : localStorage) (st : Console) (e : Event) :
  reachable data st ->
  length (getTickets (storage (step st e)))
  = (if opens_record st e then S (length (getTickets (storage st)))
     else length (getTickets (storage st))) /\
  (forall i, i ∈ ledger_ids st -> i ∈ ledger_ids (step st e)).
Proof.
  intros Hreach.
  pose proof (reachable_webcam data st Hreach) as Hcam.
  pose proof (reachable_draft data st Hreach) as Hinv.
  pose proof (storage_step_other st e) as Hother.
  unfold ledger_ids.
  destruct e as [w|checked|value|value|value|screenshot|recognition
                |uuid now screenshot|now screenshot| |ms];
    try (rewrite Hother; by split).
  - cbn [step]. rewrite storage_processInbound by done. split.
    + rewrite saveTicket_length. cbn [opens_record id newTicket].
      unfold ledger_ids. by repeat case_bool_decide.
    + intros i. apply saveTicket_ids.
  - cbn [step opens_record].
    destruct (matchedTicket st) as [matched|] eqn:Hmatched;
      [|unfold processOutbound; rewrite Hmatched; by split].
    rewrite (storage_processOutbound st matched) by done.
    split.
    + rewrite saveTicket_length.
      rewrite bool_decide_eq_true_2; [done|].
      by apply (draft_matched st Hinv matched).
    + intros i. apply saveTicket_ids.
Qed.

Lemma ledger_step_witness :
  length (getTickets (storage (step console_at_outbound
                                 (ConfirmOutbound 1700000600000 None))))
  = length (getTickets (storage console_at_outbound)).
Proof.
  destruct (ledger_step None console_at_outbound
              (ConfirmOutbound 1700000600000 None)) as [Hlength _].
  - apply reachable_run, reachable_mount.
  - exact Hlength.
Defined.

(** X15.  When the ids of the store the console mounts on are pairwise
    distinct, so are the ids of the ledger in every state the console
    reaches. *)
Theorem ledger_ids_distinct (data : localStorage) (st : Console) :
  reachable data st ->
  NoDup (id <$> getTickets data) -> NoDup (ledger_ids st).
Proof.
  intros Hreach Hnd. unfold ledger_ids.
  induction Hreach as [|st e _ IH].
  - unfold mount. by rewrite storage_stability_effect.
  - destruct (storage_step st e) as [->|(ticket & -> & _)]; [done|].
    by apply saveTicket_distinct_ids.
Qed.

Lemma ledger_ids_distinct_witness :
  NoDup (ledger_ids (run (mount None) scenario)).
Proof.
  apply (ledger_ids_distinct None).
  - apply reachable_run, reachable_mount.
  - apply NoDup_nil_2.
Defined.



(** * Motion, and the print timer *)

Section motion.
Implicit Types (st : Console).

Lemma isStable_fire_all (due : list Timer) st :
  (forall t, t ∈ due -> action t <> MarkStable) ->
  isStable (foldl (fun s t => fire (action t) s) st due) = isStable st.
Proof.
  revert st. induction due as [|t due IH]; intros st Hdue; simpl; [done|].
  rewrite IH by (intros t' Ht'; apply Hdue; by right).
  pose proof (Hdue t ltac:(by left)) as Ht.
  destruct (action t) as [|[]]; done.
Qed.

Lemma tick_settling k st : settling (S k) st -> settling k (tick st).
Proof.
  intros [Hinv Hscale Hmotion Htimers].
  destruct (tick_frame st) as (Hm & _).
  split.
  - by apply inv_tick.
  - congruence.
  - unfold tick. rewrite isStable_fire_all; [done|].
    intros t [Hdue Ht]%list_elem_of_filter Ha.
    pose proof (Htimers t Ht Ha). lia.
  - intros t' (t & Ht & Hlater & ->)%timers_tick Ha. simpl in *.
    pose proof (Htimers t Ht Ha). lia.
Qed.

Lemma elapse_settling ms k st :
  settling (ms + k) st -> settling k (elapse ms st).
Proof.
  unfold elapse. revert k. induction ms as [|ms IH]; intros k Hk; [done|].
  simpl. apply tick_settling, IH.
  by replace (ms + S k)%nat with (S ms + k)%nat by lia.
Qed.

Lemma settling_frame k st st' :
  settling k st -> console_inv st' ->
  isStable st' = isStable st ->
  useManualWeight st' = useManualWeight st ->
  (forall t, t ∈ timers st' -> action t = MarkStable -> t ∈ timers st) ->
  settling k st'.
Proof.
  intros [Hinv Hscale Hmotion Htimers] Hinv' Hs Hm Hold.
  split; [done|congruence|congruence|].
  intros t Ht Ha. apply Htimers; [by apply Hold|done].
Qed.

Lemma step_settling k st (e : Event) :
  settling k st -> keeps_scale e -> (elapsed [e] <= k)%nat -> (k < 800)%nat ->
  settling (k - elapsed [e]) (step st e).
Proof.
  intros Hset Hkeeps Helapsed Hk.
  pose proof (inv_step st e (settling_inv k st Hset)) as Hinv'.
  destruct Hset as [Hinv Hscale Hmotion Htimers].
  assert (Hplain : plain e ->
            settling (k - elapsed [e]) (step st e)).
  { intros Hp.
    destruct (plain_step st e Hp) as (Hs & Hm & _ & _ & _ & _ & Hold & _).
    replace (k - elapsed [e])%nat with k by (destruct e; simpl in *; lia).
    split; [done|congruence|congruence|].
    intros t Ht Ha. apply Htimers; [by apply Hold|done]. }
  destruct e as [w|checked|value|value|value|screenshot|recognition
                |uuid now screenshot|now screenshot| |ms];
    try (by apply Hplain).
  - simpl elapsed. replace (k - 0)%nat with k by lia.
    revert Hinv'. simpl. unfold setCurrentWeight.
    destruct (same w (currentWeight st)); [by split|]. intros Hinv'.
    destruct (rerun_effect_scale (set_currentWeight w st))
      as (E1 & E2 & _ & _ & _ & _ & E7);
      [exact (inv_timer st Hinv) | exact (inv_cleanup_ready st Hinv)
      |exact Hscale|].
    split; [done..|].
    intros t Ht Ha. destruct (E7 t Ht) as [->|[_ ?]]; [simpl; lia|done].
  - destruct checked; [done|].
    simpl elapsed. replace (k - 0)%nat with k by lia.
    simpl. unfold setUseManualWeight. rewrite Hscale.
    rewrite bool_decide_eq_true_2 by done. by split.
  - simpl in *. apply elapse_settling.
    replace (ms + (k - (ms + 0)))%nat with k by lia. by split.
Qed.

Lemma run_settling k st (events : list Event) :
  settling k st -> Forall keeps_scale events ->
  (elapsed events <= k)%nat -> (k < 800)%nat ->
  settling (k - elapsed events) (run st events).
Proof.
  unfold run. revert st k.
  induction events as [|e events IH]; intros st k Hset Hkeeps Helapsed Hk.
  - simpl. by replace (k - 0)%nat with k by lia.
  - apply Forall_cons in Hkeeps as [He Hevents].
    assert (Hsplit : elapsed (e :: events)
                     = (elapsed [e] + elapsed events)%nat)
      by (destruct e; simpl; lia).
    simpl foldl.
    replace (k - elapsed (e :: events))%nat
      with (k - elapsed [e] - elapsed events)%nat by lia.
    apply IH; [|done|lia..].
    apply step_settling; [done..|lia|done].
Qed.

(** *** The timer at the end of the queue *)

Lemma lastPrintedTicket_fire_all (due : list Timer) st :
  lastPrintedTicket (foldl (fun s t => fire (action t) s) st due)
  = lastPrintedTicket st.
Proof.
  revert st. induction due as [|t due IH]; intros st; simpl; [done|].
  rewrite IH. by destruct (action t) as [|[]].
Qed.

Lemma lastPrintedTicket_elapse ms st :
  lastPrintedTicket (elapse ms st) = lastPrintedTicket st.
Proof.
  unfold elapse. induction ms as [|ms IH]; simpl; [done|].
  unfold tick at 1. by rewrite lastPrintedTicket_fire_all.
Qed.

Lemma tick_last_pending st (l : list Timer) i r a :
  timers st = l ++ [mkTimer i r a] -> (2 <= r)%nat ->
  exists l', timers (tick st) = l' ++ [mkTimer i (pred r) a].
Proof.
  intros Hl Hr. unfold tick.
  match goal with |- context [foldl _ ?s ?due] =>
    destruct (fire_all_frame due s) as (_ & _ & _ & _ & -> & _)
  end.
  simpl. rewrite Hl, filter_app, fmap_app.
  rewrite filter_cons_True by (simpl; lia).
  rewrite filter_nil. simpl. by eexists.
Qed.

Lemma tick_last_due st (l : list Timer) i r a :
  timers st = l ++ [mkTimer i r a] -> (r <= 1)%nat ->
  exists st', tick st = fire a st'.
Proof.
  intros Hl Hr. unfold tick. rewrite Hl, !filter_app.
  rewrite (filter_cons_True (fun t => (remaining t <= 1)%nat))
    by (simpl; lia).
  rewrite filter_nil, foldl_app. simpl. by eexists.
Qed.

Lemma elapse_last_pending ms st (l : list Timer) i r a :
  timers st = l ++ [mkTimer i (ms + r) a] -> (1 <= r)%nat ->
  exists l', timers (elapse ms st) = l' ++ [mkTimer i r a].
Proof.
  unfold elapse. revert r. induction ms as [|ms IH]; intros r Hl Hr.
  - by exists l.
  - destruct (IH (S r)) as [l' Hl'];
      [by replace (ms + S r)%nat with (S ms + r)%nat by lia|lia|].
    simpl. destruct (tick_last_pending _ _ _ _ _ Hl') as [l'' Hl'']; [lia|].
    by exists l''.
Qed.

Lemma elapse_last_due ms st (l : list Timer) i a :
  timers st = l ++ [mkTimer i (S ms) a] ->
  exists st', elapse (S ms) st = fire a st'.
Proof.
  intros Hl.
  destruct (elapse_last_pending ms st l i 1 a) as [l' Hl'];
    [by replace (ms + 1)%nat with (S ms) by lia|lia|].
  unfold elapse in *. simpl.
  by apply (tick_last_due _ l' i 1 a).
Qed.
End motion.

(** X17.  In every state the console reaches with manual entry off, a
    weight that differs from the current reading keeps the state in MOTION
    for the next 800 ms: whatever happens in less than 800 ms, short of
    switching manual entry on, the state is not STABLE, and a capture is
    turned down with the alert. *)
Theorem motion_lasts (data : localStorage) (st : Console) (w : number)
    (events : list Event) :
  reachable data st ->
  useManualWeight st = false ->
  same w (currentWeight st) = false ->
  Forall keeps_scale events ->
  (elapsed events < 800)%nat ->
  let st' := run (step st (WeightUpdate w)) events in
  isStable st' = false /\
  forall screenshot,
    step st' (Capture screenshot) = alert NotStableError st'.
Proof.
  intros Hreach Hscale Hdiffers Hkeeps Hshort st'.
  pose proof (reachable_inv data st Hreach) as Hinv.
  assert (Harmed : settling 799 (step st (WeightUpdate w))).
  { pose proof (inv_step st (WeightUpdate w) Hinv) as Hinv'.
    revert Hinv'. simpl. unfold setCurrentWeight. rewrite Hdiffers.
    intros Hinv'.
    destruct (rerun_effect_scale (set_currentWeight w st))
      as (E1 & E2 & _ & _ & _ & _ & E7);
      [exact (inv_timer st Hinv) | exact (inv_cleanup_ready st Hinv)
      |exact Hscale|].
    split; [done..|].
    intros t Ht Ha. destruct (E7 t Ht) as [->|[_ ?]]; [simpl; lia|done]. }
  destruct (run_settling 799 _ events Harmed Hkeeps) as [_ Hm Hs _];
    [lia..|].
  fold st' in Hm, Hs. split; [done|].
  intros screenshot. simpl. unfold handleCapture.
  assert (Hcam : webcamRef st' = true).
  { apply (reachable_webcam data). apply reachable_run. by constructor. }
  by rewrite Hcam, Hs, Hm.
Qed.

Lemma motion_lasts_witness :
  isStable (run (step (mount None) (WeightUpdate (of_Z 20000)))
              [Elapse 400; Capture (Some "data:image/jpeg;base64,AAAA");
               ToggleManual false; Elapse 399]) = false.
Proof.
  destruct (motion_lasts None (mount None) (of_Z 20000)
              [Elapse 400; Capture (Some "data:image/jpeg;base64,AAAA");
               ToggleManual false; Elapse 399]) as [Hmotion _].
  - apply reachable_mount.
  - reflexivity.
  - reflexivity.
  - repeat constructor.
  - simpl. lia.
  - exact Hmotion.
Defined.

(** X18.  500 ms after an outbound confirm, nothing else happening in
    between, the receipt has been sent to the printer and the console is
    back to IDLE: no ticket matched, the plate cleared, the manual weight
    field reset to "0" if manual entry was on at the confirm and cleared
    otherwise; the receipt is the ticket the confirm wrote, which is in
    the ledger. *)
Theorem print_follows_confirm (st : Console) (matched : Ticket)
    (now : Z) (screenshot : option string) :
  matchedTicket st = Some matched -> webcamRef st = true ->
  let ticket := updatedTicket matched now screenshot st in
  let st' := run st [ConfirmOutbound now screenshot; Elapse 500] in
  mode st' = IDLE /\ matchedTicket st' = None /\ detectedPlate st' = "" /\
  manualWeight st' = (if useManualWeight st then "0" else "") /\
  lastPrintedTicket st' = Some ticket /\
  storage st' = saveTicket ticket (storage st) /\
  exists before, outputs st' = before ++ [PrintPage; TicketComplete].
Proof.
  intros Hmatched Hcam ticket st'. subst st'. unfold run. cbn [foldl step].
  set (st1 := processOutbound now screenshot st).
  assert (Htimers : timers st1
            = timers st ++ [mkTimer (nextTimerId st) 500
                              (PrintAndReset (useManualWeight st))]).
  { unfold st1, processOutbound. by rewrite Hmatched, Hcam. }
  assert (Hprinted : lastPrintedTicket st1 = Some ticket).
  { unfold st1, processOutbound. by rewrite Hmatched, Hcam. }
  pose proof (lastPrintedTicket_elapse 500 st1) as Hkept.
  pose proof (storage_elapse 500 st1) as Hstorage.
  destruct (elapse_last_due 499 st1 _ _ _ Htimers) as [s Hfire].
  assert (Hsaved : storage st1 = saveTicket ticket (storage st))
    by (by apply storage_processOutbound).
  rewrite Hkept, Hstorage, Hprinted, Hsaved.
  rewrite Hfire. simpl.
  destruct (useManualWeight st); simpl; split_and!; try done;
    exists (outputs s); by rewrite <- app_assoc.
Qed.

Lemma print_follows_confirm_witness :
  mode (run console_at_outbound
          [ConfirmOutbound 1700000600000 None; Elapse 500]) = IDLE.
Proof.
  destruct (print_follows_confirm console_at_outbound open_ticket
              1700000600000 None) as [Hmode _].
  - by_computation.
  - reflexivity.
  - exact Hmode.
Defined.

(** * The receipt *)

Lemma Qcabs_zero (x : Qc) : Qcabs x = 0%Qc <-> x = 0%Qc.
Proof.
  split; [|intros ->; by apply Qc_is_canon].
  apply (Qcabs_case x (fun y => y = 0%Qc -> x = 0%Qc)); [done|].
  intros _ Hopp. rewrite <- (Qcopp_involutive x), Hopp. reflexivity.
Qed.

Lemma Qcminus_zero (a b : Qc) : (a - b)%Qc = 0%Qc <-> a = b.
Proof.
  split; [|intros ->; ring].
  intros H. replace a with ((a - b) + b)%Qc by ring. rewrite H. ring.
Qed.

Lemma quarter_zero (x : Qc) : (x * Q2Qc (1 # 4))%Qc = 0%Qc <-> x = 0%Qc.
Proof.
  split; [|intros ->; ring].
  intros [?|H]%Qcmult_integral; [done|]. discriminate H.
Qed.



(** * The scale connection *)

Lemma connect_settled (navigator : Navigator) :
  match settled (connect navigator constructor) with
  | Resolved connected =>
      serial navigator = true /\
      (connected = true <-> port_opens navigator)
  | Rejected _ => serial navigator = false
  end.
Proof.
  unfold connect, isSupported, port_opens.
  destruct (serial navigator); simpl; [|done].
  destruct (requestPort navigator) as [[selected|]|error] eqn:Hport; simpl.
  - destruct (open selected 9600) as [u|error] eqn:Hopen; simpl.
    + split; [done|]. split; [|done]. intros _. split; [done|].
      by exists selected, u.
    + split; [done|]. split; [done|].
      intros (_ & s & u & [= <-] & Hu). congruence.
  - split; [done|]. split; [done|]. by intros (_ & s & u & ? & _).
  - split; [done|]. split; [done|]. by intros (_ & s & u & ? & _).
Qed.

Lemma currentWeight_clearStabilityTimeout (st : Console) :
  currentWeight (clearStabilityTimeout st) = currentWeight st.
Proof.
  unfold clearStabilityTimeout. destruct (stabilityTimeoutRef st); [|done].
  by case_bool_decide.
Qed.

Lemma currentWeight_rerun_effect (st : Console) :
  currentWeight (rerun_effect st) = currentWeight st.
Proof.
  unfold rerun_effect, stability_effect, stability_cleanup.
  assert (Hclean : currentWeight (if stabilityCleanup st
                                  then clearStabilityTimeout st else st)
                   = currentWeight st).
  { destruct (stabilityCleanup st);
      [apply currentWeight_clearStabilityTimeout|done]. }
  destruct (useManualWeight _); [done|]. simpl.
  by rewrite currentWeight_clearStabilityTimeout.
Qed.

Lemma same_eq (x y : number) : same x y = true -> x = y.
Proof.
  destruct x, y; simpl; try done. by intros ->%bool_decide_eq_true.
Qed.

Lemma currentWeight_setCurrentWeight (w : number) (st : Console) :
  currentWeight (setCurrentWeight w st) = w.
Proof.
  unfold setCurrentWeight. destruct (same w (currentWeight st)) eqn:Hsame.
  - symmetry. by apply same_eq.
  - by rewrite currentWeight_rerun_effect.
Qed.

(** X20.  However the panel is driven, buttons rendered or not, the
    console never shows the scale connected and the simulation running at
    once. *)
Theorem connected_or_simulating (data : localStorage)
    (events : list PanelEvent) :
  let p := foldl panel_step (mountPanel data) events in
  isConnected p && isSimulating p = false.
Proof.
  simpl.
  assert (Hfrom : forall p,
            isConnected p && isSimulating p = false ->
            isConnected (foldl panel_step p events)
            && isSimulating (foldl panel_step p events) = false);
    [|by apply Hfrom].
  induction events as [|e events IH]; intros p Hp; simpl; [done|].
  apply IH.
  destruct e as [|navigator| |service weight|e]; simpl; try done.
  - unfold handleConnectScale. by destruct (scaleServiceRef p).
  - unfold handleConnectScale_resume.
    destruct (connecting p) as [|pending]; [done|].
    destruct (settled _) as [connected|error]; simpl; [|done].
    apply andb_false_r.
  - by destruct (created p !! service).
Qed.

(** X21.  One click on CONNECT SCALE while the ref holds no service, and
    the settling of [connect()]: in a browser without Web Serial the
    operator gets the alert and the two flags stay as they were; in every
    other case no alert is shown, a running simulation is stopped, and the
    scale is shown connected exactly when a port was chosen and opened;
    whatever the outcome, the ref holds the service afterwards, so that
    another click on CONNECT SCALE does nothing. *)
Theorem connect_attempt (navigator : Navigator) (p : Panel) :
  scaleServiceRef p = false ->
  let p' := handleConnectScale_resume navigator (handleConnectScale p) in
  (serial navigator = false ->
   isConnected p' = isConnected p /\ isSimulating p' = isSimulating p /\
   console p' = alert ConnectError (console p)) /\
  (serial navigator = true ->
   isSimulating p' = false /\ console p' = console p /\
   (isConnected p' = true <-> port_opens navigator)) /\
  scaleServiceRef p' = true /\
  handleConnectScale p' = p'.
Proof.
  intros Href p'. subst p'.
  assert (Hstart : handleConnectScale p
            = {| console := console p; isConnected := isConnected p;
                 isSimulating := isSimulating p; scaleServiceRef := true;
                 created := created p ++ [useManualWeight (console p)];
                 connecting := S (connecting p) |}).
  { unfold handleConnectScale. by rewrite Href. }
  rewrite Hstart. unfold handleConnectScale_resume. cbn [connecting].
  pose proof (connect_settled navigator) as Hsettled.
  destruct (settled (connect navigator constructor)) as [connected|error].
  - destruct Hsettled as [Hserial Hconnected].
    split_and!; try done.
    intros ?. congruence.
  - split_and!; try done. intros ?. congruence.
Qed.

Lemma connect_attempt_witness :
  isConnected
    (handleConnectScale_resume
       (mkNavigator true (Rejected "NotFoundError"))
       (handleConnectScale (toggleSimulation (mountPanel None)))) = false /\
  isSimulating
    (handleConnectScale_resume
       (mkNavigator true (Rejected "NotFoundError"))
       (handleConnectScale (toggleSimulation (mountPanel None)))) = false.
Proof.
  destruct (connect_attempt (mkNavigator true (Rejected "NotFoundError"))
              (toggleSimulation (mountPanel None)))
    as (_ & Hserial & _); [reflexivity|].
  destruct (Hserial eq_refl) as (Hsim & _ & Hconn).
  split; [|exact Hsim].
  apply not_true_is_false. intros Hc. apply Hconn in Hc.
  destruct Hc as (_ & selected & u & Hport & _). discriminate Hport.
Defined.

Lemma created_by_buttons (data : localStorage) (p : Panel) :
  panel_reachable data p -> Forall (fun captured => captured = false) (created p).
Proof.
  induction 1 as [|p e _ IH Hguard]; [by constructor|].
  destruct e as [|navigator| |service weight|e]; simpl; try done.
  - unfold handleConnectScale. destruct (scaleServiceRef p); [done|]. simpl.
    apply Forall_app. split; [done|]. apply Forall_singleton.
    unfold buttons_shown in Hguard.
    apply andb_true_iff in Hguard as [_ Hmanual].
    by apply negb_true_iff in Hmanual.
  - unfold handleConnectScale_resume.
    destruct (connecting p) as [|pending]; [done|].
    by destruct (settled _).
  - by destruct (created p !! service).
Qed.

(** X22.  The two scale buttons being rendered only while manual entry is
    off, the callback of every service created took [useManualWeight] as
    false: whatever the panel went through since, manual entry switched on
    included, a weight a service reads off the port replaces the current
    weight of the console. *)
Theorem readings_ignore_manual_entry (data : localStorage) (p : Panel)
    (service : nat) (weight : number) :
  panel_reachable data p ->
  (service < length (created p))%nat ->
  let p' := panel_step p (ScaleReading service weight) in
  console p' = setCurrentWeight weight (console p) /\
  currentWeight (console p') = weight.
Proof.
  intros Hreach Hservice p'. subst p'. simpl.
  destruct (lookup_lt_is_Some_2 _ _ Hservice) as [captured Hcaptured].
  rewrite Hcaptured. simpl.
  pose proof (created_by_buttons data p Hreach) as Hall.
  rewrite Forall_lookup in Hall. rewrite (Hall _ _ Hcaptured).
  split; [done|]. apply currentWeight_setCurrentWeight.
Qed.

Lemma readings_ignore_manual_entry_witness :
  currentWeight
    (console
       (foldl panel_step (mountPanel None)
          [ConnectScale; ConsoleEvent (ToggleManual true);
           ScaleReading 0 (of_Z 14870)])) = of_Z 14870.
Proof.
  apply (readings_ignore_manual_entry None
           (foldl panel_step (mountPanel None)
              [ConnectScale; ConsoleEvent (ToggleManual true)])
           0 (of_Z 14870)).
  - exact (panel_click None _ (ConsoleEvent (ToggleManual true))
             (panel_click None _ ConnectScale (panel_mount None) eq_refl) I).
  - simpl. lia.
Defined.



(** * The dashboard *)

Section sorting.
Implicit Types (x y : Ticket) (l : list Ticket).

Lemma insert_Permutation x l : insert_by compareFn x l ≡ₚ x :: l.
Proof.
  induction l as [|y l IH]; simpl; [done|].
  case_bool_decide; [|done].
  rewrite IH. apply Permutation_swap.
Qed.

Lemma sort_Permutation l : sort compareFn l ≡ₚ l.
Proof.
  unfold sort. induction l as [|x l IH]; simpl; [done|].
  by rewrite insert_Permutation, IH.
Qed.

Lemma insert_sorted x l :
  most_recent_first l -> most_recent_first (insert_by compareFn x l).
Proof.
  unfold most_recent_first.
  induction l as [|y l IH]; intros Hl; simpl.
  - repeat constructor.
  - apply StronglySorted_inv in Hl as [Hl Hy].
    case_bool_decide as Hcmp; unfold compareFn in Hcmp.
    + constructor; [by apply IH|].
      rewrite insert_Permutation. constructor; [lia|done].
    + constructor; [by constructor|].
      constructor; [lia|].
      eapply Forall_impl; [exact Hy|]. simpl. intros z Hz. lia.
Qed.

Lemma sort_sorted l : most_recent_first (sort compareFn l).
Proof.
  unfold sort. induction l as [|x l IH]; simpl; [constructor|].
  by apply insert_sorted.
Qed.

Lemma insert_stable (z : Z) x l :
  filter (fun t => activity t = z) (insert_by compareFn x l)
  = filter (fun t => activity t = z) (x :: l).
Proof.
  induction l as [|y l IH]; simpl; [done|].
  case_bool_decide as Hcmp; [|done]. unfold compareFn in Hcmp.
  rewrite (filter_cons _ y), IH, !(filter_cons _ x), (filter_cons _ y).
  repeat case_decide; try done. lia.
Qed.

Lemma sort_stable (z : Z) l :
  filter (fun t => activity t = z) (sort compareFn l)
  = filter (fun t => activity t = z) l.
Proof.
  unfold sort. induction l as [|x l IH]; simpl; [done|].
  by rewrite insert_stable, !filter_cons, IH.
Qed.
End sorting.

(** X24.  The tickets the application shows are the tickets of the
    ledger, each one once, ordered by their latest activity (the outbound
    time when there is one, the inbound time otherwise), most recent
    first; tickets of equal activity keep the order they have in the
    ledger; Total Loads is the number of tickets of the ledger, and the
    activity strip shows the first 15. *)
Theorem recentTickets_sorted (data : localStorage) :
  recentTickets data ≡ₚ getTickets data /\
  length (recentTickets data) = length (getTickets data) /\
  most_recent_first (recentTickets data) /\
  (forall z,
     filter (fun t => activity t = z) (recentTickets data)
     = filter (fun t => activity t = z) (getTickets data)) /\
  (forall t u,
     t ∈ activity_strip (recentTickets data) ->
     u ∈ recentTickets data -> u ∉ activity_strip (recentTickets data) ->
     activity u <= activity t).
Proof.
  unfold recentTickets. split_and!.
  - apply sort_Permutation.
  - by rewrite sort_Permutation.
  - apply sort_sorted.
  - intros z. apply sort_stable.
  - intros t u Ht Hu Hnot. unfold activity_strip in *.
    pose proof (sort_sorted (getTickets data)) as Hsorted.
    rewrite <- (take_drop 15 (sort compareFn (getTickets data))) in Hsorted, Hu.
    apply elem_of_app in Hu as [?|Hu]; [done|].
    unfold most_recent_first in Hsorted.
    revert Hsorted Ht Hu.
    generalize (take 15 (sort compareFn (getTickets data))) as front.
    generalize (drop 15 (sort compareFn (getTickets data))) as back.
    intros back front. induction front as [|x front IH]; simpl.
    + by intros _ ?%elem_of_nil.
    + intros [Hfront Hx]%StronglySorted_inv [->|Ht]%elem_of_cons Hu.
      * rewrite Forall_forall in Hx. apply Hx, elem_of_app. by right.
      * by apply IH.
Qed.

Section totals.
Implicit Types (l : list Ticket) (acc : number).

Lemma num_add_zero acc : num_add acc (of_Z 0) = acc.
Proof.
  destruct acc as [a| | |]; simpl; try done.
  f_equal. apply Qcplus_0_r.
Qed.

Lemma or_zero_no_cost (t : Ticket) :
  has_cost t = false -> or_zero (totalCost t) = of_Z 0.
Proof.
  unfold has_cost, or_zero, num_or. destruct (totalCost t); [|done].
  by intros ->.
Qed.

Lemma revenue_from acc l :
  foldl (fun a t => num_add a (or_zero (totalCost t))) acc l
  = foldl (fun a t => num_add a (or_zero (totalCost t))) acc
      (filter (fun t => has_cost t = true) l).
Proof.
  revert acc. induction l as [|t l IH]; intros acc; simpl; [done|].
  rewrite filter_cons. case_decide as Hcost; simpl; [apply IH|].
  apply not_true_is_false in Hcost.
  by rewrite or_zero_no_cost, num_add_zero.
Qed.

Lemma revenue_no_cost acc l :
  Forall (fun t => has_cost t = false) l ->
  foldl (fun a t => num_add a (or_zero (totalCost t))) acc l = acc.
Proof.
  revert acc. induction l as [|t l IH]; intros acc Hl; simpl; [done|].
  apply Forall_cons in Hl as [Ht Hl].
  by rewrite or_zero_no_cost, num_add_zero, IH.
Qed.
End totals.

(** X25.  Estimated Revenue adds up the costs in the order shown; a
    ticket without a cost (every OPEN ticket the console writes), or with
    a cost of 0 or NaN, counts nothing: the revenue of a list is the
    revenue of its tickets that have a cost; with no such ticket it is 0. *)
Theorem totalRevenue_counts_costs (l : list Ticket) :
  totalRevenue l = totalRevenue (filter (fun t => has_cost t = true) l) /\
  (Forall (fun t => status t = OPEN /\ no_closing_field t) l ->
   totalRevenue l = of_Z 0) /\
  (forall uuid now screenshot st,
     totalRevenue (l ++ [newTicket uuid now screenshot st]) = totalRevenue l).
Proof.
  split_and!.
  - apply revenue_from.
  - intros Hopen. unfold totalRevenue. apply revenue_no_cost.
    eapply Forall_impl; [exact Hopen|]. simpl.
    intros t [_ (_ & _ & _ & _ & _ & Hcost)]. unfold has_cost.
    by rewrite Hcost.
  - intros uuid now screenshot st. unfold totalRevenue.
    rewrite foldl_app. simpl. apply num_add_zero.
Qed.

Lemma totalRevenue_counts_costs_witness :
  totalRevenue [open_ticket; sample_ticket "t2" "XYZ789" OPEN] = of_Z 0.
Proof.
  destruct (totalRevenue_counts_costs
              [open_ticket; sample_ticket "t2" "XYZ789" OPEN])
    as (_ & Hopen & _).
  apply Hopen. repeat constructor.
Defined.

(** * Weights and amounts of the ledger *)

Section amounts.
Implicit Types (st : Console).

Lemma manualWeight_clearStabilityTimeout st :
  manualWeight (clearStabilityTimeout st) = manualWeight st.
Proof.
  unfold clearStabilityTimeout. destruct (stabilityTimeoutRef st); [|done].
  by case_bool_decide.
Qed.

Lemma manualWeight_rerun_effect st :
  manualWeight (rerun_effect st) = manualWeight st.
Proof.
  unfold rerun_effect, stability_effect, stability_cleanup.
  assert (Hclean : manualWeight (if stabilityCleanup st
                                 then clearStabilityTimeout st else st)
                   = manualWeight st).
  { destruct (stabilityCleanup st);
      [apply manualWeight_clearStabilityTimeout|done]. }
  destruct (useManualWeight _); [done|]. simpl.
  by rewrite manualWeight_clearStabilityTimeout.
Qed.

Lemma finite_inv_frame st st' :
  finite_inv st ->
  currentWeight st' = currentWeight st ->
  manualWeight st' = manualWeight st \/ manualWeight st' = ""
  \/ manualWeight st' = "0" ->
  storage st' = storage st ->
  matchedTicket st' = matchedTicket st \/ matchedTicket st' = None ->
  finite_inv st'.
Proof.
  intros [F1 F2 F3 F4] Hw Hm Hs Ht. split.
  - by rewrite Hw.
  - destruct Hm as [->|[->| ->]]; done.
  - by rewrite Hs.
  - destruct Ht as [->| ->]; done.
Qed.

Lemma finite_inv_effect st :
  finite_inv st -> finite_inv (rerun_effect st).
Proof.
  intros Hinv. pose proof (desk_rerun_effect st) as Hdesk.
  injection Hdesk as _ Ht _ Hs.
  apply (finite_inv_frame st); auto.
  - apply currentWeight_rerun_effect.
  - left. apply manualWeight_rerun_effect.
Qed.

Lemma finite_inv_fire a st : finite_inv st -> finite_inv (fire a st).
Proof.
  intros Hinv. apply (finite_inv_frame st); [done|..];
    destruct a as [|[]]; simpl; auto.
Qed.

Lemma finite_inv_fire_all (due : list Timer) st :
  finite_inv st -> finite_inv (foldl (fun s t => fire (action t) s) st due).
Proof.
  revert st. induction due as [|t due IH]; intros st Hinv; simpl; [done|].
  by apply IH, finite_inv_fire.
Qed.

Lemma finite_inv_elapse ms st : finite_inv st -> finite_inv (elapse ms st).
Proof.
  intros Hinv. unfold elapse. induction ms as [|ms IH]; simpl; [done|].
  unfold tick at 1. apply finite_inv_fire_all.
  apply (finite_inv_frame _ _ IH); auto.
Qed.

Lemma finite_confirmedWeight st :
  finite_inv st -> isFinite (confirmedWeight st) = true.
Proof.
  intros [F1 F2 _ _]. unfold confirmedWeight.
  by destruct (useManualWeight st).
Qed.

Lemma sound_saveTicket (t : Ticket) (data : localStorage) :
  sound_ticket t -> Forall sound_ticket (getTickets data) ->
  Forall sound_ticket (getTickets (saveTicket t data)).
Proof.
  intros Ht Hdata. apply Forall_forall. intros u Hu.
  apply elem_of_saveTicket in Hu as [->|Hu]; [done|].
  by apply (proj1 (Forall_forall _ _) Hdata).
Qed.

Lemma sound_newTicket uuid now screenshot st :
  finite_inv st -> sound_ticket (newTicket uuid now screenshot st).
Proof.
  intros Hinv. unfold sound_ticket. simpl.
  by rewrite finite_confirmedWeight.
Qed.

Lemma quarter_nonneg (x : Qc) : (0 <= x)%Qc -> (0 <= x * Q2Qc (1 # 4))%Qc.
Proof.
  intros Hx. replace 0%Qc with (0 * Q2Qc (1 # 4))%Qc by ring.
  by apply Qcmult_le_compat_r.
Qed.

Lemma sound_updatedTicket (matched : Ticket) now screenshot st :
  finite_inv st -> isFinite (inboundWeight matched) = true ->
  sound_ticket (updatedTicket matched now screenshot st).
Proof.
  intros Hinv Hin. pose proof (finite_confirmedWeight st Hinv) as Hout.
  unfold sound_ticket. simpl.
  destruct (inboundWeight matched) as [a| | |]; try done.
  destruct (confirmedWeight st) as [b| | |]; try done. simpl.
  split_and!; [done|done|apply Qcabs_nonneg|].
  apply quarter_nonneg, Qcabs_nonneg.
Qed.

Lemma finite_inv_step st (e : Event) :
  finite_event e -> finite_inv st -> finite_inv (step st e).
Proof.
  intros He Hinv.
  destruct e as [w|checked|value|value|value|screenshot|recognition
                |uuid now screenshot|now screenshot| |ms]; simpl in *.
  - unfold setCurrentWeight. destruct (same w (currentWeight st)); [done|].
    apply finite_inv_effect. destruct Hinv as [F1 F2 F3 F4]. by split.
  - assert (Hset : finite_inv (setUseManualWeight checked st)).
    { unfold setUseManualWeight. case_bool_decide; [done|].
      apply finite_inv_effect. destruct Hinv as [F1 F2 F3 F4]. by split. }
    destruct checked; [|done].
    apply (finite_inv_frame _ _ Hset); auto.
  - destruct Hinv as [F1 F2 F3 F4]. by split.
  - destruct Hinv as [F1 F2 F3 F4]. by split.
  - destruct Hinv as [F1 F2 F3 F4]. by split.
  - unfold handleCapture. destruct (negb (webcamRef st)); [done|].
    destruct (negb (isStable st) && negb (useManualWeight st)).
    { apply (finite_inv_frame st); auto. }
    destruct screenshot as [imageSrc|]; [case_bool_decide|];
      apply (finite_inv_frame st); auto.
  - unfold handleCapture_resume.
    destruct (identifying st) as [imageSrc|]; [|done]. simpl.
    destruct (findOpenTicketByPlate _ _) as [t|] eqn:Hfind; simpl.
    + apply findOpenTicketByPlate_Some in Hfind
        as (_ & l1 & l2 & Hl & _ & _).
      destruct Hinv as [F1 F2 F3 F4]. split; try done. simpl.
      intros ? [= <-]. simpl in Hl. rewrite Hl in F3.
      apply Forall_app in F3 as [_ [Ht _]%Forall_cons]. apply Ht.
    + apply (finite_inv_frame st); auto.
  - unfold processInbound. destruct (negb (webcamRef st)); [done|].
    pose proof (sound_newTicket uuid now screenshot st Hinv) as Hnew.
    destruct Hinv as [F1 F2 F3 F4].
    split.
    + by destruct (useManualWeight st).
    + by destruct (useManualWeight st).
    + replace (storage _)
        with (saveTicket (newTicket uuid now screenshot st) (storage st))
        by (by destruct (useManualWeight st)).
      by apply sound_saveTicket.
    + by destruct (useManualWeight st).
  - unfold processOutbound.
    destruct (matchedTicket st) as [matched|] eqn:Hmatched; [|done].
    destruct (negb (webcamRef st)); [done|].
    pose proof (sound_updatedTicket matched now screenshot st Hinv
                  (finite_matched st Hinv matched Hmatched)) as Hnew.
    destruct Hinv as [F1 F2 F3 F4].
    split; try done.
    change (Forall sound_ticket
              (getTickets (saveTicket (updatedTicket matched now screenshot st)
                             (storage st)))).
    by apply sound_saveTicket.
  - apply (finite_inv_frame st); auto; destruct (useManualWeight st); auto.
  - by apply finite_inv_elapse.
Qed.

Lemma finite_inv_mount (data : localStorage) :
  Forall sound_ticket (getTickets data) -> finite_inv (mount data).
Proof. intros Hdata. by split. Qed.

Lemma finite_inv_run st (events : list Event) :
  Forall finite_event events -> finite_inv st -> finite_inv (run st events).
Proof.
  unfold run. revert st.
  induction events as [|e events IH]; intros st Hevents Hinv; [done|].
  apply Forall_cons in Hevents as [He Hevents]. simpl.
  by apply IH, finite_inv_step.
Qed.

Lemma amounts_from (field : Ticket -> option number) (l : list Ticket)
    (q : Qc) :
  Forall (fun t => amount (field t)) l -> (0 <= q)%Qc ->
  exists r : Qc,
    foldl (fun a t => num_add a (or_zero (field t))) (Num q) l = Num r /\
    (0 <= r)%Qc.
Proof.
  revert q. induction l as [|t l IH]; intros q Hl Hq; simpl.
  - by exists q.
  - apply Forall_cons in Hl as [Ht Hl].
    assert (Hterm : exists c : Qc, or_zero (field t) = Num c /\ (0 <= c)%Qc).
    { unfold or_zero, num_or. destruct (field t) as [[c| | |]|]; try done.
      - simpl in *. case_bool_decide; simpl.
        + exists 0%Qc. split; [done|apply Qcle_refl].
        + by exists c.
      - exists 0%Qc. split; [done|apply Qcle_refl]. }
    destruct Hterm as (c & -> & Hc). simpl. apply IH; [done|].
    replace 0%Qc with (0 + 0)%Qc by ring. by apply Qcplus_le_compat.
Qed.
End amounts.





(** * What the scale delivers *)

Section delivered.
Implicit Types (s line buffer chunk : string).

Lemma parseWeight_finite_nonneg line (w : number) :
  parseWeight line = Some w -> finite_nonneg w.
Proof.
  intros Hw. destruct (no_digit line) eqn:Hd.
  - apply parseWeight_None in Hd. congruence.
  - destruct (first_numeric_exists line Hd) as (m & ds & fs & Hfirst).
    unfold parseWeight in Hw.
    rewrite (regex_match_first_numeric _ _ _ _ Hfirst) in Hw.
    destruct Hfirst as [pre ds post -> Hpre Hds Hpost Hfrac
                       |pre ds fs post -> Hpre Hds Hfs Hpost].
    + rewrite parseFloat_integer in Hw by done. simpl in Hw.
      injection Hw as <-. eexists. split; [done|].
      apply decimal_value_nonneg; [by apply digits_inv|done].
    + rewrite parseFloat_decimal in Hw by done. simpl in Hw.
      injection Hw as <-. eexists. split; [done|].
      apply decimal_value_nonneg; by apply digits_inv.
Qed.

Lemma emit_line_finite_nonneg line :
  Forall finite_nonneg (emit_line line) /\ (length (emit_line line) <= 1)%nat.
Proof.
  unfold emit_line. case_bool_decide; [|split; [constructor|simpl; lia]].
  destruct (parseWeight line) as [w|] eqn:Hw;
    [|split; [constructor|simpl; lia]].
  split; [|simpl; lia].
  apply Forall_singleton. by eapply parseWeight_finite_nonneg.
Qed.

Lemma flat_map_emit_line (lines : list string) :
  Forall finite_nonneg (flat_map emit_line lines) /\
  (length (flat_map emit_line lines) <= length lines)%nat.
Proof.
  induction lines as [|line lines [IH1 IH2]]; simpl;
    [split; [constructor|lia]|].
  destruct (emit_line_finite_nonneg line) as [H1 H2].
  split; [by apply Forall_app|]. rewrite length_app. lia.
Qed.

Lemma split_scan_length (in_run : bool) segment s :
  (length (split_scan in_run segment s) <= S (count_newlines s))%nat.
Proof.
  revert in_run segment. induction s as [|c r IH]; intros in_run segment;
    simpl; [lia|].
  destruct (is_newline c); simpl.
  - destruct in_run; simpl.
    + pose proof (IH true ""). lia.
    + pose proof (IH true ""). lia.
  - apply IH.
Qed.

Lemma removelast_length_pred {A} (l : list A) :
  length (removelast l) = pred (length l).
Proof.
  induction l as [|x l IH]; [done|].
  destruct l as [|y l]; [done|].
  change (length (removelast (x :: y :: l)))
    with (S (length (removelast (y :: l)))).
  by rewrite IH.
Qed.

Lemma processData_finite_nonneg chunk buffer :
  Forall finite_nonneg (processData chunk buffer).2 /\
  (length (processData chunk buffer).2
   <= count_newlines (buffer +:+ chunk))%nat.
Proof.
  unfold processData. cbn [snd].
  destruct (flat_map_emit_line
              (removelast (split_newlines (buffer +:+ chunk)))) as [H1 H2].
  split; [done|].
  rewrite removelast_length_pred in H2.
  pose proof (split_scan_length false "" (buffer +:+ chunk)) as Hlen.
  unfold split_newlines in *. lia.
Qed.

Lemma readLoop_finite_nonneg (chunks : list string) buffer :
  Forall finite_nonneg (readLoop chunks buffer).2.
Proof.
  revert buffer. induction chunks as [|value rest IH]; intros buffer;
    cbn [readLoop]; [done|].
  case_bool_decide.
  - specialize (IH buffer). destruct (readLoop rest buffer) as [b ws].
    by simpl in *.
  - pose proof (processData_finite_nonneg value buffer) as [Hfirst _].
    destruct (processData value buffer) as [buffer1 ws].
    specialize (IH buffer1). destruct (readLoop rest buffer1) as [b ws'].
    simpl in *. by apply Forall_app.
Qed.
End delivered.


(** X29.  The CAPTURE button and its handler: with manual entry on the
    button is enabled, connected or not; with manual entry off it is
    enabled exactly when the reading is STABLE and the scale is connected
    or simulated; and a click on the enabled button never meets the
    unstable-scale alert of the handler: with the camera mounted and a
    screenshot taken, the console goes on to the recognition. *)
Theorem capture_button (p : Panel) :
  (useManualWeight (console p) = true -> capture_disabled p = false) /\
  (useManualWeight (console p) = false ->
   capture_disabled p = false <->
   isStable (console p) = true /\ isConnected p || isSimulating p = true) /\
  (capture_disabled p = false -> webcamRef (console p) = true ->
   forall imageSrc, imageSrc <> "" ->
     let st' := handleCapture (Some imageSrc) (console p) in
     processing st' = true /\ identifying st' = Some imageSrc /\
     outputs st' = outputs (console p)).
Proof.
  unfold capture_disabled. split_and!.
  - intros ->. by rewrite !andb_false_r.
  - intros ->. destruct (isStable (console p)), (isConnected p),
      (isSimulating p); simpl; split; try done; by intros [? ?].
  - intros Henabled Hcam imageSrc Hne. simpl. unfold handleCapture.
    rewrite Hcam. simpl.
    apply orb_false_iff in Henabled as [-> _].
    by rewrite bool_decide_eq_false_2.
Qed.

Lemma capture_button_witness :
  capture_disabled
    (panel_step (mountPanel None) (ConsoleEvent (ToggleManual true)))
  = false.
Proof.
  destruct (capture_button
              (panel_step (mountPanel None) (ConsoleEvent (ToggleManual true))))
    as [Hmanual _].
  apply Hmanual. reflexivity.
Defined.

(** * One open ticket for a truck *)

Section plates_of_the_ledger.
Implicit Types (st : Console) (l : list Ticket) (plate : string).

Lemma open_with_nil plate l :
  Forall (fun t => ~ (status t = OPEN /\ licensePlate t = plate)) l ->
  open_with plate l = [].
Proof.
  unfold open_with. induction l as [|x l IH]; [done|].
  intros [Hx Hl]%Forall_cons. rewrite filter_cons_False by done. by apply IH.
Qed.

Lemma open_with_app plate l1 l2 :
  open_with plate (l1 ++ l2) = open_with plate l1 ++ open_with plate l2.
Proof. apply filter_app. Qed.

Lemma open_with_cons_length plate (x : Ticket) l :
  (length (open_with plate l) <= length (open_with plate (x :: l))
   <= S (length (open_with plate l)))%nat.
Proof.
  unfold open_with. rewrite filter_cons. case_decide; simpl; lia.
Qed.

Lemma open_with_cons_other plate (x : Ticket) l :
  ~ (status x = OPEN /\ licensePlate x = plate) ->
  open_with plate (x :: l) = open_with plate l.
Proof. intros Hx. unfold open_with. by rewrite filter_cons_False. Qed.

(** Saving a ticket that is not an OPEN ticket of the plate does not add
    to the OPEN tickets of the plate. *)
Lemma open_with_saveTicket_other plate (t : Ticket) (data : localStorage) :
  ~ (status t = OPEN /\ licensePlate t = plate) ->
  (length (open_with plate (getTickets (saveTicket t data)))
   <= length (open_with plate (getTickets data)))%nat.
Proof.
  intros Ht.
  destruct (saveTicket_cases t data)
    as [[Hall ->] | (l1 & x & l2 & Hl & Hx & Hall & ->)].
  - rewrite open_with_app, (open_with_cons_other _ t) by done.
    rewrite length_app. simpl. lia.
  - rewrite Hl, !open_with_app, !length_app.
    rewrite (open_with_cons_other _ t) by done.
    pose proof (open_with_cons_length plate x l2). lia.
Qed.

(** Saving a ticket for a plate that has no OPEN ticket leaves at most one. *)
Lemma open_with_saveTicket_new plate (t : Ticket) (data : localStorage) :
  open_with plate (getTickets data) = [] ->
  (length (open_with plate (getTickets (saveTicket t data))) <= 1)%nat.
Proof.
  intros Hnone.
  destruct (saveTicket_cases t data)
    as [[Hall ->] | (l1 & x & l2 & Hl & Hx & Hall & ->)].
  - rewrite open_with_app, Hnone. simpl.
    pose proof (open_with_cons_length plate t []). simpl in *. lia.
  - rewrite Hl, open_with_app in Hnone.
    apply app_eq_nil in Hnone as [H1 H2].
    rewrite open_with_app, H1. simpl.
    pose proof (open_with_cons_length plate x l2) as Hx2.
    pose proof (open_with_cons_length plate t l2) as Ht2.
    rewrite H2 in Hx2. simpl in *. lia.
Qed.

Lemma plate_inv_frame st st' :
  plate_inv st -> draft_inv st' ->
  storage st' = storage st ->
  (mode st' = INBOUND -> mode st = INBOUND /\ detectedPlate st' = detectedPlate st) ->
  plate_inv st'.
Proof.
  intros [P1 P2 P3] Hdraft Hs Hm. split; [done|by rewrite Hs|].
  rewrite Hs. intros [Hmode Hplate]%Hm. rewrite Hplate. by apply P3.
Qed.

(** Time leaves the inbound draft alone, or resets the console. *)
Lemma inbound_draft_fire_all (due : list Timer) st l :
  (mode st = INBOUND -> detectedPlate st <> "UNKNOWN" ->
   open_with (detectedPlate st) l = []) ->
  let st' := foldl (fun s t => fire (action t) s) st due in
  mode st' = INBOUND -> detectedPlate st' <> "UNKNOWN" ->
  open_with (detectedPlate st') l = [].
Proof.
  revert st. induction due as [|t due IH]; intros st Hst; simpl; [done|].
  apply IH. destruct (action t) as [|[]]; simpl; [done|intros [=]..].
Qed.

Lemma inbound_draft_elapse ms st l :
  (mode st = INBOUND -> detectedPlate st <> "UNKNOWN" ->
   open_with (detectedPlate st) l = []) ->
  mode (elapse ms st) = INBOUND -> detectedPlate (elapse ms st) <> "UNKNOWN" ->
  open_with (detectedPlate (elapse ms st)) l = [].
Proof.
  intros Hst. unfold elapse. induction ms as [|ms IH]; simpl; [done|].
  unfold tick. by apply inbound_draft_fire_all.
Qed.

Lemma plate_inv_step st (e : Event) :
  operator_event st e -> plate_inv st -> plate_inv (step st e).
Proof.
  intros He Hinv.
  pose proof (draft_inv_step st e (plates_draft st Hinv)) as Hdraft.
  pose proof (storage_step_other st e) as Hother.
  destruct e as [w|checked|value|value|value|screenshot|recognition
                |uuid now screenshot|now screenshot| |ms].
  - apply (plate_inv_frame st); [done..|].
    pose proof (desk_setCurrentWeight w st) as Hdesk. simpl.
    injection Hdesk as Hm _ _ _. rewrite Hm. intros ?. split; [done|].
    unfold setCurrentWeight. destruct (same w _); [done|].
    unfold rerun_effect, stability_effect, stability_cleanup,
      clearStabilityTimeout.
    destruct (stabilityCleanup _); simpl;
      repeat (destruct (stabilityTimeoutRef _) as [?|]; simpl);
      repeat case_bool_decide; simpl;
      destruct (useManualWeight st); simpl; done.
  - apply (plate_inv_frame st); [done..|].
    pose proof (desk_setUseManualWeight checked st) as Hdesk. simpl.
    injection Hdesk as Hm _ _ _.
    assert (Hp : detectedPlate (setUseManualWeight checked st)
                 = detectedPlate st).
    { unfold setUseManualWeight. case_bool_decide; [done|].
      unfold rerun_effect, stability_effect, stability_cleanup,
        clearStabilityTimeout.
      destruct (stabilityCleanup _); simpl;
        repeat (destruct (stabilityTimeoutRef _) as [?|]; simpl);
        repeat case_bool_decide; simpl;
        destruct checked; simpl; done. }
    destruct checked; simpl; rewrite ?Hm, ?Hp; done.
  - by apply (plate_inv_frame st).
  - done.
  - by apply (plate_inv_frame st).
  - apply (plate_inv_frame st); [done..|]. simpl. unfold handleCapture.
    destruct (negb (webcamRef st)); [done|].
    destruct (negb (isStable st) && negb (useManualWeight st)); [done|].
    destruct screenshot as [imageSrc|]; [case_bool_decide|]; done.
  - destruct Hinv as [P1 P2 P3].
    split; [done|by rewrite Hother|]. rewrite Hother. simpl.
    unfold handleCapture_resume.
    destruct (identifying st) as [imageSrc|] eqn:Hid; [|done]. simpl.
    destruct (findOpenTicketByPlate _ _) as [t|] eqn:Hfind; simpl; [done|].
    intros _ Hu.
    apply open_with_nil. by apply (findOpenTicketByPlate_None _ _ Hu).
  - simpl in He. destruct Hinv as [P1 P2 P3].
    cbn [step] in *. split; [done| |].
    + unfold processInbound. destruct (negb (webcamRef st)) eqn:Hcam; [done|].
      replace (storage _)
        with (saveTicket (newTicket uuid now screenshot st) (storage st))
        by (by destruct (useManualWeight st)).
      intros plate Hplate.
      destruct (decide (licensePlate (newTicket uuid now screenshot st)
                        = plate)) as [Heq|Hother'].
      * apply open_with_saveTicket_new. rewrite <- Heq. simpl.
        case_bool_decide as Hempty.
        { simpl in Heq. rewrite bool_decide_eq_true_2 in Heq by done.
          congruence. }
        apply P3; [done|].
        simpl in Heq. rewrite bool_decide_eq_false_2 in Heq by done.
        congruence.
      * etrans; [apply open_with_saveTicket_other; by intros [_ ?]|].
        by apply P2.
    + unfold processInbound. destruct (negb (webcamRef st)) eqn:Hcam.
      * intros Hm Hd. by apply P3.
      * by destruct (useManualWeight st).
  - destruct Hinv as [P1 P2 P3]. cbn [step] in *.
    unfold processOutbound in *.
    destruct (matchedTicket st) as [matched|] eqn:Hmatched; [|by split].
    destruct (negb (webcamRef st)) eqn:Hcam; [by split|].
    split; [done| |].
    + change (one_open_per_plate
                (getTickets
                   (saveTicket (updatedTicket matched now screenshot st)
                      (storage st)))).
      intros plate Hplate.
      etrans; [apply open_with_saveTicket_other; by intros [? _]|].
      by apply P2.
    + simpl. intros Hmode. exfalso.
      assert (Hout : mode st = OUTBOUND)
        by (apply (draft_outbound st P1); by rewrite Hmatched).
      congruence.
  - apply (plate_inv_frame st); [done..|]. simpl.
    by destruct (useManualWeight st).
  - destruct Hinv as [P1 P2 P3].
    split; [done|by rewrite Hother|]. rewrite Hother. simpl.
    by apply inbound_draft_elapse.
Qed.
End plates_of_the_ledger.

Lemma plate_inv_mount (data : localStorage) :
  one_open_per_plate (getTickets data) -> plate_inv (mount data).
Proof.
  intros Hdata. split; [apply draft_inv_mount| |done].
  unfold mount. by rewrite storage_stability_effect.
Qed.

Lemma plate_inv_run (st : Console) (events : list Event) :
  operator_run st events -> plate_inv st -> plate_inv (run st events).
Proof.
  unfold run. revert st.
  induction events as [|e events IH]; intros st Hrun Hinv; [done|].
  destruct Hrun as [He Hrun]. simpl. by apply IH, plate_inv_step.
Qed.

(** X30.  As long as the operator does not retype the plate of the inbound
    draft, the console keeps at most one OPEN ticket for each plate, the
    sentinel "UNKNOWN" apart: a truck that has an OPEN ticket is matched
    by its next capture and weighed out, never weighed in a second time.
    This holds whatever ids the new tickets get, and whatever else happens
    in between. *)
Theorem one_open_ticket_per_plate (data : localStorage)
    (events : list Event) :
  one_open_per_plate (getTickets data) ->
  operator_run (mount data) events ->
  one_open_per_plate (getTickets (storage (run (mount data) events))).
Proof.
  intros Hdata Hrun.
  by apply (plates_ledger _ (plate_inv_run _ _ Hrun (plate_inv_mount _ Hdata))).
Qed.

Lemma one_open_ticket_per_plate_witness :
  one_open_per_plate (getTickets (storage (run (mount None) (take 5 scenario)))).
Proof.
  apply (one_open_ticket_per_plate None (take 5 scenario)).
  - intros plate _. simpl. lia.
  - repeat (split; [first [exact I | unfold operator_event; by_computation]|]).
    exact I.
Defined.

(** Retyping the plate of the inbound draft to one that has an OPEN ticket
    opens a second ticket for it. *)
Example retyped_plate_opens_second_ticket :
  open_with "ABC123"
    (getTickets
       (storage
          (run (mount (Some [open_ticket]))
             [Elapse 800; Capture (Some "data:image/jpeg;base64,CCCC");
              Identified (mkRecognition "ABC128" (Num (Q2Qc (1 # 2))));
              EditPlate "ABC123";
              ConfirmInbound "t2" 1700000900000 None])))
  = [open_ticket;
     newTicket "t2" 1700000900000 None
       (run (mount (Some [open_ticket]))
          [Elapse 800; Capture (Some "data:image/jpeg;base64,CCCC");
           Identified (mkRecognition "ABC128" (Num (Q2Qc (1 # 2))));
           EditPlate "ABC123"])].
Proof. by_computation. Qed.
